(** * NYC subway route analysis: network construction and A* route prediction

    A shallow embedding of [gtfs_astar.py]: the great-circle heuristic
    ([haversine], [heuristic]), the construction of the directed network
    from the three record sets read from the schedule database, and the
    route prediction, which runs [networkx]'s [astar_path] and
    [astar_path_length] on that network; and of [gtfs_time_to_seconds] of
    [gtfs_to_sql.py], which turns the clock times of the schedule into
    seconds.

    Conventions of the embedding.
    - Python exceptions are explicit: a computation returns [Ret v] or
      [Raise e].
    - A Python [float] is a real number or NaN ([pyfloat]); rounding is not
      modelled.  The functions of [math] propagate NaN the way the C
      library does, and [math.sqrt] raises [ValueError] below zero.
    - Durations and weights are integers ([Z]), as the schedule database
      stores them.
    - A [dict] that is only looked up is a [gmap]; a [dict] that is iterated
      (the successors of a node) is an association list in insertion order.
    - The two functions of [networkx] and the heap of [heapq] they rely on
      are transcribed from the library sources, statement for statement. *)

From Stdlib Require Import ZArith Reals Lra Lia Ascii.
From stdpp Require Import gmap strings list.

Local Open Scope Z_scope.

(** ** Python values, exceptions and the [math] module *)

Module Py.

Inductive exn :=
| KeyError
| ValueError
| IndexError
| NodeNotFound
| NetworkXNoPath.

(** The outcome of a computation: a value, a raised exception, or
    [OutOfFuel] when one of the model's loops was cut off by its step
    budget.  [OutOfFuel] is not a Python outcome; the theorems about the
    search show that a large enough budget never produces it. *)
Inductive result (A : Type) :=
| Ret (a : A)
| Raise (e : exn)
| OutOfFuel.
Arguments Ret {A} a.
Arguments Raise {A} e.
Arguments OutOfFuel {A}.

Definition bind {A B} (m : result A) (k : A -> result B) : result B :=
  match m with
  | Ret a => k a
  | Raise e => Raise e
  | OutOfFuel => OutOfFuel
  end.

Definition exn_eqb (a b : exn) : bool :=
  match a, b with
  | KeyError, KeyError
  | ValueError, ValueError
  | IndexError, IndexError
  | NodeNotFound, NodeNotFound
  | NetworkXNoPath, NetworkXNoPath => true
  | _, _ => false
  end.

(** [try: body except e: handler]. *)
Definition try_except {A} (body : result A) (e : exn)
    (handler : result A) : result A :=
  match body with
  | Raise e' => if exn_eqb e' e then handler else Raise e'
  | r => r
  end.

(** [d[k]] on a dictionary: [KeyError] when the key is absent. *)
Definition getitem {A} (o : option A) : result A :=
  match o with
  | Some a => Ret a
  | None => Raise KeyError
  end.

Inductive pyfloat :=
| PyNum (r : R)
| PyNaN.

Definition lift1 (f : R -> R) (x : pyfloat) : pyfloat :=
  match x with
  | PyNum a => PyNum (f a)
  | PyNaN => PyNaN
  end.

Definition lift2 (f : R -> R -> R) (x y : pyfloat) : pyfloat :=
  match x, y with
  | PyNum a, PyNum b => PyNum (f a b)
  | _, _ => PyNaN
  end.

Definition fadd := lift2 Rplus.
Definition fsub := lift2 Rminus.
Definition fmul := lift2 Rmult.
(** Division; the only divisors in the program are the literals 2 and 10. *)
Definition fdiv := lift2 Rdiv.
Definition fsquare (x : pyfloat) : pyfloat := fmul x x.
Definition of_int (z : Z) : pyfloat := PyNum (IZR z).

Definition Rltb (a b : R) : bool := if Rlt_dec a b then true else false.
Definition Rleb (a b : R) : bool := if Rle_dec a b then true else false.
Definition Reqb (a b : R) : bool := if Req_dec_T a b then true else false.

(** [x < y] and [x == y] on floats: false as soon as one side is NaN. *)
Definition flt (x y : pyfloat) : bool :=
  match x, y with
  | PyNum a, PyNum b => Rltb a b
  | _, _ => false
  end.

Definition feq (x y : pyfloat) : bool :=
  match x, y with
  | PyNum a, PyNum b => Reqb a b
  | _, _ => false
  end.

Definition math_radians (x : pyfloat) : pyfloat :=
  lift1 (fun a => a * (PI / 180))%R x.
Definition math_sin : pyfloat -> pyfloat := lift1 sin.
Definition math_cos : pyfloat -> pyfloat := lift1 cos.

Definition math_sqrt (x : pyfloat) : result pyfloat :=
  match x with
  | PyNum a => if Rltb a 0 then Raise ValueError else Ret (PyNum (sqrt a))
  | PyNaN => Ret PyNaN
  end.

(** The angle of the point [(x, y)], in [(-PI, PI]]. *)
Definition atan2 (y x : R) : R :=
  if Rltb 0 x then atan (y / x)
  else if Rltb x 0 then
    (if Rltb y 0 then atan (y / x) - PI else atan (y / x) + PI)
  else if Rltb 0 y then PI / 2
  else if Rltb y 0 then - PI / 2
  else 0.

Definition math_atan2 : pyfloat -> pyfloat -> pyfloat := lift2 atan2.

End Py.
Export Py.

#[export] Instance result_ret : MRet result := fun A a => Ret a.
#[export] Instance result_bind : MBind result := fun A B k m => bind m k.

Declare Scope pyfloat_scope.
Delimit Scope pyfloat_scope with fl.
Bind Scope pyfloat_scope with pyfloat.
Infix "+" := fadd : pyfloat_scope.
Infix "-" := fsub : pyfloat_scope.
Infix "*" := fmul : pyfloat_scope.
Infix "/" := fdiv : pyfloat_scope.

(** ** Configuration and the heuristic's distance *)

Module Config.
Definition SUBWAY_SPEED_MPS : Z := 10.
Definition R : Z := 6371000.
End Config.

(** Great-circle distance between two points, in meters.  Over the real
    numbers [a] lies between 0 and 1 and neither square root raises; in
    IEEE doubles rounding can take [a] above 1 for points that are nearly
    antipodal, and [math.sqrt (1 - a)] then raises [ValueError], which
    this model of floats does not show. *)
Definition haversine (lat1 lon1 lat2 lon2 : pyfloat) : result pyfloat :=
  let phi1 := math_radians lat1 in
  let phi2 := math_radians lat2 in
  let dphi := math_radians (lat2 - lat1)%fl in
  let dlambda := math_radians (lon2 - lon1)%fl in
  let a := (fsquare (math_sin (dphi / of_int 2)) +
            math_cos phi1 * math_cos phi2 *
            fsquare (math_sin (dlambda / of_int 2)))%fl in
  s ← math_sqrt a;
  s' ← math_sqrt (of_int 1 - a)%fl;
  let c := (of_int 2 * math_atan2 s s')%fl in
  Ret (of_int Config.R * c)%fl.

(** ** The [heapq] module

    A binary heap stored in a list; [lt] is Python's [<] on the items. *)

Module Heapq.
Section heapq.
Context {A : Type} (lt : A -> A -> bool).

(** The [while pos > startpos] loop of [_siftdown].  [pos] at least halves
    at every turn, so [pos] turns are enough: when the budget is spent
    [pos] is 0 and the loop is over. *)
Fixpoint siftdown_loop (fuel : nat) (heap : list A) (newitem : A)
    (startpos pos : nat) : list A :=
  match fuel with
  | O => <[pos := newitem]> heap
  | S fuel =>
      if bool_decide (startpos < pos)%nat then
        let parentpos := ((pos - 1) / 2)%nat in
        match heap !! parentpos with
        | Some parent =>
            if lt newitem parent
            then siftdown_loop fuel (<[pos := parent]> heap) newitem
                   startpos parentpos
            else <[pos := newitem]> heap
        | None => <[pos := newitem]> heap
        end
      else <[pos := newitem]> heap
  end.

Definition siftdown (heap : list A) (startpos pos : nat) : list A :=
  match heap !! pos with
  | Some newitem => siftdown_loop pos heap newitem startpos pos
  | None => heap
  end.

(** [heap[i] < heap[j]]. *)
Definition item_lt (heap : list A) (i j : nat) : bool :=
  match heap !! i, heap !! j with
  | Some x, Some y => lt x y
  | _, _ => false
  end.

(** The [while childpos < endpos] loop of [_siftup]: the smaller child
    moves up until [pos] is a leaf.  Returns the heap and the leaf. *)
Fixpoint siftup_loop (fuel : nat) (heap : list A) (endpos pos : nat)
    : list A * nat :=
  match fuel with
  | O => (heap, pos)
  | S fuel =>
      let childpos := (2 * pos + 1)%nat in
      if bool_decide (childpos < endpos)%nat then
        let rightpos := (childpos + 1)%nat in
        let childpos :=
          if bool_decide (rightpos < endpos)%nat &&
             negb (item_lt heap childpos rightpos)
          then rightpos else childpos in
        match heap !! childpos with
        | Some child => siftup_loop fuel (<[pos := child]> heap) endpos childpos
        | None => (heap, pos)
        end
      else (heap, pos)
  end.

Definition siftup (heap : list A) (pos : nat) : list A :=
  let endpos := length heap in
  let startpos := pos in
  match heap !! pos with
  | Some newitem =>
      let '(heap, pos) := siftup_loop (endpos - pos) heap endpos pos in
      siftdown (<[pos := newitem]> heap) startpos pos
  | None => heap
  end.

Definition heappush (heap : list A) (item : A) : list A :=
  let heap := heap ++ [item] in
  siftdown heap 0 (length heap - 1).

Definition heappop (heap : list A) : result (A * list A) :=
  match last heap with
  | None => Raise IndexError
  | Some lastelt =>
      match removelast heap with
      | [] => Ret (lastelt, [])
      | returnitem :: rest =>
          Ret (returnitem, siftup (lastelt :: rest) 0)
      end
  end.

End heapq.
End Heapq.

(** ** Python dictionaries that are iterated: insertion-ordered *)

Module Dict.
Section dict.
Context {V : Type}.

Fixpoint get (d : list (string * V)) (k : string) : option V :=
  match d with
  | [] => None
  | (k', v) :: d => if decide (k = k') then Some v else get d k
  end.

(** [d[k] = v]: an existing key keeps its position. *)
Fixpoint set (d : list (string * V)) (k : string) (v : V)
    : list (string * V) :=
  match d with
  | [] => [(k, v)]
  | (k', v') :: d =>
      if decide (k = k') then (k, v) :: d else (k', v') :: set d k v
  end.

End dict.
End Dict.

(** ** [networkx.DiGraph] *)

Inductive edge_type := travel | transfer.

#[export] Instance edge_type_eq_dec : EqDecision edge_type.
Proof. solve_decision. Defined.

(** The data dictionary of an edge; [None] is an absent key. *)
Record edge_attrs := {
  weight : option Z;
  type : option edge_type;
  route : option string
}.

Record coords_t := { stop_lat : pyfloat; stop_lon : pyfloat }.

(** The attribute dictionary of a node. *)
Record node_attrs := {
  name : option string;
  coords : option coords_t
}.

Record DiGraph := {
  nodes : gmap string node_attrs;
  adj : gmap string (list (string * edge_attrs))
}.

Module Nx.

Definition empty_graph : DiGraph := {| nodes := ∅; adj := ∅ |}.

Definition has_node (G : DiGraph) (n : string) : bool :=
  bool_decide (is_Some (nodes G !! n)).

Definition new_node (G : DiGraph) (n : string) : DiGraph :=
  {| nodes := <[n := {| name := None; coords := None |}]> (nodes G);
     adj := <[n := []]> (adj G) |}.

(** [G.add_nodes_from(ns)] without attributes: a node not yet in the node
    dictionary gets empty attribute and successor dictionaries. *)
Definition add_nodes_from (G : DiGraph) (ns : list string) : DiGraph :=
  foldl (fun G n => if has_node G n then G else new_node G n) G ns.

(** [set_node_attributes(G, values, name)] for a dictionary of values:
    the nodes of [G] that are keys of [values] get the attribute, the other
    keys are skipped. *)
Definition set_node_attributes {V} (G : DiGraph) (values : gmap string V)
    (setattr : V -> node_attrs -> node_attrs) : DiGraph :=
  {| nodes := map_imap (fun n a =>
                 Some (match values !! n with
                       | Some v => setattr v a
                       | None => a
                       end)) (nodes G);
     adj := adj G |}.

Definition set_name (v : string) (a : node_attrs) : node_attrs :=
  {| name := Some v; coords := coords a |}.
Definition set_coords (v : coords_t) (a : node_attrs) : node_attrs :=
  {| name := name a; coords := Some v |}.

(** [datadict.update(attr)]: the keys of [attr] are written, the other
    keys of [datadict] stay. *)
Definition update (datadict attr : edge_attrs) : edge_attrs :=
  {| weight := match weight attr with Some w => Some w | None => weight datadict end;
     type := match type attr with Some t => Some t | None => type datadict end;
     route := match route attr with Some r => Some r | None => route datadict end |}.

Definition no_attrs : edge_attrs :=
  {| weight := None; type := None; route := None |}.

Definition successors (G : DiGraph) (u : string) : list (string * edge_attrs) :=
  default [] (adj G !! u).

(** [G.add_edge(u, v, **attr)]: an end that has no successor dictionary
    yet becomes a node, and the attributes update the data of the edge,
    which is created empty when there is none. *)
Definition add_edge (G : DiGraph) (u v : string) (attr : edge_attrs)
    : DiGraph :=
  let G := if bool_decide (is_Some (adj G !! u)) then G else new_node G u in
  let G := if bool_decide (is_Some (adj G !! v)) then G else new_node G v in
  let datadict := default no_attrs (Dict.get (successors G u) v) in
  let datadict := update datadict attr in
  {| nodes := nodes G;
     adj := <[u := Dict.set (successors G u) v datadict]> (adj G) |}.

(** [G[u][v]]. *)
Definition get_edge (G : DiGraph) (u v : string) : result edge_attrs :=
  nbrs ← getitem (adj G !! u);
  getitem (Dict.get nbrs v).

(** The function [networkx] builds from [weight='weight']:
    [data.get('weight', 1)]. *)
Definition weight_function (data : edge_attrs) : Z :=
  default 1 (weight data).

End Nx.

(** ** The schedule database and the network built from it *)

(** A row of [stops]; a NULL coordinate is read as NaN. *)
Record stop_row := {
  stop_id : string;
  stop_name : string;
  row_lat : pyfloat;
  row_lon : pyfloat
}.

(** A row of the trip query: an ordered pair of stops, the minimum
    scheduled duration between them and a route serving them. *)
Record trip_row := {
  trip_from : string;
  trip_to : string;
  trip_weight : Z;
  route_id : string
}.

(** A row of [transfers]; [min_transfer_time] may be NULL. *)
Record transfer_row := {
  from_stop_id : string;
  to_stop_id : string;
  min_transfer_time : option Z
}.

(** A row of the transfer query. *)
Record transfer_edge := {
  tr_from : string;
  tr_to : string;
  tr_weight : Z
}.

(** [CASE WHEN min_transfer_time > 0 THEN min_transfer_time ELSE 180 END];
    the comparison with NULL is not true. *)
Definition transfer_weight (mtt : option Z) : Z :=
  match mtt with
  | Some m => if 0 <? m then m else 180
  | None => 180
  end.

(** [SELECT from_stop_id, to_stop_id, CASE ... END AS weight FROM transfers
    WHERE from_stop_id != to_stop_id]. *)
Definition transfer_query (transfers : list transfer_row) : list transfer_edge :=
  (fun r => {| tr_from := from_stop_id r; tr_to := to_stop_id r;
               tr_weight := transfer_weight (min_transfer_time r) |})
    <$> filter (fun r => from_stop_id r ≠ to_stop_id r) transfers.

(** [stops_df.set_index('stop_id')['stop_name'].to_dict()]. *)
Definition stop_name_map (stops_df : list stop_row) : gmap string string :=
  foldl (fun m r => <[stop_id r := stop_name r]> m) ∅ stops_df.

(** [stops_df.set_index('stop_id')[['stop_lat', 'stop_lon']].to_dict('index')]:
    pandas raises [ValueError] when the index is not unique. *)
Definition stop_coords (stops_df : list stop_row) : result (gmap string coords_t) :=
  if bool_decide (NoDup (stop_id <$> stops_df)) then
    Ret (foldl (fun m r => <[stop_id r := {| stop_lat := row_lat r;
                                             stop_lon := row_lon r |}]> m)
           ∅ stops_df)
  else Raise ValueError.

Definition add_trip_edge (G : DiGraph) (row : trip_row) : DiGraph :=
  Nx.add_edge G (trip_from row) (trip_to row)
    {| weight := Some (trip_weight row); type := Some travel;
       route := Some (route_id row) |}.

Definition add_transfer_edge (G : DiGraph) (row : transfer_edge) : DiGraph :=
  if Nx.has_node G (tr_from row) && Nx.has_node G (tr_to row) then
    Nx.add_edge G (tr_from row) (tr_to row)
      {| weight := Some (tr_weight row); type := Some transfer;
         route := None |}
  else G.

(** Steps 1 to 3 of [build_network_and_predict]. *)
Definition build_network (stops_df : list stop_row)
    (trip_edges_df : list trip_row) (transfers : list transfer_row)
    : result DiGraph :=
  let names := stop_name_map stops_df in
  cs ← stop_coords stops_df;
  let transfer_edges_df := transfer_query transfers in
  let G := Nx.empty_graph in
  let G := Nx.add_nodes_from G (stop_id <$> stops_df) in
  let G := Nx.set_node_attributes G names Nx.set_name in
  let G := Nx.set_node_attributes G cs Nx.set_coords in
  let G := foldl add_trip_edge G trip_edges_df in
  let G := foldl add_transfer_edge G transfer_edges_df in
  Ret G.

(** Step 4: the estimate of the travel time from [u] to [v], in seconds. *)
Definition heuristic (G : DiGraph) (u v : string) : result pyfloat :=
  try_except
    (u_attrs ← getitem (nodes G !! u);
     u_coords ← getitem (coords u_attrs);
     v_attrs ← getitem (nodes G !! v);
     v_coords ← getitem (coords v_attrs);
     dist ← haversine (stop_lat u_coords) (stop_lon u_coords)
                      (stop_lat v_coords) (stop_lon v_coords);
     Ret (dist / of_int Config.SUBWAY_SPEED_MPS)%fl)
    KeyError
    (Ret (of_int 0)).

(** ** [networkx.astar_path] and [networkx.astar_path_length] *)

(** An item of the queue: [(priority, next(c), node, cost, parent)]. *)
Record entry := {
  priority : pyfloat;
  count : nat;
  curnode : string;
  dist : Z;
  parent : option string
}.

(** [<] on the tuples.  The first components that differ decide; the
    counters of two items of one queue always differ, so the comparison
    never gets to the node names. *)
Definition entry_lt (x y : entry) : bool :=
  if feq (priority x) (priority y) then (count x <? count y)%nat
  else flt (priority x) (priority y).

Record search_state := {
  queue : list entry;
  c : nat;
  enqueued : gmap string (Z * pyfloat);
  explored : gmap string (option string)
}.

Inductive control :=
| Return (path : list string)
| Continue (st : search_state).

Module Astar.
Section astar.
Context (G : DiGraph) (heuristic : string -> string -> result pyfloat)
        (target : string).

Definition push_neighbor (st : search_state) (neighbor : string) (ncost : Z)
    (h : pyfloat) (cur : string) : search_state :=
  {| queue := Heapq.heappush entry_lt (queue st)
                {| priority := (of_int ncost + h)%fl; count := c st;
                   curnode := neighbor; dist := ncost; parent := Some cur |};
     c := S (c st);
     enqueued := <[neighbor := (ncost, h)]> (enqueued st);
     explored := explored st |}.

(** One turn of [for neighbor, w in G_succ[curnode].items()]. *)
Definition relax (cur : string) (d : Z) (st : search_state)
    (nb : string * edge_attrs) : result search_state :=
  let '(neighbor, w) := nb in
  let cost := Nx.weight_function w in
  let ncost := d + cost in
  match enqueued st !! neighbor with
  | Some (qcost, h) =>
      if qcost <=? ncost then Ret st
      else Ret (push_neighbor st neighbor ncost h cur)
  | None =>
      h ← heuristic neighbor target;
      Ret (push_neighbor st neighbor ncost h cur)
  end.

Fixpoint relax_all (cur : string) (d : Z) (st : search_state)
    (nbrs : list (string * edge_attrs)) : result search_state :=
  match nbrs with
  | [] => Ret st
  | nb :: nbrs => st ← relax cur d st nb; relax_all cur d st nbrs
  end.

(** [while node is not None: path.append(node); node = explored[node]]. *)
Fixpoint reconstruct (fuel : nat) (expl : gmap string (option string))
    (node : option string) (path : list string) : result (list string) :=
  match node with
  | None => Ret path
  | Some n =>
      match fuel with
      | O => OutOfFuel
      | S fuel =>
          node ← getitem (expl !! n);
          reconstruct fuel expl node (path ++ [n])
      end
  end.

(** The body of [while queue]. *)
Definition iteration (fuel : nat) (st : search_state) : result control :=
  '(e, q) ← Heapq.heappop entry_lt (queue st);
  let st := {| queue := q; c := c st; enqueued := enqueued st;
               explored := explored st |} in
  if bool_decide (curnode e = target) then
    path ← reconstruct fuel (explored st) (parent e) [curnode e];
    Ret (Return (reverse path))
  else
    skip ← match explored st !! curnode e with
           | Some None => Ret true
           | Some (Some _) =>
               '(qcost, _) ← getitem (enqueued st !! curnode e);
               Ret (qcost <? dist e)
           | None => Ret false
           end;
    if skip : bool then Ret (Continue st)
    else
      let st := {| queue := queue st; c := c st; enqueued := enqueued st;
                   explored := <[curnode e := parent e]> (explored st) |} in
      nbrs ← getitem (adj G !! curnode e);
      st ← relax_all (curnode e) (dist e) st nbrs;
      Ret (Continue st).

Fixpoint loop (fuel : nat) (st : search_state) : result (list string) :=
  match queue st with
  | [] => Raise NetworkXNoPath
  | _ =>
      match fuel with
      | O => OutOfFuel
      | S fuel =>
          r ← iteration fuel st;
          match r with
          | Return path => Ret path
          | Continue st => loop fuel st
          end
      end
  end.

Definition initial (source : string) : search_state :=
  {| queue := [ {| priority := of_int 0; count := 0; curnode := source;
                   dist := 0; parent := None |} ];
     c := 1;
     enqueued := ∅;
     explored := ∅ |}.

End astar.
End Astar.

Module Nx_astar.

Definition astar_path (fuel : nat) (G : DiGraph) (source target : string)
    (heuristic : string -> string -> result pyfloat) : result (list string) :=
  if negb (Nx.has_node G source) then Raise NodeNotFound
  else if negb (Nx.has_node G target) then Raise NodeNotFound
  else Astar.loop G heuristic target fuel (Astar.initial source).

(** [sum(weight(u, v, G[u][v]) for u, v in zip(path[:-1], path[1:]))]. *)
Fixpoint path_weight (G : DiGraph) (path : list string) : result Z :=
  match path with
  | u :: (v :: _) as rest =>
      data ← Nx.get_edge G u v;
      total ← path_weight G rest;
      Ret (Nx.weight_function data + total)
  | _ => Ret 0
  end.

Definition astar_path_length (fuel : nat) (G : DiGraph)
    (source target : string)
    (heuristic : string -> string -> result pyfloat) : result Z :=
  if negb (Nx.has_node G source) || negb (Nx.has_node G target)
  then Raise NodeNotFound
  else
    path ← astar_path fuel G source target heuristic;
    path_weight G path.

End Nx_astar.

(** ** Step 5: the prediction and what it prints *)

Inductive mode :=
| TakeLine (r : option string)
| TransferWalk.

Inductive line :=
| DatabaseNotFound
| GraphBuilt (number_of_nodes : nat)
| Calculating (from_name to_name : string)
| Successful
| Origin (stop : string) (id : string)
| Destination (stop : string) (id : string)
| TotalTime (total_seconds : Z)
| Stops (n : Z)
| RouteSegment
| Segment (i : nat) (from_name to_name : option string) (m : mode) (w : Z)
| NoPathFound (s t : string)
| NodeNotFoundError.

(** What an observer of a run sees: the lines printed and the calls made
    to the two search functions. *)
Inductive event :=
| Print (l : line)
| CallAstarPath (s t : string)
| CallAstarPathLength (s t : string).

Definition traced (A : Type) : Type := list event * result A.

Definition tbind {A B} (m : traced A) (k : A -> traced B) : traced B :=
  match m with
  | (t, Ret a) => let '(t', r) := k a in (t ++ t', r)
  | (t, Raise e) => (t, Raise e)
  | (t, OutOfFuel) => (t, OutOfFuel)
  end.

Definition emit (l : line) : traced unit := ([Print l], Ret tt).
Definition call {A} (ev : event) (r : result A) : traced A := ([ev], r).
Definition lift {A} (r : result A) : traced A := ([], r).

Definition ttry {A} (body : traced A) (e : exn) (handler : traced A)
    : traced A :=
  match body with
  | (t, Raise e') =>
      if exn_eqb e' e then let '(t', r) := handler in (t ++ t', r)
      else (t, Raise e')
  | r => r
  end.

#[export] Instance traced_bind : MBind traced := fun A B k m => tbind m k.

(** [for i in range(min(5, len(path)-1))]: the lines of the first steps. *)
Fixpoint print_segments (fuel : nat) (i : nat) (G : DiGraph)
    (names : gmap string string) (path : list string) : traced unit :=
  match fuel, path with
  | S fuel, u :: (v :: _) as rest =>
      edge ← lift (Nx.get_edge G u v);
      let m := if bool_decide (type edge = Some travel)
               then TakeLine (route edge) else TransferWalk in
      w ← lift (getitem (weight edge));
      emit (Segment (S i) (names !! u) (names !! v) m w);;
      print_segments fuel (S i) G names rest
  | _, _ => lift (Ret tt)
  end.

Definition predict (fuel : nat) (G : DiGraph) (names : gmap string string)
    (start_node end_node : string) : traced unit :=
  emit (Calculating (default start_node (names !! start_node))
                    (default end_node (names !! end_node)));;
  if Nx.has_node G start_node && Nx.has_node G end_node then
    ttry
      (path ← call (CallAstarPath start_node end_node)
                (Nx_astar.astar_path fuel G start_node end_node (heuristic G));
       total_seconds ← call (CallAstarPathLength start_node end_node)
                (Nx_astar.astar_path_length fuel G start_node end_node
                   (heuristic G));
       emit Successful;;
       n ← lift (getitem (names !! start_node));
       emit (Origin n start_node);;
       n ← lift (getitem (names !! end_node));
       emit (Destination n end_node);;
       emit (TotalTime total_seconds);;
       emit (Stops (Z.of_nat (length path) - 1));;
       emit RouteSegment;;
       print_segments 5 0 G names path)
      NetworkXNoPath
      (emit (NoPathFound start_node end_node))
  else emit NodeNotFoundError.

(** The snapshot of the schedule database the run reads. *)
Record database := {
  stops : list stop_row;
  trip_edges : list trip_row;
  transfers : list transfer_row
}.

Definition start_node : string := "101S".
Definition end_node : string := "142S".

Definition build_network_and_predict (fuel : nat) (db : option database)
    : traced unit :=
  match db with
  | None => emit DatabaseNotFound
  | Some db =>
      G ← lift (build_network (stops db) (trip_edges db) (transfers db));
      emit (GraphBuilt (size (nodes G)));;
      predict fuel G (stop_name_map (stops db)) start_node end_node
  end.

(** ** [gtfs_to_sql.py]: clock times as seconds

    A [str] is modelled as a string of characters with code points below
    256. *)

Module Gtfs_to_sql.

(** The exceptions the [try] block of [gtfs_time_to_seconds] can meet. *)
Inductive exn :=
| AttributeError
| IndexError
| ValueError.

#[export] Instance exn_ret : MRet (sum exn) := fun A a => inr a.
#[export] Instance exn_bind : MBind (sum exn) := fun A B k m =>
  match m with
  | inl e => inl e
  | inr a => k a
  end.

(** A cell of a column read by [pandas.read_csv]: a [str], a [float] (NaN
    for a missing value), an [int], or [None]. *)
Inductive cell :=
| CellStr (s : string)
| CellFloat (x : pyfloat)
| CellInt (z : Z)
| CellNone.

(** [pd.isna] on a scalar. *)
Definition isna (v : cell) : bool :=
  match v with
  | CellFloat PyNaN | CellNone => true
  | _ => false
  end.

(** [s.split(sep)] for a separator of one character: every occurrence of
    the separator ends a part, and the parts may be empty. *)
Fixpoint split (sep : Ascii.ascii) (s : string) : list string :=
  match s with
  | EmptyString => [EmptyString]
  | String a rest =>
      if Ascii.eqb a sep then EmptyString :: split sep rest
      else match split sep rest with
           | p :: ps => String a p :: ps
           | [] => [String a EmptyString]
           end
  end.

(** [parts[i]]. *)
Definition getitem (parts : list string) (i : nat) : exn + string :=
  match parts !! i with
  | Some p => inr p
  | None => inl IndexError
  end.

Definition code (a : Ascii.ascii) : nat := Ascii.nat_of_ascii a.

Definition is_digit (a : Ascii.ascii) : bool :=
  (48 <=? code a)%nat && (code a <=? 57)%nat.

Definition digit_value (a : Ascii.ascii) : Z := Z.of_nat (code a) - 48.

(** [Py_ISSPACE]: tab, line feed, vertical tab, form feed, carriage
    return and space. *)
Definition Py_ISSPACE (a : Ascii.ascii) : bool :=
  ((9 <=? code a)%nat && (code a <=? 13)%nat) || (code a =? 32)%nat.

(** The characters from 127 to 255 that [Py_UNICODE_ISSPACE] accepts:
    next line and no-break space. *)
Definition is_unicode_space (a : Ascii.ascii) : bool :=
  (code a =? 133)%nat || (code a =? 160)%nat.

Definition is_ascii (s : string) : bool :=
  forallb (fun a => (code a <? 128)%nat) (String.list_ascii_of_string s).

(** The loop of [_PyUnicode_TransformDecimalAndSpaceToASCII]: a space
    beyond ASCII becomes [' '], a decimal digit beyond ASCII its ASCII
    digit, and the string is cut with ['?'] at the first other character
    beyond ASCII.  No decimal digit has a code point from 127 to 255. *)
Fixpoint transform_chars (s : string) : string :=
  match s with
  | EmptyString => EmptyString
  | String a rest =>
      if (code a <? 127)%nat then String a (transform_chars rest)
      else if is_unicode_space a then String " "%char (transform_chars rest)
      else String "?"%char EmptyString
  end.

(** An ASCII string is returned as it is. *)
Definition transform (s : string) : string :=
  if is_ascii s then s else transform_chars s.

Fixpoint skip_spaces (s : string) : string :=
  match s with
  | String a rest => if Py_ISSPACE a then skip_spaces rest else s
  | EmptyString => s
  end.

(** The loop that validates the digits: [prev] tells whether the
    character before was an underscore, of which two in a row or one at
    the end are a syntax error.  Returns the value and the number of the
    digits, and what follows them. *)
Fixpoint scan_digits (s : string) (prev : bool) (acc : Z) (digits : nat)
    : option (Z * nat * string) :=
  match s with
  | String a rest =>
      if is_digit a then
        scan_digits rest false (10 * acc + digit_value a) (S digits)
      else if Ascii.eqb a "_"%char then
        if prev then None else scan_digits rest true acc digits
      else if prev then None else Some (acc, digits, s)
  | EmptyString => if prev then None else Some (acc, digits, s)
  end.

(** [int(s)] for a [str], in base 10: surrounding white space, a sign,
    digits with single underscores between them.  [max_str_digits] is the
    interpreter's limit on the number of digits ([sys.int_max_str_digits],
    4300 unless it is changed; 0 is no limit), which is looked at for more
    than 640 digits only. *)
Definition int (max_str_digits : nat) (s : string) : exn + Z :=
  let s := skip_spaces (transform s) in
  let '(sign, s) :=
    match s with
    | String "+"%char rest => (1, rest)
    | String "-"%char rest => (-1, rest)
    | _ => (1, s)
    end in
  match s with
  | String "_"%char _ => inl ValueError
  | _ =>
      match scan_digits s false 0 0 with
      | None => inl ValueError
      | Some (value, digits, rest) =>
          if (digits =? 0)%nat then inl ValueError
          else if (640 <? digits)%nat && (0 <? max_str_digits)%nat &&
                  (max_str_digits <? digits)%nat
          then inl ValueError
          else match skip_spaces rest with
               | EmptyString => inr (sign * value)
               | _ => inl ValueError
               end
      end
  end.

(** The body of the [try] block; a cell that is not a [str] has no
    [split]. *)
Definition seconds_of_parts (max_str_digits : nat) (time_str : cell)
    : exn + Z :=
  match time_str with
  | CellStr s =>
      let parts := split ":"%char s in
      p0 ← getitem parts 0;
      h ← int max_str_digits p0;
      p1 ← getitem parts 1;
      m ← int max_str_digits p1;
      p2 ← getitem parts 2;
      s ← int max_str_digits p2;
      inr (h * 3600 + m * 60 + s)
  | _ => inl AttributeError
  end.

(** [gtfs_time_to_seconds]: [None] for a missing value and whenever the
    [try] block raises. *)
Definition gtfs_time_to_seconds (max_str_digits : nat) (time_str : cell)
    : option Z :=
  if isna time_str then None
  else
    match seconds_of_parts max_str_digits time_str with
    | inr seconds => Some seconds
    | inl _ => None
    end.

End Gtfs_to_sql.

(** * Specification vocabulary *)

(** The data of the edge from [u] to [v], if there is one. *)
Definition edge (G : DiGraph) (u v : string) : option edge_attrs :=
  adj G !! u ≫= fun nbrs => Dict.get nbrs v.

(** The first two statements of [add_edge], for one end. *)
Definition ensure_node (G : DiGraph) (n : string) : DiGraph :=
  if bool_decide (is_Some (adj G !! n)) then G else Nx.new_node G n.

(** The graph after the node statements of step 3, before any edge. *)
Definition stations_graph (stops_df : list stop_row)
    (cs : gmap string coords_t) : DiGraph :=
  Nx.set_node_attributes
    (Nx.set_node_attributes
       (Nx.add_nodes_from Nx.empty_graph (stop_id <$> stops_df))
       (stop_name_map stops_df) Nx.set_name)
    cs Nx.set_coords.

Definition pair_of_trip (r : trip_row) : string * string :=
  (trip_from r, trip_to r).
Definition pair_of_transfer (r : transfer_row) : string * string :=
  (from_stop_id r, to_stop_id r).
Definition pair_of_edge (r : transfer_edge) : string * string :=
  (tr_from r, tr_to r).

(** No edge yet: every successor dictionary is empty. *)
Definition edgeless (G : DiGraph) : Prop :=
  forall u nbrs, adj G !! u = Some nbrs -> nbrs = [].

(** The representation invariant of [networkx.DiGraph]: the node and the
    successor dictionaries have the same keys, and every successor is a
    node. *)
Record wf_graph (G : DiGraph) : Prop := {
  wf_dom : forall n, is_Some (nodes G !! n) <-> is_Some (adj G !! n);
  wf_succ : forall u v d, edge G u v = Some d -> is_Some (nodes G !! v)
}.

(** At most one edge per ordered pair: no successor dictionary lists a
    station twice. *)
Definition edge_unique (G : DiGraph) : Prop :=
  forall u nbrs, adj G !! u = Some nbrs -> NoDup nbrs.*1.

(** [walk G u v c]: some sequence of consecutive edges leads from [u] to
    [v], and the weights along it add up to [c]. *)
Inductive walk (G : DiGraph) : string -> string -> Z -> Prop :=
| walk_nil u : walk G u u 0
| walk_cons u v t d c :
    edge G u v = Some d -> walk G v t c ->
    walk G u t (Nx.weight_function d + c).

Definition reachable (G : DiGraph) (s t : string) : Prop :=
  exists c, walk G s t c.


(** What a reference uniform-cost search returns for [s] and [t]: the
    least total weight of a sequence of edges from [s] to [t]. *)
Definition shortest_cost (G : DiGraph) (s t : string) (c : Z) : Prop :=
  walk G s t c /\ forall c', walk G s t c' -> c <= c'.

Definition nonneg_weights (G : DiGraph) : Prop :=
  forall u v d, edge G u v = Some d -> 0 <= Nx.weight_function d.

(** The station [n] is in the graph with numeric coordinates. *)
Definition has_coords (G : DiGraph) (n : string) (lat lon : R) : Prop :=
  exists a, nodes G !! n = Some a /\
    coords a = Some {| stop_lat := PyNum lat; stop_lon := PyNum lon |}.

(** Modelled on the spec's words: the great-circle distance by the
    haversine formula, with the Earth radius in meters. *)
Definition hav (x : R) : R := (sin (x / 2))².
Definition great_circle_distance (earth_radius lat1 lon1 lat2 lon2 : R) : R :=
  let phi1 := (lat1 * PI / 180)%R in
  let phi2 := (lat2 * PI / 180)%R in
  let dphi := ((lat2 - lat1) * PI / 180)%R in
  let dlambda := ((lon2 - lon1) * PI / 180)%R in
  (2 * earth_radius *
   asin (sqrt (hav dphi + cos phi1 * cos phi2 * hav dlambda)))%R.

(** The claim "the travel edge is discarded entirely": what is left on the
    pair is exactly the edge the transfer record alone would make. *)
Definition travel_discarded (G : DiGraph) (u v : string) (w : Z) : Prop :=
  edge G u v = Some {| weight := Some w; type := Some transfer; route := None |}.

(** The estimate never exceeds the cost of travelling from [u] to [v]. *)
Definition admissible_at (G : DiGraph) (u v : string) : Prop :=
  forall c, walk G u v c ->
    exists h, heuristic G u v = Ret (PyNum h) /\ (h <= IZR c)%R.

(** Along every edge the estimate of the time to [t] drops by at most the
    weight of the edge. *)
Definition consistent_towards (G : DiGraph) (t : string) : Prop :=
  forall u v d, edge G u v = Some d ->
    exists hu hv, heuristic G u t = Ret (PyNum hu) /\
                  heuristic G v t = Ret (PyNum hv) /\
                  (hu <= IZR (Nx.weight_function d) + hv)%R.

(** A clock time as GTFS writes it, [HH:MM:SS] with two digits for each
    field. *)
Definition two_digits (n : nat) : string :=
  String (Ascii.ascii_of_nat (48 + n / 10))
    (String (Ascii.ascii_of_nat (48 + n mod 10)) EmptyString).
Definition clock (h m s : nat) : string :=
  two_digits h +:+ ":" +:+ two_digits m +:+ ":" +:+ two_digits s.

(** The number of colons of a string. *)
Fixpoint colons (s : string) : nat :=
  match s with
  | EmptyString => 0%nat
  | String a rest => ((if Ascii.eqb a ":" then 1 else 0) + colons rest)%nat
  end.

(** * Example schedules *)

Definition from_build (r : result DiGraph) : DiGraph :=
  match r with
  | Ret G => G
  | _ => Nx.empty_graph
  end.

Definition station (id : string) (lat lon : Z) : stop_row :=
  {| stop_id := id; stop_name := id;
     row_lat := of_int lat; row_lon := of_int lon |}.

Definition trip (u v : string) (w : Z) (r : string) : trip_row :=
  {| trip_from := u; trip_to := v; trip_weight := w; route_id := r |}.

Definition transfer_link (u v : string) (m : option Z) : transfer_row :=
  {| from_stop_id := u; to_stop_id := v; min_transfer_time := m |}.

(** Scenarios A and B of the specification: three stations in a row, and
    a transfer that doubles the first travel segment. *)
Definition scenario_stops : list stop_row :=
  [station "A" 0 0; station "B" 0 0; station "C" 0 0].
Definition scenario_trips : list trip_row :=
  [trip "A" "B" 100 "1"; trip "B" "C" 200 "1"].
Definition scenario_B_transfers : list transfer_row :=
  [transfer_link "A" "B" (Some 50)].
Definition scenario_B_graph : DiGraph :=
  from_build (build_network scenario_stops scenario_trips scenario_B_transfers).

(** Scenario E: a transfer whose stored time is zero. *)
Definition scenario_E_transfers : list transfer_row :=
  [transfer_link "A" "B" (Some 0)].
Definition scenario_E_graph : DiGraph :=
  from_build (build_network scenario_stops [] scenario_E_transfers).

(** A travel segment that ends at a station the stops table does not
    list. *)
Definition unlisted_stops : list stop_row := [station "A" 0 0].
Definition unlisted_trips : list trip_row := [trip "A" "X" 60 "1"].
Definition unlisted_graph : DiGraph :=
  from_build (build_network unlisted_stops unlisted_trips []).

(** A station whose coordinates are NULL in the stops table. *)
Definition null_coords_stops : list stop_row :=
  [ {| stop_id := "A"; stop_name := "A"; row_lat := PyNaN; row_lon := PyNaN |};
    station "B" 40 (-74) ].
Definition null_coords_graph : DiGraph :=
  from_build (build_network null_coords_stops [] []).

(** Two stations on opposite sides of the globe, one travel segment
    between them: scheduled in one second, or in three million. *)
Definition antipodal_stops : list stop_row :=
  [station "A" 0 0; station "B" 0 180].
Definition fast_graph : DiGraph :=
  from_build (build_network antipodal_stops [trip "A" "B" 1 "1"] []).
Definition slow_graph : DiGraph :=
  from_build (build_network antipodal_stops [trip "A" "B" 3000000 "1"] []).


(** Scenario A: the three stations and the two travel segments only. *)
Definition scenario_A_graph : DiGraph :=
  from_build (build_network scenario_stops scenario_trips []).

(** A direct travel segment of ten seconds to a station on the other side
    of the globe, and a way round of two seconds that starts with a
    station next to the origin. *)
Definition detour_stops : list stop_row :=
  [station "S" 0 0; station "M" 0 0; station "T" 0 180].
Definition detour_trips : list trip_row :=
  [trip "S" "T" 10 "1"; trip "S" "M" 1 "2"; trip "M" "T" 1 "2"].
Definition detour_graph : DiGraph :=
  from_build (build_network detour_stops detour_trips []).

(** * Vocabulary for the search *)

Section search_defs.
Context (G : DiGraph) (h : string -> string -> result pyfloat)
        (s t : string).

Definition with_queue (st : search_state) (q : list entry) : search_state :=
  {| queue := q; c := c st; enqueued := enqueued st; explored := explored st |}.

Definition with_explored (st : search_state) (n : string)
    (p : option string) : search_state :=
  {| queue := queue st; c := c st; enqueued := enqueued st;
     explored := <[n := p]> (explored st) |}.

(** The popped item is dropped without being expanded. *)
Definition skipped (st : search_state) (e : entry) : Prop :=
  explored st !! curnode e = Some None \/
  exists p qc hh, explored st !! curnode e = Some (Some p) /\
    enqueued st !! curnode e = Some (qc, hh) /\ qc < dist e.

Definition expanded (st : search_state) (e : entry) : Prop :=
  explored st !! curnode e = None \/
  exists p qc hh, explored st !! curnode e = Some (Some p) /\
    enqueued st !! curnode e = Some (qc, hh) /\ dist e <= qc.

(** One turn of the loop over the successors of [cur], reached at cost
    [d]: the successor [m] is left alone, or pushed with a better cost, or
    pushed for the first time. *)
Inductive relax_step (cur : string) (d : Z) (st : search_state)
    (m : string) (w : edge_attrs) : search_state -> Prop :=
| relax_keep qc hh :
    enqueued st !! m = Some (qc, hh) -> qc <= d + Nx.weight_function w ->
    relax_step cur d st m w st
| relax_improve qc hh :
    enqueued st !! m = Some (qc, hh) -> d + Nx.weight_function w < qc ->
    relax_step cur d st m w
      (Astar.push_neighbor st m (d + Nx.weight_function w) hh cur)
| relax_new hh :
    enqueued st !! m = None -> h m t = Ret hh ->
    relax_step cur d st m w
      (Astar.push_neighbor st m (d + Nx.weight_function w) hh cur).

(** What one turn of [while queue] does when the popped item is not the
    target. *)
Inductive loop_step (st : search_state) (e : entry) (q : list entry)
    : search_state -> Prop :=
| loop_skip : skipped st e -> loop_step st e q (with_queue st q)
| loop_expand nbrs st' :
    expanded st e ->
    adj G !! curnode e = Some nbrs ->
    Astar.relax_all h t (curnode e) (dist e)
      (with_explored (with_queue st q) (curnode e) (parent e)) nbrs = Ret st' ->
    loop_step st e q st'.

(** What keeps a turn of the loop from raising. *)
Record safe (st : search_state) : Prop := {
  safe_dist : forall e, e ∈ queue st -> 0 <= dist e;
  safe_node : forall e, e ∈ queue st -> is_Some (nodes G !! curnode e);
  safe_enqueued : forall n qc hh, enqueued st !! n = Some (qc, hh) ->
    0 <= qc /\ is_Some (nodes G !! n);
  safe_parent : forall e, e ∈ queue st -> is_Some (parent e) ->
    is_Some (enqueued st !! curnode e);
  safe_initial : forall e, e ∈ queue st -> parent e = None ->
    explored st = ∅ /\ queue st = [e]
}.

(** The variant of the loop: the stations never enqueued, the enqueued
    costs, the length of the queue, in lexicographic order. *)
Definition stations : list string := elements (dom (nodes G)).

Definition never_enqueued (st : search_state) : nat :=
  sum_list_with (fun n => match enqueued st !! n with
                          | None => 1%nat
                          | Some _ => 0%nat
                          end) stations.

Definition enqueued_cost (st : search_state) : nat :=
  sum_list_with (fun n => match enqueued st !! n with
                          | None => 0%nat
                          | Some (qc, _) => Z.to_nat qc
                          end) stations.

Definition lex3 (x y : nat * nat * nat) : Prop :=
  let '(a', b', c') := x in
  let '(a, b, c) := y in
  (a' < a)%nat \/ (a' = a /\ (b' < b)%nat) \/
  (a' = a /\ b' = b /\ (c' < c)%nat).

Definition measure (st : search_state) : nat * nat * nat :=
  (never_enqueued st, enqueued_cost st, length (queue st)).

(** [st'] is not above [st]: the first two components have decreased, or
    nothing was pushed. *)
Definition not_above (st' st : search_state) : Prop :=
  (never_enqueued st' < never_enqueued st)%nat \/
  (never_enqueued st' = never_enqueued st /\
   (enqueued_cost st' < enqueued_cost st)%nat) \/
  (never_enqueued st' = never_enqueued st /\
   enqueued_cost st' = enqueued_cost st /\
   (length (queue st') <= length (queue st))%nat).

(** Every item of the queue is for a station the source leads to. *)
Definition queue_reachable (st : search_state) : Prop :=
  forall e, e ∈ queue st -> reachable G s (curnode e).

(** Bookkeeping for the proofs: [D n] is the cost at which [n] was last
    expanded and [K n] the counter of the item that expanded it.  Along
    the parent links [(D, K)] decreases lexicographically, which is why
    following them ends at the source. *)
Definition fupd {V} (f : string -> V) (n : string) (v : V) : string -> V :=
  fun x => if decide (x = n) then v else f x.

Record chain (st : search_state) (D : string -> Z) (K : string -> nat)
    : Prop := {
  ch_source : forall n, explored st !! n = Some None -> n = s;
  ch_source_root : forall x, explored st !! s = Some x -> x = None;
  ch_started : forall n, is_Some (explored st !! n) ->
    is_Some (explored st !! s);
  ch_parent : forall n p, explored st !! n = Some (Some p) ->
    is_Some (explored st !! p) /\
    exists d, edge G p n = Some d /\
      D p + Nx.weight_function d <= D n /\
      (D p = D n -> (K p < K n)%nat);
  ch_initial : forall e, e ∈ queue st -> parent e = None ->
    curnode e = s /\ dist e = 0;
  ch_entry : forall e p, e ∈ queue st -> parent e = Some p ->
    is_Some (explored st !! p) /\
    exists d, edge G p (curnode e) = Some d /\
      D p + Nx.weight_function d <= dist e /\
      (D p + Nx.weight_function d = dist e -> (K p < count e)%nat);
  ch_enq : forall n p, explored st !! n = Some (Some p) ->
    exists qc hh, enqueued st !! n = Some (qc, hh) /\ qc <= D n;
  ch_fresh : forall e p, e ∈ queue st ->
    explored st !! curnode e = Some (Some p) -> dist e ≠ D (curnode e);
  ch_counts : NoDup (count <$> queue st);
  ch_count_lt : forall e, e ∈ queue st -> (count e < c st)%nat;
  ch_distinct : forall e1 e2, e1 ∈ queue st -> e2 ∈ queue st ->
    curnode e1 = curnode e2 -> dist e1 = dist e2 -> count e1 = count e2;
  ch_qcost : forall e, e ∈ queue st -> is_Some (parent e) ->
    exists qc hh, enqueued st !! curnode e = Some (qc, hh) /\ qc <= dist e;
  ch_D_nonneg : forall n, is_Some (explored st !! n) -> 0 <= D n;
  ch_K_lt : forall n, is_Some (explored st !! n) -> (K n < c st)%nat
}.

(** The parent links from [n] back to the source: the stations met, and
    the weight of the edges followed. *)
Inductive back_chain (expl : gmap string (option string))
    : string -> list string -> Z -> Prop :=
| bc_source n : expl !! n = Some None -> back_chain expl n [n] 0
| bc_step n p l cost d :
    expl !! n = Some (Some p) -> edge G p n = Some d ->
    back_chain expl p l cost ->
    back_chain expl n (n :: l) (cost + Nx.weight_function d).

(** The best cost known for a station: 0 for the source, the enqueued cost
    for the others. *)
Definition gval (st : search_state) (n : string) : option Z :=
  if decide (n = s) then Some 0 else fst <$> enqueued st !! n.

(** An item for [n] at cost [g] waits in the queue. *)
Definition pending (st : search_state) (n : string) (g : Z) : Prop :=
  exists e, e ∈ queue st /\ curnode e = n /\ dist e = g.

(** Every successor of [n] is known at a cost that [n] at cost [g]
    cannot improve. *)
Definition relaxed (st : search_state) (n : string) (g : Z) : Prop :=
  forall m d, edge G n m = Some d ->
    exists gm, gval st m = Some gm /\ gm <= g + Nx.weight_function d.

Definition gval_mono (st st' : search_state) : Prop :=
  forall y g, gval st y = Some g -> exists g', gval st' y = Some g' /\ g' <= g.

Record frontier (st : search_state) : Prop := {
  fr_source :
    match explored st !! s with
    | None => pending st s 0
    | Some _ => s ≠ t /\ relaxed st s 0
    end;
  fr_enq : forall n qc hh, enqueued st !! n = Some (qc, hh) -> n ≠ s ->
    pending st n qc \/ (n ≠ t /\ relaxed st n qc);
  fr_walk : forall e, e ∈ queue st -> walk G s (curnode e) (dist e);
  fr_h : forall n qc hh, enqueued st !! n = Some (qc, hh) -> h n t = Ret hh;
  fr_priority : forall e p, e ∈ queue st -> parent e = Some p ->
    exists hh, h (curnode e) t = Ret hh /\
      priority e = (of_int (dist e) + hh)%fl;
  fr_priority_initial : forall e, e ∈ queue st -> parent e = None ->
    priority e = of_int 0
}.

(** What the loop over the successors keeps of the state [st1] it started
    from. *)
Record relax_keeps (st1 st : search_state) : Prop := {
  rk_queue : forall e, e ∈ queue st1 -> e ∈ queue st;
  rk_enqueued : forall y qc hh, enqueued st !! y = Some (qc, hh) ->
    enqueued st1 !! y = Some (qc, hh) \/ pending st y qc;
  rk_explored : explored st = explored st1;
  rk_walk : forall e, e ∈ queue st -> walk G s (curnode e) (dist e);
  rk_h : forall n qc hh, enqueued st !! n = Some (qc, hh) -> h n t = Ret hh;
  rk_priority : forall e p, e ∈ queue st -> parent e = Some p ->
    exists hh, h (curnode e) t = Ret hh /\
      priority e = (of_int (dist e) + hh)%fl;
  rk_priority_initial : forall e, e ∈ queue st -> parent e = None ->
    priority e = of_int 0
}.

(** The invariant of [while queue]. *)
Definition search_inv (st : search_state) : Prop :=
  safe st /\ (exists D K, chain st D K) /\ frontier st.

(** A list of stations that follows edges of the graph from [u] to [v],
    and the weight of these edges. *)
Inductive itinerary : list string -> string -> string -> Z -> Prop :=
| itinerary_one u : itinerary [u] u u 0
| itinerary_cons u v d rest w c :
    edge G u v = Some d -> itinerary (v :: rest) v w c ->
    itinerary (u :: v :: rest) u w (Nx.weight_function d + c).

End search_defs.

(** * Vocabulary for the heap *)

Section heap_defs.
Context {A : Type} (lt : A -> A -> bool).

(** [x] may stand above [y] in the heap. *)
Definition above (x y : A) : Prop := lt y x = false.

(** The heap invariant of [heapq]: no item is smaller than its parent. *)
Definition heap_ordered (l : list A) : Prop :=
  forall j x y, (0 < j)%nat ->
    l !! ((j - 1) / 2)%nat = Some x -> l !! j = Some y -> above x y.

(** The state of [_siftdown]: the heap is ordered but for [newitem], which
    is still to be placed at [pos] or above. *)
Record sifting_up (l : list A) (newitem : A) (pos : nat) : Prop := {
  su_pos : (pos < length l)%nat;
  su_others : forall j x y, (0 < j)%nat -> j ≠ pos ->
    ((j - 1) / 2)%nat ≠ pos ->
    l !! ((j - 1) / 2)%nat = Some x -> l !! j = Some y -> above x y;
  su_children : forall j y, (0 < j)%nat -> ((j - 1) / 2)%nat = pos ->
    l !! j = Some y -> above newitem y;
  su_grand : forall j x y, (0 < j)%nat -> ((j - 1) / 2)%nat = pos ->
    (0 < pos)%nat ->
    l !! ((pos - 1) / 2)%nat = Some x -> l !! j = Some y -> above x y
}.

(** The state of the first loop of [_siftup]: the heap is ordered but for
    the hole at [pos], which is moving down. *)
Record sifting_down (l : list A) (pos : nat) : Prop := {
  sd_pos : (pos < length l)%nat;
  sd_others : forall j x y, (0 < j)%nat -> j ≠ pos ->
    ((j - 1) / 2)%nat ≠ pos ->
    l !! ((j - 1) / 2)%nat = Some x -> l !! j = Some y -> above x y;
  sd_grand : forall j x y, (0 < j)%nat -> ((j - 1) / 2)%nat = pos ->
    (0 < pos)%nat ->
    l !! ((pos - 1) / 2)%nat = Some x -> l !! j = Some y -> above x y
}.

End heap_defs.

(** The priority of the item is a number. *)
Definition numeric (e : entry) : Prop := exists r, priority e = PyNum r.

(** The reference of the optimality claim, modelled on the spec's words:
    uniform-cost search is the same search with an estimate of 0
    throughout. *)
Definition dijkstra_path_length (fuel : nat) (G : DiGraph) (s t : string)
    : result Z :=
  Nx_astar.astar_path_length fuel G s t (fun _ _ => Ret (of_int 0)).

(** The queue is a heap of items whose priorities are numbers, and the
    estimates kept in [enqueued] are numbers. *)
Definition heap_inv (st : search_state) : Prop :=
  heap_ordered entry_lt (queue st) /\ Forall numeric (queue st) /\
  forall n qc hh, enqueued st !! n = Some (qc, hh) -> exists r, hh = PyNum r.

(** * Facts about dictionaries and graph updates *)

Section dict_facts.
Context {V : Type}.
Implicit Types (d : list (string * V)) (k : string) (v : V).

Lemma dict_get_set_eq d k v : Dict.get (Dict.set d k v) k = Some v.
Proof.
  induction d as [|[k' v'] d IH]; simpl.
  - by rewrite decide_True.
  - destruct (decide (k = k')) as [->|Hne]; simpl.
    + by rewrite decide_True.
    + by rewrite decide_False.
Qed.

Lemma dict_get_set_ne d k k' v :
  k ≠ k' -> Dict.get (Dict.set d k v) k' = Dict.get d k'.
Proof.
  intros Hne. induction d as [|[k0 v0] d IH]; simpl.
  - by rewrite decide_False.
  - destruct (decide (k = k0)) as [->|Hk]; simpl.
    + by rewrite !decide_False.
    + destruct (decide (k' = k0)); done.
Qed.

Lemma dict_get_Some_elem d k v : Dict.get d k = Some v -> (k, v) ∈ d.
Proof.
  induction d as [|[k0 v0] d IH]; simpl; [done|].
  destruct (decide (k = k0)) as [->|Hk].
  - intros [= ->]. left.
  - intros H. right. by apply IH.
Qed.

Lemma dict_get_None d k : Dict.get d k = None <-> k ∉ d.*1.
Proof.
  induction d as [|[k0 v0] d IH]; simpl.
  - split; [intros _; apply not_elem_of_nil | done].
  - destruct (decide (k = k0)) as [->|Hk].
    + split; [done | intros H; destruct H; left].
    + rewrite IH, not_elem_of_cons. naive_solver.
Qed.

Lemma dict_get_elem_NoDup d k v :
  NoDup d.*1 -> (k, v) ∈ d -> Dict.get d k = Some v.
Proof.
  induction d as [|[k0 v0] d IH]; simpl.
  - intros _ H. by apply elem_of_nil in H.
  - intros Hnd Hin. apply NoDup_cons in Hnd as [Hk0 Hnd].
    apply elem_of_cons in Hin as [[= -> ->]|Hin].
    + by rewrite decide_True.
    + destruct (decide (k = k0)) as [->|Hk]; [|by apply IH].
      destruct Hk0. apply list_elem_of_fmap. by exists (k0, v).
Qed.

Lemma dict_set_keys d k v :
  forall k', k' ∈ (Dict.set d k v).*1 <-> k' = k \/ k' ∈ d.*1.
Proof.
  intros k'. induction d as [|[k0 v0] d IH]; simpl.
  - rewrite list_elem_of_singleton. split; [auto|].
    intros [?|H]; [done | by apply elem_of_nil in H].
  - destruct (decide (k = k0)) as [->|Hk]; simpl.
    + rewrite !elem_of_cons. naive_solver.
    + rewrite !elem_of_cons, IH. naive_solver.
Qed.

Lemma dict_set_NoDup d k v : NoDup d.*1 -> NoDup (Dict.set d k v).*1.
Proof.
  induction d as [|[k0 v0] d IH]; simpl.
  - intros _. apply NoDup_singleton.
  - intros Hnd. apply NoDup_cons in Hnd as [Hk0 Hnd].
    destruct (decide (k = k0)) as [->|Hk]; simpl.
    + by apply NoDup_cons.
    + apply NoDup_cons. split; [|by apply IH].
      rewrite dict_set_keys. naive_solver.
Qed.

End dict_facts.

Section graph_facts.
Implicit Types (G : DiGraph) (u v n : string) (a attr : edge_attrs).

Lemma has_node_true G n : Nx.has_node G n = true <-> is_Some (nodes G !! n).
Proof. unfold Nx.has_node. by rewrite bool_decide_eq_true. Qed.

Lemma has_node_false G n : Nx.has_node G n = false <-> nodes G !! n = None.
Proof.
  unfold Nx.has_node. rewrite bool_decide_eq_false.
  by rewrite eq_None_not_Some.
Qed.

Lemma get_edge_edge G u v :
  Nx.get_edge G u v =
  match edge G u v with Some d => Ret d | None => Raise KeyError end.
Proof.
  unfold Nx.get_edge, edge. destruct (adj G !! u) as [nbrs|]; simpl; [|done].
  by destruct (Dict.get nbrs v).
Qed.

Lemma edge_is_Some_adj G u v d : edge G u v = Some d -> is_Some (adj G !! u).
Proof. unfold edge. destruct (adj G !! u); [eauto | done]. Qed.

Lemma edge_successors G u v d :
  edge G u v = Some d <-> Dict.get (Nx.successors G u) v = Some d.
Proof.
  unfold edge, Nx.successors. by destruct (adj G !! u).
Qed.

Lemma edge_new_node G n u v :
  adj G !! n = None -> edge (Nx.new_node G n) u v = edge G u v.
Proof.
  intros Hn. unfold edge; simpl. destruct (decide (n = u)) as [->|Hne].
  - by rewrite lookup_insert_eq, Hn.
  - by rewrite lookup_insert_ne.
Qed.

Lemma wf_new_node G n : wf_graph G -> adj G !! n = None -> wf_graph (Nx.new_node G n).
Proof.
  intros [Hdom Hsucc] Hn. split.
  - intros m. simpl. destruct (decide (n = m)) as [->|Hne].
    + rewrite !lookup_insert_eq. split; eauto.
    + rewrite !lookup_insert_ne by done. apply Hdom.
  - intros u v d. rewrite edge_new_node by done. intros He.
    apply Hsucc in He. simpl. destruct (decide (n = v)) as [->|Hne].
    + rewrite lookup_insert_eq. eauto.
    + by rewrite lookup_insert_ne.
Qed.

Lemma edge_unique_new_node G n :
  edge_unique G -> edge_unique (Nx.new_node G n).
Proof.
  intros Hu u nbrs. simpl. destruct (decide (n = u)) as [->|Hne].
  - rewrite lookup_insert_eq. intros [= <-]. constructor.
  - rewrite lookup_insert_ne by done. apply Hu.
Qed.

Lemma edge_ensure_node G n u v : edge (ensure_node G n) u v = edge G u v.
Proof.
  unfold ensure_node. case_bool_decide as H; [done|].
  apply edge_new_node. by apply eq_None_not_Some.
Qed.

Lemma wf_ensure_node G n : wf_graph G -> wf_graph (ensure_node G n).
Proof.
  intros Hwf. unfold ensure_node. case_bool_decide as H; [done|].
  apply wf_new_node; [done|]. by apply eq_None_not_Some.
Qed.

Lemma edge_unique_ensure_node G n :
  edge_unique G -> edge_unique (ensure_node G n).
Proof.
  intros Hu. unfold ensure_node. case_bool_decide; [done|].
  by apply edge_unique_new_node.
Qed.

Lemma adj_ensure_node_same G n : is_Some (adj (ensure_node G n) !! n).
Proof.
  unfold ensure_node. case_bool_decide as H; [done|].
  simpl. rewrite lookup_insert_eq. eauto.
Qed.

Lemma adj_ensure_node_mono G n m :
  is_Some (adj G !! m) -> is_Some (adj (ensure_node G n) !! m).
Proof.
  intros Hm. unfold ensure_node. case_bool_decide as H; [done|].
  simpl. destruct (decide (n = m)) as [->|Hne].
  - rewrite lookup_insert_eq. eauto.
  - by rewrite lookup_insert_ne.
Qed.

Lemma nodes_ensure_node G n m x :
  wf_graph G -> nodes G !! m = Some x -> nodes (ensure_node G n) !! m = Some x.
Proof.
  intros Hwf Hm. unfold ensure_node. case_bool_decide as H; [done|].
  simpl. rewrite lookup_insert_ne; [done|]. intros ->.
  apply H, Hwf. eauto.
Qed.

Lemma nodes_ensure_node_inv G n m x :
  nodes (ensure_node G n) !! m = Some x ->
  nodes G !! m = Some x \/ (m = n /\ adj G !! n = None).
Proof.
  unfold ensure_node. case_bool_decide as H; [auto|].
  simpl. destruct (decide (n = m)) as [->|Hne].
  - right. split; [done|]. by apply eq_None_not_Some.
  - rewrite lookup_insert_ne by done. auto.
Qed.

Lemma add_edge_unfold G u v attr :
  Nx.add_edge G u v attr =
  let G' := ensure_node (ensure_node G u) v in
  {| nodes := nodes G';
     adj := <[u := Dict.set (Nx.successors G' u) v
                     (Nx.update (default Nx.no_attrs (edge G u v)) attr)]>
              (adj G') |}.
Proof.
  unfold Nx.add_edge. fold (ensure_node G u).
  fold (ensure_node (ensure_node G u) v). simpl.
  do 3 f_equal.
  assert (is_Some (adj (ensure_node (ensure_node G u) v) !! u)) as [nbrs Hn].
  { apply adj_ensure_node_mono, adj_ensure_node_same. }
  rewrite <- (edge_ensure_node G u u v), <- (edge_ensure_node _ v u v).
  unfold edge, Nx.successors. by rewrite Hn.
Qed.

Lemma edge_add_edge_eq G u v attr :
  edge (Nx.add_edge G u v attr) u v =
  Some (Nx.update (default Nx.no_attrs (edge G u v)) attr).
Proof.
  rewrite add_edge_unfold. unfold edge at 1. simpl.
  rewrite lookup_insert_eq. simpl. apply dict_get_set_eq.
Qed.

Lemma edge_add_edge_ne G u v attr u' v' :
  (u', v') ≠ (u, v) -> edge (Nx.add_edge G u v attr) u' v' = edge G u' v'.
Proof.
  intros Hne. rewrite add_edge_unfold. unfold edge at 1. simpl.
  rewrite <- (edge_ensure_node G u u' v'), <- (edge_ensure_node _ v u' v').
  destruct (decide (u = u')) as [->|Hu].
  - rewrite lookup_insert_eq. simpl.
    rewrite dict_get_set_ne by congruence.
    symmetry. destruct (Dict.get _ v') as [d|] eqn:Hd.
    + by apply edge_successors.
    + destruct (edge _ u' v') as [d|] eqn:He; [|done].
      apply edge_successors in He. congruence.
  - by rewrite lookup_insert_ne.
Qed.

Lemma nodes_add_edge G u v attr :
  nodes (Nx.add_edge G u v attr) = nodes (ensure_node (ensure_node G u) v).
Proof. by rewrite add_edge_unfold. Qed.

Lemma wf_add_edge G u v attr : wf_graph G -> wf_graph (Nx.add_edge G u v attr).
Proof.
  intros Hwf.
  pose proof (wf_ensure_node _ v (wf_ensure_node _ u Hwf)) as Hwf'.
  split.
  - intros m. rewrite add_edge_unfold. simpl.
    destruct (decide (u = m)) as [->|Hne].
    + rewrite lookup_insert_eq. split; [eauto|]. intros _.
      apply Hwf', adj_ensure_node_mono, adj_ensure_node_same.
    + rewrite lookup_insert_ne by done. apply Hwf'.
  - intros u' v' d He. rewrite nodes_add_edge.
    destruct (decide ((u', v') = (u, v))) as [[= -> ->]|Hne].
    + apply Hwf', adj_ensure_node_same.
    + rewrite edge_add_edge_ne in He by done.
      rewrite <- (edge_ensure_node G u u' v'),
        <- (edge_ensure_node _ v u' v') in He.
      by apply Hwf' in He.
Qed.

Lemma edge_unique_add_edge G u v attr :
  edge_unique G -> edge_unique (Nx.add_edge G u v attr).
Proof.
  intros Hu.
  pose proof (edge_unique_ensure_node _ v (edge_unique_ensure_node _ u Hu))
    as Hu'.
  intros m nbrs. rewrite add_edge_unfold. simpl.
  destruct (decide (u = m)) as [->|Hne].
  - rewrite lookup_insert_eq. intros [= <-]. apply dict_set_NoDup.
    unfold Nx.successors.
    destruct (adj _ !! m) as [l|] eqn:Hl; simpl; [by eapply Hu'|constructor].
  - rewrite lookup_insert_ne by done. apply Hu'.
Qed.

Lemma nodes_add_edge_Some G u v attr m x :
  wf_graph G -> nodes G !! m = Some x ->
  nodes (Nx.add_edge G u v attr) !! m = Some x.
Proof.
  intros Hwf Hm. rewrite nodes_add_edge.
  apply nodes_ensure_node; [by apply wf_ensure_node|].
  by apply nodes_ensure_node.
Qed.

Lemma nodes_add_edge_ends G u v attr :
  wf_graph G ->
  is_Some (nodes (Nx.add_edge G u v attr) !! u) /\
  is_Some (nodes (Nx.add_edge G u v attr) !! v).
Proof.
  intros Hwf.
  pose proof (wf_add_edge G u v attr Hwf) as Hwf'.
  split; apply Hwf'; rewrite add_edge_unfold; simpl.
  - rewrite lookup_insert_eq. eauto.
  - destruct (decide (u = v)) as [->|Hne].
    + rewrite lookup_insert_eq. eauto.
    + rewrite lookup_insert_ne by done. apply adj_ensure_node_same.
Qed.

End graph_facts.

(** * The network builder *)

Section builder_facts.
Implicit Types (G : DiGraph) (u v n : string).

Lemma foldl_preserves {A B} (P : A -> Prop) (f : A -> B -> A) (l : list B) a :
  P a -> (forall a b, b ∈ l -> P a -> P (f a b)) -> P (foldl f a l).
Proof.
  revert a. induction l as [|b l IH]; intros a Ha Hf; simpl; [done|].
  apply IH.
  - apply Hf; [left | done].
  - intros a' b' Hb'. apply Hf. by right.
Qed.

Lemma wf_empty_graph : wf_graph Nx.empty_graph.
Proof.
  split.
  - intros n. simpl. by rewrite !lookup_empty.
  - intros u v d. unfold edge. simpl. by rewrite lookup_empty.
Qed.

Lemma edge_unique_empty_graph : edge_unique Nx.empty_graph.
Proof. intros u nbrs. simpl. by rewrite lookup_empty. Qed.

Lemma edgeless_edge G u v : edgeless G -> edge G u v = None.
Proof.
  intros He. unfold edge. destruct (adj G !! u) as [nbrs|] eqn:Hu; [|done].
  by rewrite (He _ _ Hu).
Qed.

Lemma add_nodes_from_spec G ns :
  wf_graph G -> edgeless G ->
  let G' := Nx.add_nodes_from G ns in
  wf_graph G' /\ edgeless G' /\
  forall n, is_Some (nodes G' !! n) <-> is_Some (nodes G !! n) \/ n ∈ ns.
Proof.
  revert G. induction ns as [|m ns IH]; intros G Hwf He; simpl.
  - split_and!; [done..|]. intros n. rewrite elem_of_nil. naive_solver.
  - destruct (Nx.has_node G m) eqn:Hm.
    + destruct (IH G Hwf He) as (?&?&Hn). split_and!; [done..|].
      intros n. rewrite Hn, elem_of_cons.
      apply has_node_true in Hm. naive_solver.
    + apply has_node_false in Hm.
      assert (adj G !! m = None) as Hadj.
      { apply eq_None_not_Some. intros H. apply Hwf in H.
        rewrite Hm in H. by destruct H. }
      destruct (IH (Nx.new_node G m)) as (?&?&Hn).
      { by apply wf_new_node. }
      { intros u nbrs. simpl. destruct (decide (m = u)) as [->|Hne].
        - rewrite lookup_insert_eq. by intros [= <-].
        - rewrite lookup_insert_ne by done. apply He. }
      split_and!; [done..|]. intros n. rewrite Hn, elem_of_cons. simpl.
      destruct (decide (m = n)) as [->|Hne].
      * rewrite lookup_insert_eq. naive_solver.
      * rewrite lookup_insert_ne by done. naive_solver.
Qed.

Lemma set_node_attributes_spec {V} G (values : gmap string V) setattr :
  let G' := Nx.set_node_attributes G values setattr in
  adj G' = adj G /\
  (forall n, is_Some (nodes G' !! n) <-> is_Some (nodes G !! n)).
Proof.
  simpl. split; [done|]. intros n. rewrite map_lookup_imap.
  destruct (nodes G !! n); simpl; split; intros [? ?]; eauto; done.
Qed.

Lemma wf_set_node_attributes {V} G (values : gmap string V) setattr :
  wf_graph G -> wf_graph (Nx.set_node_attributes G values setattr).
Proof.
  intros [Hdom Hsucc].
  destruct (set_node_attributes_spec G values setattr) as [Hadj Hn].
  split.
  - intros n. rewrite Hn. simpl. apply Hdom.
  - intros u v d He. apply Hn. by eapply Hsucc.
Qed.

Lemma stations_graph_spec stops_df cs :
  let G := stations_graph stops_df cs in
  wf_graph G /\ edgeless G /\
  forall n, is_Some (nodes G !! n) <-> n ∈ stop_id <$> stops_df.
Proof.
  unfold stations_graph.
  destruct (add_nodes_from_spec Nx.empty_graph (stop_id <$> stops_df))
    as (Hwf & He & Hn).
  { apply wf_empty_graph. }
  { intros u nbrs. simpl. by rewrite lookup_empty. }
  split_and!.
  - by do 2 apply wf_set_node_attributes.
  - done.
  - intros n.
    rewrite (proj2 (set_node_attributes_spec _ _ _)).
    rewrite (proj2 (set_node_attributes_spec _ _ _)).
    rewrite Hn. simpl. rewrite lookup_empty. split; [|auto].
    intros [[? ?]|?]; done.
Qed.

Lemma build_network_unfold stops_df trip_edges_df transfers G :
  build_network stops_df trip_edges_df transfers = Ret G ->
  exists cs, stop_coords stops_df = Ret cs /\
    G = foldl add_transfer_edge
          (foldl add_trip_edge (stations_graph stops_df cs) trip_edges_df)
          (transfer_query transfers).
Proof.
  unfold build_network. destruct (stop_coords stops_df) as [cs| |]; simpl;
    [|done..].
  intros [= <-]. by exists cs.
Qed.

Lemma wf_add_trip_edge G row : wf_graph G -> wf_graph (add_trip_edge G row).
Proof. apply wf_add_edge. Qed.

Lemma wf_add_transfer_edge G row :
  wf_graph G -> wf_graph (add_transfer_edge G row).
Proof.
  intros Hwf. unfold add_transfer_edge.
  destruct (_ && _); [by apply wf_add_edge | done].
Qed.

Lemma edge_unique_add_trip_edge G row :
  edge_unique G -> edge_unique (add_trip_edge G row).
Proof. apply edge_unique_add_edge. Qed.

Lemma edge_unique_add_transfer_edge G row :
  edge_unique G -> edge_unique (add_transfer_edge G row).
Proof.
  intros Hu. unfold add_transfer_edge.
  destruct (_ && _); [by apply edge_unique_add_edge | done].
Qed.

Lemma wf_trips G trips : wf_graph G -> wf_graph (foldl add_trip_edge G trips).
Proof.
  intros Hwf. apply foldl_preserves; [done|].
  intros. by apply wf_add_trip_edge.
Qed.

Lemma wf_transfers G l : wf_graph G -> wf_graph (foldl add_transfer_edge G l).
Proof.
  intros Hwf. apply foldl_preserves; [done|].
  intros. by apply wf_add_transfer_edge.
Qed.

Lemma build_network_wf stops_df trip_edges_df transfers G :
  build_network stops_df trip_edges_df transfers = Ret G -> wf_graph G.
Proof.
  intros (cs & _ & ->)%build_network_unfold.
  apply wf_transfers, wf_trips, stations_graph_spec.
Qed.

Lemma build_network_edge_unique stops_df trip_edges_df transfers G :
  build_network stops_df trip_edges_df transfers = Ret G -> edge_unique G.
Proof.
  intros (cs & _ & ->)%build_network_unfold.
  apply foldl_preserves; [|intros; by apply edge_unique_add_transfer_edge].
  apply foldl_preserves; [|intros; by apply edge_unique_add_trip_edge].
  intros u nbrs Hu.
  destruct (stations_graph_spec stops_df cs) as (_ & He & _).
  rewrite (He _ _ Hu). constructor.
Qed.

Lemma update_full d w t r :
  Nx.update d {| weight := Some w; type := Some t; route := Some r |} =
  {| weight := Some w; type := Some t; route := Some r |}.
Proof. done. Qed.

Lemma trips_edge_inv G trips u v d :
  edge (foldl add_trip_edge G trips) u v = Some d ->
  edge G u v = Some d \/
  exists row, row ∈ trips /\ pair_of_trip row = (u, v) /\
    d = {| weight := Some (trip_weight row); type := Some travel;
           route := Some (route_id row) |}.
Proof.
  revert G. induction trips as [|row trips IH]; intros G; simpl; [auto|].
  intros [He|(row' & Hin & Hp & Hd)]%IH.
  - destruct (decide ((u, v) = pair_of_trip row)) as [Heq|Hne].
    + right. exists row. split; [left|]. split; [done|].
      unfold add_trip_edge in He. injection Heq as -> ->.
      rewrite edge_add_edge_eq, update_full in He. congruence.
    + left. unfold add_trip_edge in He.
      by rewrite edge_add_edge_ne in He.
  - right. exists row'. split; [by right | done].
Qed.

Lemma trips_edge_last G t1 tr t2 :
  (forall x, x ∈ t2 -> pair_of_trip x ≠ pair_of_trip tr) ->
  edge (foldl add_trip_edge G (t1 ++ tr :: t2)) (trip_from tr) (trip_to tr) =
  Some {| weight := Some (trip_weight tr); type := Some travel;
          route := Some (route_id tr) |}.
Proof.
  intros Hlast. rewrite foldl_app. simpl.
  generalize (foldl add_trip_edge G t1). clear G. intros G.
  assert (edge (add_trip_edge G tr) (trip_from tr) (trip_to tr) =
          Some {| weight := Some (trip_weight tr); type := Some travel;
                  route := Some (route_id tr) |}) as H0.
  { unfold add_trip_edge. by rewrite edge_add_edge_eq, update_full. }
  revert H0. generalize (add_trip_edge G tr). clear G.
  induction t2 as [|x t2 IH]; intros G HG; simpl; [done|].
  apply IH.
  - intros y Hy. apply Hlast. by right.
  - unfold add_trip_edge at 1. rewrite edge_add_edge_ne; [done|].
    intros Heq. eapply Hlast; [left|]. unfold pair_of_trip. by symmetry.
Qed.

Lemma nodes_mono_add_edge G u v attr n :
  wf_graph G -> is_Some (nodes G !! n) ->
  is_Some (nodes (Nx.add_edge G u v attr) !! n).
Proof. intros Hwf [x Hx]. exists x. by apply nodes_add_edge_Some. Qed.

Lemma nodes_mono_trips G trips n :
  wf_graph G -> is_Some (nodes G !! n) ->
  is_Some (nodes (foldl add_trip_edge G trips) !! n).
Proof.
  intros Hwf Hn.
  cut (wf_graph (foldl add_trip_edge G trips) /\
       is_Some (nodes (foldl add_trip_edge G trips) !! n)); [tauto|].
  apply (foldl_preserves (fun G => wf_graph G /\ is_Some (nodes G !! n)));
    [done|].
  intros G' row _ [Hwf' Hn']. split; [by apply wf_add_trip_edge|].
  by apply nodes_mono_add_edge.
Qed.

Lemma nodes_mono_add_transfer_edge G row n :
  wf_graph G -> is_Some (nodes G !! n) ->
  is_Some (nodes (add_transfer_edge G row) !! n).
Proof.
  intros Hwf Hn. unfold add_transfer_edge.
  destruct (_ && _); [by apply nodes_mono_add_edge | done].
Qed.

Lemma nodes_mono_transfers G l n :
  wf_graph G -> is_Some (nodes G !! n) ->
  is_Some (nodes (foldl add_transfer_edge G l) !! n).
Proof.
  intros Hwf Hn.
  cut (wf_graph (foldl add_transfer_edge G l) /\
       is_Some (nodes (foldl add_transfer_edge G l) !! n)); [tauto|].
  apply (foldl_preserves (fun G => wf_graph G /\ is_Some (nodes G !! n)));
    [done|].
  intros G' row _ [Hwf' Hn']. split; [by apply wf_add_transfer_edge|].
  by apply nodes_mono_add_transfer_edge.
Qed.

Lemma trips_ends_nodes G trips row :
  wf_graph G -> row ∈ trips ->
  is_Some (nodes (foldl add_trip_edge G trips) !! trip_from row) /\
  is_Some (nodes (foldl add_trip_edge G trips) !! trip_to row).
Proof.
  intros Hwf (t1 & t2 & ->)%list_elem_of_split. rewrite foldl_app. simpl.
  pose proof (wf_trips G t1 Hwf) as Hwf1.
  destruct (nodes_add_edge_ends (foldl add_trip_edge G t1) (trip_from row)
              (trip_to row)
              {| weight := Some (trip_weight row); type := Some travel;
                 route := Some (route_id row) |} Hwf1) as [H1 H2].
  split; apply nodes_mono_trips; try done; by apply wf_add_trip_edge.
Qed.

(** What a transfer row does to the data of one pair. *)
Lemma add_transfer_edge_edge G row u v :
  edge (add_transfer_edge G row) u v = edge G u v \/
  (pair_of_edge row = (u, v) /\
   Nx.has_node G (tr_from row) && Nx.has_node G (tr_to row) = true /\
   edge (add_transfer_edge G row) u v =
   Some {| weight := Some (tr_weight row); type := Some transfer;
           route := edge G u v ≫= route |}).
Proof.
  unfold add_transfer_edge. destruct (_ && _) eqn:Hn; [|by left].
  destruct (decide ((u, v) = pair_of_edge row)) as [Heq|Hne].
  - right. split; [done|]. split; [done|]. injection Heq as -> ->.
    rewrite edge_add_edge_eq. f_equal. unfold Nx.update. simpl.
    by destruct (edge G _ _).
  - left. by apply edge_add_edge_ne.
Qed.

Lemma transfers_route G l u v :
  edge (foldl add_transfer_edge G l) u v ≫= route = edge G u v ≫= route.
Proof.
  revert G. induction l as [|row l IH]; intros G; simpl; [done|].
  rewrite IH.
  destruct (add_transfer_edge_edge G row u v) as [->|(_ & _ & ->)]; [done|].
  simpl. by destruct (edge G u v).
Qed.

Lemma transfers_edge_inv G l u v d :
  edge (foldl add_transfer_edge G l) u v = Some d ->
  edge G u v = Some d \/
  exists row, row ∈ l /\ pair_of_edge row = (u, v) /\
    weight d = Some (tr_weight row) /\ type d = Some transfer.
Proof.
  revert G. induction l as [|row l IH]; intros G; simpl; [auto|].
  intros [He|(row' & Hin & Hp & Hd)]%IH.
  - destruct (add_transfer_edge_edge G row u v) as [Heq|(Hp & _ & Heq)].
    + left. congruence.
    + right. exists row. split; [left|]. split; [done|].
      rewrite Heq in He. by injection He as <-.
  - right. exists row'. split; [by right | done].
Qed.

Lemma transfers_edge_last G f1 te f2 :
  wf_graph G ->
  is_Some (nodes G !! tr_from te) -> is_Some (nodes G !! tr_to te) ->
  (forall x, x ∈ f2 -> pair_of_edge x ≠ pair_of_edge te) ->
  exists d,
    edge (foldl add_transfer_edge G (f1 ++ te :: f2)) (tr_from te) (tr_to te)
      = Some d /\
    weight d = Some (tr_weight te) /\ type d = Some transfer.
Proof.
  intros Hwf Hu Hv Hlast. rewrite foldl_app. simpl.
  pose proof (wf_transfers G f1 Hwf) as Hwf1.
  pose proof (nodes_mono_transfers G f1 _ Hwf Hu) as Hu1.
  pose proof (nodes_mono_transfers G f1 _ Hwf Hv) as Hv1.
  revert Hwf1 Hu1 Hv1. generalize (foldl add_transfer_edge G f1). clear G Hwf Hu Hv.
  intros G Hwf Hu Hv.
  assert (exists d, edge (add_transfer_edge G te) (tr_from te) (tr_to te) = Some d /\
            weight d = Some (tr_weight te) /\ type d = Some transfer) as H0.
  { unfold add_transfer_edge.
    apply has_node_true in Hu, Hv. rewrite Hu, Hv. simpl.
    rewrite edge_add_edge_eq. eexists. split; [done|]. done. }
  revert H0. generalize (add_transfer_edge G te). clear G Hwf Hu Hv.
  induction f2 as [|x f2 IH]; intros G HG; simpl; [done|].
  apply IH.
  - intros y Hy. apply Hlast. by right.
  - destruct (add_transfer_edge_edge G x (tr_from te) (tr_to te))
      as [->|(Hp & _)]; [done|].
    exfalso. eapply Hlast; [left | done].
Qed.

Lemma transfer_query_elem te transfers :
  te ∈ transfer_query transfers <->
  exists r, r ∈ transfers /\ from_stop_id r ≠ to_stop_id r /\
    te = {| tr_from := from_stop_id r; tr_to := to_stop_id r;
            tr_weight := transfer_weight (min_transfer_time r) |}.
Proof.
  unfold transfer_query. rewrite list_elem_of_fmap. split.
  - intros (r & -> & Hr). apply list_elem_of_filter in Hr as [Hne Hr].
    by exists r.
  - intros (r & Hr & Hne & ->). exists r. split; [done|].
    by apply list_elem_of_filter.
Qed.

Lemma transfer_query_app l1 l2 :
  transfer_query (l1 ++ l2) = transfer_query l1 ++ transfer_query l2.
Proof. unfold transfer_query. by rewrite filter_app, fmap_app. Qed.

Lemma transfer_query_cons_ne r l :
  from_stop_id r ≠ to_stop_id r ->
  transfer_query (r :: l) =
  {| tr_from := from_stop_id r; tr_to := to_stop_id r;
     tr_weight := transfer_weight (min_transfer_time r) |} :: transfer_query l.
Proof.
  intros Hne. unfold transfer_query. by rewrite filter_cons_True.
Qed.

Lemma transfer_weight_cases mtt :
  let w := transfer_weight mtt in
  match mtt with
  | Some m => (0 < m -> w = m) /\ (m <= 0 -> w = 180)
  | None => w = 180
  end.
Proof.
  destruct mtt as [m|]; simpl; [|done].
  destruct (0 <? m) eqn:Hm.
  - apply Z.ltb_lt in Hm. split; [done | lia].
  - apply Z.ltb_ge in Hm. split; [lia | done].
Qed.

Lemma transfer_weight_pos mtt : 0 < transfer_weight mtt.
Proof.
  destruct mtt as [m|]; simpl; [|done].
  destruct (0 <? m) eqn:Hm; [by apply Z.ltb_lt in Hm | done].
Qed.

(** Every edge of the built network comes from a travel row or from a row
    of the transfer query. *)
Lemma build_network_edge_inv stops_df trip_edges_df transfers G u v d :
  build_network stops_df trip_edges_df transfers = Ret G ->
  edge G u v = Some d ->
  (exists row, row ∈ trip_edges_df /\ pair_of_trip row = (u, v) /\
     d = {| weight := Some (trip_weight row); type := Some travel;
            route := Some (route_id row) |}) \/
  (exists te, te ∈ transfer_query transfers /\ pair_of_edge te = (u, v) /\
     weight d = Some (tr_weight te) /\ type d = Some transfer).
Proof.
  intros (cs & _ & ->)%build_network_unfold He.
  destruct (stations_graph_spec stops_df cs) as (Hwf & Hel & Hnodes).
  apply transfers_edge_inv in He as [He|Hte]; [|by right].
  apply trips_edge_inv in He as [He|Hrow]; [|by left].
  by rewrite edgeless_edge in He.
Qed.

(** Durations that are not negative give a network without negative
    weights: the transfer query only produces positive ones. *)
Lemma build_network_nonneg stops_df trip_edges_df transfers G :
  build_network stops_df trip_edges_df transfers = Ret G ->
  (forall row, row ∈ trip_edges_df -> 0 <= trip_weight row) ->
  nonneg_weights G.
Proof.
  intros Hb Htrips u v d He.
  destruct (build_network_edge_inv _ _ _ _ _ _ _ Hb He)
    as [(row & Hrow & _ & ->)|(te & Hte & _ & Hw & _)].
  - unfold Nx.weight_function. simpl. by apply Htrips.
  - unfold Nx.weight_function. rewrite Hw. simpl.
    apply transfer_query_elem in Hte as (r & _ & _ & ->). simpl.
    pose proof (transfer_weight_pos (min_transfer_time r)). lia.
Qed.

End builder_facts.

(** * Claims about the builder *)

Section builder_claims.

Lemma last_occurrence {A} (P : A -> Prop) `{!forall x, Decision (P x)}
    (l : list A) x :
  x ∈ l -> P x ->
  exists l1 y l2, l = l1 ++ y :: l2 /\ P y /\ forall z, z ∈ l2 -> ~ P z.
Proof.
  revert x. induction l as [|a l IH]; intros x; [by intros ?%elem_of_nil|].
  intros Hin HP.
  destruct (decide (Exists P l)) as [Hex|Hno].
  - apply Exists_exists in Hex as (x' & Hx' & HP').
    destruct (IH x' Hx' HP') as (l1 & y & l2 & -> & Hy & Hl2).
    exists (a :: l1), y, l2. done.
  - apply elem_of_cons in Hin as [->|Hin].
    + exists [], a, l. split; [done|]. split; [done|].
      intros z Hz Pz. apply Hno, Exists_exists. eauto.
    + destruct Hno. apply Exists_exists. eauto.
Qed.

(** C3.  Every transfer edge of the built network joins two different
    stations and comes from a row of the transfers table, whose stored
    minimum time is the weight when it is positive; otherwise (zero,
    negative or NULL) the weight is 180 seconds.  And every row between two
    different listed stations does produce a transfer edge. *)
Theorem transfer_edge_weight stops_df trip_edges_df transfers G :
  build_network stops_df trip_edges_df transfers = Ret G ->
  (forall u v d, edge G u v = Some d -> type d = Some transfer ->
     u ≠ v /\
     exists r w, r ∈ transfers /\ from_stop_id r = u /\ to_stop_id r = v /\
       weight d = Some w /\
       match min_transfer_time r with
       | Some m => (0 < m -> w = m) /\ (m <= 0 -> w = 180)
       | None => w = 180
       end) /\
  (forall r, r ∈ transfers -> from_stop_id r ≠ to_stop_id r ->
     from_stop_id r ∈ stop_id <$> stops_df ->
     to_stop_id r ∈ stop_id <$> stops_df ->
     exists d, edge G (from_stop_id r) (to_stop_id r) = Some d /\
       type d = Some transfer).
Proof.
  intros (cs & _ & ->)%build_network_unfold.
  destruct (stations_graph_spec stops_df cs) as (Hwf & Hel & Hnodes).
  split.
  - intros u v d He Ht.
    apply transfers_edge_inv in He as [He|(te & Hin & Hp & Hw & _)].
    + apply trips_edge_inv in He as [He|(row & _ & _ & ->)].
      * by rewrite edgeless_edge in He.
      * done.
    + apply transfer_query_elem in Hin as (r & Hr & Hne & ->).
      injection Hp as <- <-. split; [done|].
      exists r, (transfer_weight (min_transfer_time r)).
      split_and!; try done. apply transfer_weight_cases.
  - intros r Hr Hne Hu Hv.
    set (te := {| tr_from := from_stop_id r; tr_to := to_stop_id r;
                  tr_weight := transfer_weight (min_transfer_time r) |}).
    assert (te ∈ transfer_query transfers) as Hte.
    { apply transfer_query_elem. by exists r. }
    destruct (last_occurrence (fun x => pair_of_edge x = pair_of_edge te)
                _ _ Hte eq_refl) as (l1 & y & l2 & Hl & Hy & Hl2).
    rewrite Hl. injection Hy as Hy1 Hy2. simpl in Hy1, Hy2.
    destruct (transfers_edge_last
                (foldl add_trip_edge (stations_graph stops_df cs) trip_edges_df)
                l1 y l2) as (d & Hd & _ & Ht).
    + by apply wf_trips.
    + rewrite Hy1. apply nodes_mono_trips; [done|]. by apply Hnodes.
    + rewrite Hy2. apply nodes_mono_trips; [done|]. by apply Hnodes.
    + intros z Hz Heq. apply (Hl2 z Hz). rewrite Heq.
      unfold pair_of_edge. by rewrite Hy1, Hy2.
    + exists d. by rewrite Hy1, Hy2 in Hd.
Qed.

Lemma transfer_edge_weight_witness :
  (forall u v d, edge scenario_E_graph u v = Some d ->
     type d = Some transfer ->
     u ≠ v /\
     exists r w, r ∈ scenario_E_transfers /\
       from_stop_id r = u /\ to_stop_id r = v /\
       weight d = Some w /\
       match min_transfer_time r with
       | Some m => (0 < m -> w = m) /\ (m <= 0 -> w = 180)
       | None => w = 180
       end) /\
  (forall r, r ∈ scenario_E_transfers -> from_stop_id r ≠ to_stop_id r ->
     from_stop_id r ∈ stop_id <$> scenario_stops ->
     to_stop_id r ∈ stop_id <$> scenario_stops ->
     exists d, edge scenario_E_graph (from_stop_id r) (to_stop_id r) = Some d /\
       type d = Some transfer).
Proof.
  apply (transfer_edge_weight scenario_stops [] scenario_E_transfers).
  vm_compute. reflexivity.
Defined.

(** Scenario E, evaluated. *)
Example scenario_E_weight :
  edge scenario_E_graph "A" "B" =
  Some {| weight := Some 180; type := Some transfer; route := None |}.
Proof. vm_compute. reflexivity. Qed.

(** C2, as the code has it.  No ordered pair carries two edges.  When a
    travel row and a transfer row between different stations share a pair,
    the edge takes the weight and the kind of the (last such) transfer row
    and keeps the route of the (last such) travel row. *)
Theorem edge_unique_and_transfer_overwrite stops_df trip_edges_df transfers G :
  build_network stops_df trip_edges_df transfers = Ret G ->
  edge_unique G /\
  forall t1 tr t2 f1 r f2,
    trip_edges_df = t1 ++ tr :: t2 ->
    transfers = f1 ++ r :: f2 ->
    pair_of_transfer r = pair_of_trip tr ->
    from_stop_id r ≠ to_stop_id r ->
    (forall x, x ∈ t2 -> pair_of_trip x ≠ pair_of_trip tr) ->
    (forall x, x ∈ f2 -> pair_of_transfer x ≠ pair_of_transfer r) ->
    edge G (trip_from tr) (trip_to tr) =
    Some {| weight := Some (transfer_weight (min_transfer_time r));
            type := Some transfer;
            route := Some (route_id tr) |}.
Proof.
  intros Hb. split; [by eapply build_network_edge_unique|].
  apply build_network_unfold in Hb as (cs & _ & ->).
  destruct (stations_graph_spec stops_df cs) as (Hwf & Hel & Hnodes).
  intros t1 tr t2 f1 r f2 -> -> Hpair Hne Ht2 Hf2.
  injection Hpair as Hu Hv.
  set (G1 := foldl add_trip_edge (stations_graph stops_df cs) (t1 ++ tr :: t2)).
  assert (edge G1 (trip_from tr) (trip_to tr) =
          Some {| weight := Some (trip_weight tr); type := Some travel;
                  route := Some (route_id tr) |}) as He1.
  { by apply trips_edge_last. }
  rewrite transfer_query_app, transfer_query_cons_ne by done.
  set (te := {| tr_from := from_stop_id r; tr_to := to_stop_id r;
                tr_weight := transfer_weight (min_transfer_time r) |}).
  destruct (trips_ends_nodes (stations_graph stops_df cs) (t1 ++ tr :: t2) tr)
    as [Hn1 Hn2]; [done | |].
  { apply elem_of_app. right. left. }
  destruct (transfers_edge_last G1 (transfer_query f1) te (transfer_query f2))
    as (d & Hd & Hw & Hty).
  - by apply wf_trips.
  - simpl. by rewrite Hu.
  - simpl. by rewrite Hv.
  - intros x (r' & Hr' & _ & ->)%transfer_query_elem Heq.
    by apply (Hf2 r' Hr').
  - simpl in Hd. rewrite Hu, Hv in Hd.
    pose proof (transfers_route G1 (transfer_query f1 ++ te :: transfer_query f2)
                  (trip_from tr) (trip_to tr)) as Hr.
    rewrite Hd, He1 in Hr. simpl in Hr, Hw.
    rewrite Hd. destruct d as [w t ro]. simpl in *. congruence.
Qed.

Lemma edge_unique_and_transfer_overwrite_witness :
  edge_unique scenario_B_graph /\
  edge scenario_B_graph "A" "B" =
  Some {| weight := Some 50; type := Some transfer; route := Some "1" |}.
Proof.
  destruct (edge_unique_and_transfer_overwrite scenario_stops scenario_trips
              scenario_B_transfers scenario_B_graph) as [Hu Hov].
  { vm_compute. reflexivity. }
  split; [exact Hu|].
  apply (Hov [] (trip "A" "B" 100 "1") [trip "B" "C" 200 "1"]
             [] (transfer_link "A" "B" (Some 50)) []).
  - reflexivity.
  - reflexivity.
  - reflexivity.
  - simpl. discriminate.
  - intros x Hx. apply list_elem_of_singleton in Hx as ->. discriminate.
  - intros x Hx. by apply elem_of_nil in Hx.
Defined.

(** C2 as stated fails: after the transfer row of scenario B the edge from
    A to B still carries the route of the travel row, so the travel edge
    is not discarded entirely. *)
Lemma travel_route_survives_transfer :
  build_network scenario_stops scenario_trips scenario_B_transfers
    = Ret scenario_B_graph /\
  edge scenario_B_graph "A" "B" =
    Some {| weight := Some 50; type := Some transfer; route := Some "1" |} /\
  ~ travel_discarded scenario_B_graph "A" "B" 50.
Proof.
  split; [vm_compute; reflexivity|].
  assert (edge scenario_B_graph "A" "B" =
          Some {| weight := Some 50; type := Some transfer;
                  route := Some "1" |}) as He.
  { vm_compute. reflexivity. }
  split; [exact He|].
  unfold travel_discarded. rewrite He. discriminate.
Qed.

(** C4 at the failing input: a travel row towards a station that is not in
    the stops table is inserted all the same, and the station becomes a
    node without attributes. *)
Lemma trip_edge_adds_unlisted_station :
  build_network unlisted_stops unlisted_trips [] = Ret unlisted_graph /\
  "X" ∉ stop_id <$> unlisted_stops /\
  Nx.has_node unlisted_graph "X" = true /\
  nodes unlisted_graph !! "X" = Some {| name := None; coords := None |} /\
  edge unlisted_graph "A" "X" =
    Some {| weight := Some 60; type := Some travel; route := Some "1" |}.
Proof.
  split_and!; try (vm_compute; reflexivity).
  simpl. rewrite list_elem_of_singleton. discriminate.
Qed.

End builder_claims.

(** * The heuristic *)

Section heuristic_facts.
Local Open Scope R_scope.

Lemma Rltb_true a b : a < b -> Rltb a b = true.
Proof. intros H. unfold Rltb. by destruct (Rlt_dec a b). Qed.

Lemma Rltb_false a b : b <= a -> Rltb a b = false.
Proof. intros H. unfold Rltb. destruct (Rlt_dec a b); [lra | done]. Qed.

Lemma Reqb_true a b : a = b -> Reqb a b = true.
Proof. intros H. unfold Reqb. by destruct (Req_dec_T a b). Qed.

Lemma Reqb_false a b : a <> b -> Reqb a b = false.
Proof. intros H. unfold Reqb. by destruct (Req_dec_T a b). Qed.

Lemma hav_as_cos x : hav x = (1 - cos x) / 2.
Proof.
  unfold hav. replace (cos x) with (cos (2 * (x / 2))) by (f_equal; lra).
  rewrite cos_2a_sin. unfold Rsqr. lra.
Qed.

Lemma hav_range x : 0 <= hav x <= 1.
Proof. rewrite hav_as_cos. pose proof (COS_bound x) as [? ?]. lra. Qed.

(** The argument of the two square roots of [haversine] lies between 0 and
    1, whatever the coordinates: neither [math.sqrt] raises. *)
Lemma haversine_argument_range phi1 phi2 dl :
  0 <= hav (phi2 - phi1) + cos phi1 * cos phi2 * hav dl <= 1.
Proof.
  pose proof (hav_range dl) as [Hs0 Hs1].
  set (s := hav dl) in *.
  rewrite hav_as_cos, cos_minus.
  pose proof (COS_bound (phi2 - phi1)) as [Ha1 Ha2].
  pose proof (COS_bound (phi2 + phi1)) as [Hb1 Hb2].
  rewrite cos_minus in Ha1, Ha2. rewrite cos_plus in Hb1, Hb2.
  set (C := cos phi2 * cos phi1) in *. set (S := sin phi2 * sin phi1) in *.
  replace (cos phi1 * cos phi2) with C by (unfold C; ring).
  split; nra.
Qed.

Lemma atan2_sqrt a :
  0 <= a <= 1 -> atan2 (sqrt a) (sqrt (1 - a)) = asin (sqrt a).
Proof.
  intros [H0 H1]. unfold atan2.
  destruct (Req_dec_T a 1) as [->|Hne].
  - replace (1 - 1) with 0 by lra. rewrite sqrt_0, sqrt_1.
    rewrite (Rltb_false 0 0) by lra. rewrite (Rltb_true 0 1) by lra.
    by rewrite asin_1.
  - assert (0 < sqrt (1 - a)) by (apply sqrt_lt_R0; lra).
    rewrite Rltb_true by done.
    rewrite asin_atan.
    + by rewrite Rsqr_sqrt.
    + split.
      * pose proof (sqrt_pos a). lra.
      * rewrite <- sqrt_1. apply sqrt_lt_1; lra.
Qed.

Lemma haversine_num lat1 lon1 lat2 lon2 :
  haversine (PyNum lat1) (PyNum lon1) (PyNum lat2) (PyNum lon2) =
  Ret (PyNum (great_circle_distance (IZR Config.R) lat1 lon1 lat2 lon2)).
Proof.
  unfold haversine, great_circle_distance. simpl.
  set (a := _ + _).
  set (a' := hav _ + _).
  assert (a = a') as ->.
  { unfold a, a', hav, Rsqr.
    assert (forall x, x * (PI / 180) = x * PI / 180) as E
      by (intros; unfold Rdiv; ring).
    by rewrite !E. }
  assert (0 <= a' <= 1) as Ha.
  { unfold a'.
    replace ((lat2 - lat1) * PI / 180)
      with (lat2 * PI / 180 - lat1 * PI / 180) by (unfold Rdiv; ring).
    apply haversine_argument_range. }
  rewrite Rltb_false by lra. simpl.
  rewrite Rltb_false by lra. simpl.
  rewrite atan2_sqrt by done.
  do 2 f_equal. lra.
Qed.

(** [haversine] never raises: NaN goes through, numbers stay within the
    domain of the square roots. *)
Lemma haversine_total lat1 lon1 lat2 lon2 :
  exists d, haversine lat1 lon1 lat2 lon2 = Ret d.
Proof.
  destruct lat1, lon1, lat2, lon2; try (by eexists).
  rewrite haversine_num. by eexists.
Qed.

Lemma haversine_nan lat1 lon1 lat2 lon2 :
  lat1 = PyNaN \/ lon1 = PyNaN \/ lat2 = PyNaN \/ lon2 = PyNaN ->
  haversine lat1 lon1 lat2 lon2 = Ret PyNaN.
Proof.
  intros H. destruct lat1, lon1, lat2, lon2; try done.
  naive_solver.
Qed.

Lemma great_circle_distance_same r lat lon :
  great_circle_distance r lat lon lat lon = 0.
Proof.
  unfold great_circle_distance, hav.
  replace ((lat - lat) * PI / 180 / 2) with 0 by lra.
  replace ((lon - lon) * PI / 180 / 2) with 0 by lra.
  rewrite sin_0. unfold Rsqr.
  replace (0 * 0 + _ * (0 * 0)) with 0 by lra.
  rewrite sqrt_0, asin_0. lra.
Qed.

Lemma great_circle_distance_antipodal r :
  great_circle_distance r 0 0 0 180 = r * PI.
Proof.
  unfold great_circle_distance, hav.
  replace ((0 - 0) * PI / 180 / 2) with 0 by lra.
  replace ((180 - 0) * PI / 180 / 2) with (PI / 2) by lra.
  replace (0 * PI / 180) with 0 by lra.
  rewrite sin_0, cos_0, sin_PI2. unfold Rsqr.
  replace (0 * 0 + 1 * 1 * (1 * 1)) with 1 by lra.
  rewrite sqrt_1, asin_1. lra.
Qed.

Lemma heuristic_num G u v lat1 lon1 lat2 lon2 :
  has_coords G u lat1 lon1 -> has_coords G v lat2 lon2 ->
  heuristic G u v =
  Ret (PyNum (great_circle_distance 6371000 lat1 lon1 lat2 lon2 / 10)).
Proof.
  intros (a1 & Hu & Hc1) (a2 & Hv & Hc2). unfold heuristic.
  rewrite Hu, Hv. simpl. rewrite Hc1, Hc2. simpl.
  by rewrite haversine_num.
Qed.

(** The lookups that fail with [KeyError] give the estimate 0. *)
Lemma heuristic_missing G u v :
  nodes G !! u = None \/ nodes G !! v = None \/
  (exists a, nodes G !! u = Some a /\ coords a = None) \/
  (exists a, nodes G !! v = Some a /\ coords a = None) ->
  heuristic G u v = Ret (of_int 0).
Proof.
  unfold heuristic.
  intros [Hu|[Hv|[(a & Hu & Hc)|(a & Hv & Hc)]]].
  - by rewrite Hu.
  - rewrite Hv. destruct (nodes G !! u) as [a|]; simpl; [|done].
    by destruct (coords a).
  - by rewrite Hu; simpl; rewrite Hc.
  - rewrite Hv. simpl. rewrite Hc.
    destruct (nodes G !! u) as [a'|]; simpl; [|done].
    by destruct (coords a').
Qed.

(** No exception leaves the heuristic. *)
Lemma heuristic_total G u v : exists h, heuristic G u v = Ret h.
Proof.
  unfold heuristic.
  destruct (nodes G !! u) as [a1|]; simpl; [|by eexists].
  destruct (coords a1) as [c1|]; simpl; [|by eexists].
  destruct (nodes G !! v) as [a2|]; simpl; [|by eexists].
  destruct (coords a2) as [c2|]; simpl; [|by eexists].
  destruct (haversine_total (stop_lat c1) (stop_lon c1) (stop_lat c2)
              (stop_lon c2)) as [d ->].
  simpl. by eexists.
Qed.

Lemma heuristic_same G t lat lon :
  has_coords G t lat lon -> heuristic G t t = Ret (PyNum 0).
Proof.
  intros H. rewrite (heuristic_num G t t lat lon lat lon) by done.
  rewrite great_circle_distance_same. do 2 f_equal. lra.
Qed.

(** The estimate of the time from a station to itself is 0 whenever it
    is a number. *)
Lemma heuristic_self G t r : heuristic G t t = Ret (PyNum r) -> r = 0.
Proof.
  destruct (nodes G !! t) as [a|] eqn:Ha.
  2:{ rewrite heuristic_missing by auto. by intros [= <-]. }
  destruct (coords a) as [[lat lon]|] eqn:Hc.
  2:{ rewrite heuristic_missing by eauto 6. by intros [= <-]. }
  destruct lat as [lat|], lon as [lon|].
  - rewrite (heuristic_same G t lat lon) by (by exists a). by intros [= <-].
  - unfold heuristic. rewrite Ha. simpl. by rewrite Hc.
  - unfold heuristic. rewrite Ha. simpl. by rewrite Hc.
  - unfold heuristic. rewrite Ha. simpl. by rewrite Hc.
Qed.

End heuristic_facts.

Section heuristic_claims.
Local Open Scope R_scope.

(** C7.  Between two stations of the graph that have coordinates, the
    estimate is the great-circle distance of the haversine formula on a
    sphere of radius 6,371,000 meters, divided by 10 meters per second. *)
Theorem heuristic_is_haversine_time G u v lat1 lon1 lat2 lon2 :
  has_coords G u lat1 lon1 -> has_coords G v lat2 lon2 ->
  heuristic G u v =
  Ret (PyNum (great_circle_distance 6371000 lat1 lon1 lat2 lon2 / 10)).
Proof. apply heuristic_num. Qed.

Lemma antipodal_coords :
  has_coords fast_graph "A" 0 0 /\ has_coords fast_graph "B" 0 180 /\
  has_coords slow_graph "A" 0 0 /\ has_coords slow_graph "B" 0 180.
Proof.
  split_and!; eexists; split; vm_compute; reflexivity.
Qed.

Lemma heuristic_is_haversine_time_witness :
  heuristic fast_graph "A" "B" =
  Ret (PyNum (great_circle_distance 6371000 0 0 0 180 / 10)).
Proof.
  apply (heuristic_is_haversine_time fast_graph "A" "B" 0 0 0 180);
    apply antipodal_coords.
Defined.

(** C5 at the failing input: a station that is in the graph with NULL
    coordinates has a [coords] attribute holding NaN, no lookup fails, and
    the estimate is NaN instead of 0. *)
Lemma heuristic_nan_for_null_coordinates :
  build_network null_coords_stops [] [] = Ret null_coords_graph /\
  Nx.has_node null_coords_graph "A" = true /\
  heuristic null_coords_graph "A" "B" = Ret PyNaN /\
  heuristic null_coords_graph "A" "B" <> Ret (of_int 0).
Proof.
  assert (heuristic null_coords_graph "A" "B" = Ret PyNaN) as H
    by (vm_compute; reflexivity).
  split_and!; try (vm_compute; reflexivity).
  rewrite H. discriminate.
Qed.

Lemma fast_graph_estimate :
  heuristic fast_graph "A" "B" = Ret (PyNum (637100 * PI)).
Proof.
  rewrite (heuristic_num fast_graph "A" "B" 0 0 0 180)
    by apply antipodal_coords.
  rewrite great_circle_distance_antipodal. do 2 f_equal. lra.
Qed.

(** C6 as stated fails: the two stations have coordinates, a travel
    segment joins them in one second, and the estimate is above 637100
    seconds. *)
Lemma estimate_exceeds_travel_time :
  has_coords fast_graph "A" 0 0 /\ has_coords fast_graph "B" 0 180 /\
  walk fast_graph "A" "B" 1 /\
  ~ admissible_at fast_graph "A" "B".
Proof.
  assert (walk fast_graph "A" "B" 1) as Hw.
  { apply (walk_cons fast_graph "A" "B" "B"
             {| weight := Some 1%Z; type := Some travel; route := Some "1" |}
             0%Z).
    - vm_compute. reflexivity.
    - constructor. }
  split_and!; try apply antipodal_coords; [done|].
  intros Hadm. destruct (Hadm 1%Z Hw) as (h & Hh & Hle).
  rewrite fast_graph_estimate in Hh. injection Hh as <-.
  pose proof PI2_1. lra.
Qed.

(** C6, as the code has it.  The estimate towards a station with
    coordinates is a lower bound of the cost of every sequence of edges
    leading to it, provided it drops along every edge by at most the weight
    of the edge. *)
Theorem heuristic_admissible_when_consistent G u v lat lon :
  has_coords G v lat lon ->
  consistent_towards G v ->
  admissible_at G u v.
Proof.
  intros Hv Hcons c Hw. induction Hw as [t|u w t d c He Hw IH].
  - exists 0. split; [by eapply heuristic_same | simpl; lra].
  - destruct (IH Hv Hcons) as (h & Hh & Hle).
    destruct (Hcons _ _ _ He) as (hu & hv & Hhu & Hhv & Hstep).
    exists hu. split; [done|]. rewrite Hh in Hhv. injection Hhv as <-.
    rewrite plus_IZR. lra.
Qed.

Lemma slow_graph_consistent : consistent_towards slow_graph "B".
Proof.
  intros u v d He.
  assert (build_network antipodal_stops [trip "A" "B" 3000000 "1"] []
          = Ret slow_graph) as Hb by (vm_compute; reflexivity).
  destruct (build_network_edge_inv _ _ _ _ _ _ _ Hb He)
    as [(row & Hrow & Hp & ->)|(te & Hte & _)].
  - apply list_elem_of_singleton in Hrow as ->. injection Hp as <- <-.
    exists (637100 * PI), 0. split_and!.
    + rewrite (heuristic_num slow_graph "A" "B" 0 0 0 180)
        by apply antipodal_coords.
      rewrite great_circle_distance_antipodal. do 2 f_equal. lra.
    + eapply heuristic_same, antipodal_coords.
    + unfold Nx.weight_function. simpl. pose proof PI_4. lra.
  - by apply elem_of_nil in Hte.
Qed.

Lemma heuristic_admissible_when_consistent_witness :
  admissible_at slow_graph "A" "B".
Proof.
  apply (heuristic_admissible_when_consistent slow_graph "A" "B" 0 180).
  - apply antipodal_coords.
  - apply slow_graph_consistent.
Defined.

End heuristic_claims.

(** * The heap: what goes in comes out *)

Section heapq_perm.
Context {A : Type} (lt : A -> A -> bool).
Implicit Types (heap l : list A) (x y : A).
Local Arguments Nat.div : simpl never.
Local Arguments Nat.mul : simpl never.
Local Arguments Nat.add : simpl never.
Local Arguments Nat.sub : simpl never.

Lemma insert_move_perm l j x y :
  l !! j = Some y -> y :: <[j := x]> l ≡ₚ x :: l.
Proof.
  revert j. induction l as [|a l IH]; intros [|j]; simpl; try done.
  - intros [= ->]. apply Permutation_swap.
  - intros Hj. etrans; [apply Permutation_swap|].
    etrans; [|apply Permutation_swap]. f_equiv. by apply IH.
Qed.

(** Exchanging two positions permutes the list. *)
Lemma insert_swap_perm l i j x y :
  l !! i = Some x -> l !! j = Some y -> <[i := y]> (<[j := x]> l) ≡ₚ l.
Proof.
  revert i j. induction l as [|a l IH]; intros [|i] [|j]; simpl; try done.
  - intros [= ->] [= ->]. done.
  - intros [= ->] Hj. by apply insert_move_perm.
  - intros Hi [= ->]. by apply insert_move_perm.
  - intros Hi Hj. f_equiv. by apply IH.
Qed.

Lemma insert_hole_perm l i j x y :
  i ≠ j -> l !! j = Some y ->
  (i < length l)%nat ->
  <[j := x]> (<[i := y]> l) ≡ₚ <[i := x]> l.
Proof.
  intros Hne Hj Hi.
  replace (<[i := y]> l) with (<[i := y]> (<[i := x]> l))
    by apply list_insert_insert_eq.
  apply insert_swap_perm.
  - by rewrite list_lookup_insert_ne.
  - by rewrite list_lookup_insert_eq.
Qed.

Lemma siftdown_loop_perm fuel heap newitem startpos pos :
  (pos < length heap)%nat ->
  Heapq.siftdown_loop lt fuel heap newitem startpos pos
    ≡ₚ <[pos := newitem]> heap.
Proof.
  revert heap pos. induction fuel as [|fuel IH]; intros heap pos Hpos; simpl;
    [reflexivity|].
  case_bool_decide as Hsp; [|reflexivity].
  assert ((pos - 1) / 2 < pos)%nat as Hpp.
  { apply Nat.div_lt_upper_bound; lia. }
  destruct (heap !! ((pos - 1) / 2)%nat) as [parent|] eqn:Hparent;
    [|reflexivity].
  destruct (lt newitem parent); [|reflexivity].
  rewrite IH by (rewrite length_insert; lia).
  apply insert_hole_perm; [lia | done | done].
Qed.

Lemma siftdown_perm heap startpos pos :
  Heapq.siftdown lt heap startpos pos ≡ₚ heap.
Proof.
  unfold Heapq.siftdown. destruct (heap !! pos) as [newitem|] eqn:Hpos;
    [|reflexivity].
  rewrite siftdown_loop_perm by (by eapply lookup_lt_Some).
  by rewrite list_insert_id.
Qed.

Lemma siftup_loop_perm fuel heap endpos pos heap' pos' x :
  (pos < length heap)%nat ->
  Heapq.siftup_loop lt fuel heap endpos pos = (heap', pos') ->
  (pos' < length heap')%nat /\
  <[pos' := x]> heap' ≡ₚ <[pos := x]> heap.
Proof.
  revert heap pos. induction fuel as [|fuel IH]; intros heap pos Hpos; simpl.
  { by intros [= <- <-]. }
  case_bool_decide as Hc; [|by intros [= <- <-]].
  set (childpos := if _ && _ then _ else _).
  assert (pos < childpos)%nat as Hlt.
  { unfold childpos. destruct (_ && _); lia. }
  destruct (heap !! childpos) as [child|] eqn:Hchild; [|by intros [= <- <-]].
  intros Hloop. apply IH in Hloop as [Hlen Hperm].
  - split; [done|]. rewrite Hperm.
    apply insert_hole_perm; [lia | done | done].
  - rewrite length_insert. by eapply lookup_lt_Some.
Qed.

Lemma siftup_perm heap pos : Heapq.siftup lt heap pos ≡ₚ heap.
Proof.
  unfold Heapq.siftup. destruct (heap !! pos) as [newitem|] eqn:Hpos;
    [|reflexivity].
  destruct (Heapq.siftup_loop lt _ heap _ pos) as [heap' pos'] eqn:Hloop.
  apply (siftup_loop_perm _ _ _ _ _ _ newitem) in Hloop as [_ Hperm];
    [|by eapply lookup_lt_Some].
  rewrite siftdown_perm, Hperm. by rewrite list_insert_id.
Qed.

Lemma heappush_perm heap item : Heapq.heappush lt heap item ≡ₚ item :: heap.
Proof.
  unfold Heapq.heappush. rewrite siftdown_perm.
  by rewrite Permutation_app_comm.
Qed.

Lemma last_removelast l x : last l = Some x -> l = removelast l ++ [x].
Proof.
  induction l as [|a [|b l] IH]; simpl; [done| |].
  - by intros [= ->].
  - intros H. f_equal. by apply IH.
Qed.

Lemma heappop_perm heap :
  heap ≠ [] ->
  exists e q, Heapq.heappop lt heap = Ret (e, q) /\ heap ≡ₚ e :: q.
Proof.
  intros Hne. unfold Heapq.heappop.
  destruct (last heap) as [lastelt|] eqn:Hlast.
  - pose proof (last_removelast _ _ Hlast) as Heq.
    destruct (removelast heap) as [|returnitem rest].
    + exists lastelt, []. split; [done|]. by rewrite Heq.
    + eexists _, _. split; [done|]. rewrite Heq at 1. simpl. f_equiv.
      rewrite siftup_perm. by rewrite Permutation_app_comm.
  - apply last_None in Hlast. done.
Qed.

Lemma heappop_inv heap e q :
  Heapq.heappop lt heap = Ret (e, q) -> heap ≡ₚ e :: q.
Proof.
  intros Hpop. destruct heap as [|a heap].
  - done.
  - destruct (heappop_perm (a :: heap)) as (e' & q' & Hpop' & Hperm); [done|].
    congruence.
Qed.

End heapq_perm.

(** * The heap: the smallest item is at the root *)

Section heap_order.
Context {A : Type} (lt : A -> A -> bool) (P : A -> Prop).
Context (lt_asym : forall x y, P x -> P y -> lt x y = true -> lt y x = false).
Context (above_trans : forall x y z, P x -> P y -> P z ->
           above lt x y -> above lt y z -> above lt x z).
Implicit Types (l : list A) (x y : A).
Local Arguments Nat.div : simpl never.
Local Arguments Nat.mul : simpl never.
Local Arguments Nat.add : simpl never.
Local Arguments Nat.sub : simpl never.

Lemma parent_lt j : (0 < j)%nat -> ((j - 1) / 2 < j)%nat.
Proof. intros Hj. apply Nat.div_lt_upper_bound; lia. Qed.

Lemma parent_child j i :
  (0 < j)%nat -> ((j - 1) / 2)%nat = i <-> j = (2 * i + 1)%nat \/ j = (2 * i + 2)%nat.
Proof.
  intros Hj. split.
  - intros <-. pose proof (Nat.div_mod_eq (j - 1) 2).
    pose proof (Nat.mod_upper_bound (j - 1) 2). lia.
  - intros [-> | ->].
    + replace (2 * i + 1 - 1)%nat with (i * 2)%nat by lia.
      by rewrite Nat.div_mul.
    + replace (2 * i + 2 - 1)%nat with (1 + i * 2)%nat by lia.
      by rewrite Nat.div_add.
Qed.

Lemma above_refl x : P x -> above lt x x.
Proof.
  intros Hx. unfold above. destruct (lt x x) eqn:Hlt; [|done].
  by rewrite (lt_asym x x Hx Hx Hlt) in Hlt.
Qed.

Lemma Forall_insert_P l i x : Forall P l -> P x -> Forall P (<[i := x]> l).
Proof.
  intros Hl Hx. apply Forall_forall. intros y Hy.
  apply list_elem_of_lookup in Hy as [j Hj].
  destruct (decide (i = j)) as [->|Hne].
  - destruct (decide (j < length l)%nat).
    + rewrite list_lookup_insert_eq in Hj by done. by injection Hj as <-.
    + rewrite list_insert_ge in Hj by lia.
      eapply Forall_forall; [done|]. by eapply list_elem_of_lookup_2.
  - rewrite list_lookup_insert_ne in Hj by done.
    eapply Forall_forall; [done|]. by eapply list_elem_of_lookup_2.
Qed.

(** The root is above every item. *)
Lemma root_minimal l r :
  heap_ordered lt l -> Forall P l -> l !! 0%nat = Some r ->
  forall x, x ∈ l -> above lt r x.
Proof.
  intros Hord Hl Hr x Hx. apply list_elem_of_lookup in Hx as [j Hj].
  revert x Hj. induction j as [j IH] using lt_wf_ind. intros x Hj.
  assert (P r) as HPr by (eapply Forall_forall; [done|];
                          by eapply list_elem_of_lookup_2).
  destruct (decide (j = 0)%nat) as [->|Hne].
  - assert (x = r) as -> by congruence. by apply above_refl.
  - assert (0 < j)%nat as Hpos by lia.
    pose proof (parent_lt j Hpos) as Hlt.
    assert (is_Some (l !! ((j - 1) / 2)%nat)) as [p Hp].
    { apply lookup_lt_is_Some. apply lookup_lt_Some in Hj. lia. }
    apply above_trans with (y := p); try done.
    + eapply Forall_forall; [done|]. by eapply list_elem_of_lookup_2.
    + eapply Forall_forall; [done|]. by eapply list_elem_of_lookup_2.
    + by eapply IH.
    + by eapply Hord.
Qed.

(** Placing the new item once its parent is above it. *)
Lemma sifting_up_place l newitem pos :
  sifting_up lt l newitem pos ->
  (pos = 0%nat \/
   exists parent, l !! ((pos - 1) / 2)%nat = Some parent /\
     above lt parent newitem) ->
  heap_ordered lt (<[pos := newitem]> l).
Proof.
  intros [Hpos Hothers Hchildren Hgrand] Hparent j x y Hj Hx Hy.
  destruct (decide (j = pos)) as [->|Hjp].
  - rewrite list_lookup_insert_eq in Hy by done. injection Hy as <-.
    pose proof (parent_lt pos Hj).
    rewrite list_lookup_insert_ne in Hx by lia.
    destruct Hparent as [->|(parent & Hp & Habove)]; [lia|]. congruence.
  - rewrite list_lookup_insert_ne in Hy by done.
    destruct (decide (((j - 1) / 2)%nat = pos)) as [Heq|Hne].
    + rewrite Heq, list_lookup_insert_eq in Hx by done. injection Hx as <-.
      by eapply Hchildren.
    + rewrite list_lookup_insert_ne in Hx by done. by eapply Hothers.
Qed.

Lemma sifting_up_step l newitem pos parent :
  Forall P l -> P newitem ->
  sifting_up lt l newitem pos -> (0 < pos)%nat ->
  l !! ((pos - 1) / 2)%nat = Some parent -> lt newitem parent = true ->
  sifting_up lt (<[pos := parent]> l) newitem ((pos - 1) / 2)%nat.
Proof.
  intros Hl Hnew [Hpos Hothers Hchildren Hgrand] Hpos0 Hparent Hlt.
  pose proof (parent_lt pos Hpos0) as Hpp.
  assert (P parent) as HPp.
  { eapply Forall_forall; [done|]. by eapply list_elem_of_lookup_2. }
  set (pp := ((pos - 1) / 2)%nat) in *.
  split.
  - rewrite length_insert. lia.
  - intros j x y Hj Hjpp Hpj Hx Hy.
    destruct (decide (j = pos)) as [->|Hjp]; [done|].
    rewrite list_lookup_insert_ne in Hy by done.
    destruct (decide (((j - 1) / 2)%nat = pos)) as [Heq|Hne].
    + rewrite Heq, list_lookup_insert_eq in Hx by done. injection Hx as <-.
      by eapply Hgrand.
    + rewrite list_lookup_insert_ne in Hx by done. by eapply Hothers.
  - intros j y Hj Hpj Hy.
    destruct (decide (j = pos)) as [->|Hjp].
    + rewrite list_lookup_insert_eq in Hy by done. injection Hy as <-.
      by apply lt_asym.
    + rewrite list_lookup_insert_ne in Hy by done.
      assert (P y) as HPy.
      { eapply Forall_forall; [done|]. by eapply list_elem_of_lookup_2. }
      apply above_trans with (y := parent); try done.
      * by apply lt_asym.
      * eapply (Hothers j); try done; [rewrite Hpj; lia | by rewrite Hpj].
  - intros j x y Hj Hpj Hpp0 Hx Hy.
    pose proof (parent_lt pp Hpp0) as Hgp.
    rewrite list_lookup_insert_ne in Hx by lia.
    assert (P x) as HPx.
    { eapply Forall_forall; [done|]. by eapply list_elem_of_lookup_2. }
    assert (above lt x parent) as Hxp.
    { eapply (Hothers pp); try done; lia. }
    destruct (decide (j = pos)) as [->|Hjp].
    + rewrite list_lookup_insert_eq in Hy by done. by injection Hy as <-.
    + rewrite list_lookup_insert_ne in Hy by done.
      assert (P y) as HPy.
      { eapply Forall_forall; [done|]. by eapply list_elem_of_lookup_2. }
      apply above_trans with (y := parent); try done.
      eapply (Hothers j); try done; [rewrite Hpj; lia | by rewrite Hpj].
Qed.

Lemma siftdown_loop_ordered fuel l newitem pos :
  (pos <= fuel)%nat -> Forall P l -> P newitem ->
  sifting_up lt l newitem pos ->
  heap_ordered lt (Heapq.siftdown_loop lt fuel l newitem 0 pos).
Proof.
  revert l pos. induction fuel as [|fuel IH]; intros l pos Hfuel Hl Hnew Hup;
    simpl.
  - apply sifting_up_place; [done|]. left. lia.
  - case_bool_decide as Hpos0.
    2:{ apply sifting_up_place; [done|]. left. lia. }
    pose proof (parent_lt pos Hpos0) as Hpp.
    pose proof (su_pos _ _ _ _ Hup) as Hlen.
    destruct (l !! ((pos - 1) / 2)%nat) as [parent|] eqn:Hparent.
    2:{ apply lookup_ge_None in Hparent. lia. }
    destruct (lt newitem parent) eqn:Hlt.
    + apply IH; [lia | | done | by apply sifting_up_step].
      apply Forall_insert_P; [done|].
      eapply Forall_forall; [done|]. by eapply list_elem_of_lookup_2.
    + apply sifting_up_place; [done|]. right. by exists parent.
Qed.

Lemma siftdown_ordered l newitem pos :
  Forall P l -> l !! pos = Some newitem ->
  sifting_up lt l newitem pos ->
  heap_ordered lt (Heapq.siftdown lt l 0 pos).
Proof.
  intros Hl Hpos Hup. unfold Heapq.siftdown. rewrite Hpos.
  apply siftdown_loop_ordered; [done | done | | done].
  eapply Forall_forall; [done|]. by eapply list_elem_of_lookup_2.
Qed.

Lemma heappush_ordered l x :
  heap_ordered lt l -> Forall P l -> P x ->
  heap_ordered lt (Heapq.heappush lt l x).
Proof.
  intros Hord Hl Hx. unfold Heapq.heappush.
  rewrite length_app. simpl.
  replace (length l + 1 - 1)%nat with (length l) by lia.
  apply siftdown_ordered with (newitem := x).
  - apply Forall_app. split; [done|]. by apply Forall_singleton.
  - by rewrite lookup_app_r, Nat.sub_diag.
  - split.
    + rewrite length_app. simpl. lia.
    + intros j a b Hj Hjl Hpl Ha Hb.
      pose proof (parent_lt j Hj).
      assert (j < length l)%nat.
      { apply lookup_lt_Some in Hb. rewrite length_app in Hb. simpl in Hb. lia. }
      rewrite lookup_app_l in Ha, Hb by lia. by eapply Hord.
    + intros j b Hj Hpj Hb. apply lookup_lt_Some in Hb.
      rewrite length_app in Hb. simpl in Hb.
      apply parent_child in Hpj; lia.
    + intros j a b Hj Hpj _ _ Hb. apply lookup_lt_Some in Hb.
      rewrite length_app in Hb. simpl in Hb.
      apply parent_child in Hpj; lia.
Qed.

Lemma sifting_down_step l pos child :
  Forall P l -> sifting_down lt l pos ->
  (2 * pos + 1 < length l)%nat ->
  let childpos :=
    if bool_decide (2 * pos + 1 + 1 < length l)%nat &&
       negb (Heapq.item_lt lt l (2 * pos + 1) (2 * pos + 1 + 1))
    then (2 * pos + 1 + 1)%nat else (2 * pos + 1)%nat in
  l !! childpos = Some child ->
  sifting_down lt (<[pos := child]> l) childpos.
Proof.
  intros Hl [Hpos Hothers Hgrand] Hleft childpos Hchild.
  assert (childpos = (2 * pos + 1)%nat \/ childpos = (2 * pos + 2)%nat) as Hcp.
  { unfold childpos. destruct (_ && _); lia. }
  assert (((childpos - 1) / 2)%nat = pos) as Hcpp.
  { apply parent_child; lia. }
  assert (P child) as HPc.
  { eapply Forall_forall; [done|]. by eapply list_elem_of_lookup_2. }
  split.
  - rewrite length_insert. by eapply lookup_lt_Some.
  - intros j x y Hj Hjc Hpjc Hx Hy.
    destruct (decide (j = pos)) as [->|Hjp].
    + rewrite list_lookup_insert_eq in Hy by done. injection Hy as <-.
      pose proof (parent_lt pos Hj).
      rewrite list_lookup_insert_ne in Hx by lia.
      eapply (Hgrand childpos); try done. lia.
    + rewrite list_lookup_insert_ne in Hy by done.
      destruct (decide (((j - 1) / 2)%nat = pos)) as [Heq|Hne].
      * rewrite Heq, list_lookup_insert_eq in Hx by done. injection Hx as <-.
        assert (P y) as HPy.
        { eapply Forall_forall; [done|]. by eapply list_elem_of_lookup_2. }
        apply parent_child in Heq; [|done].
        unfold childpos in *. unfold Heapq.item_lt in *.
        destruct (bool_decide (2 * pos + 1 + 1 < length l)%nat) eqn:Hr;
          simpl in *.
        -- assert (is_Some (l !! (2 * pos + 1)%nat)) as [a Ha]
             by (apply lookup_lt_is_Some; lia).
           apply bool_decide_eq_true in Hr.
           assert (is_Some (l !! (2 * pos + 1 + 1)%nat)) as [b Hb]
             by (apply lookup_lt_is_Some; lia).
           rewrite Ha, Hb in *.
           destruct (lt a b) eqn:Hab; simpl in *.
           ++ assert (j = (2 * pos + 1 + 1)%nat) as -> by lia.
              assert (a = child) by congruence. assert (b = y) by congruence.
              subst. by apply lt_asym.
           ++ assert (j = (2 * pos + 1)%nat) as -> by lia.
              assert (b = child) by congruence. assert (a = y) by congruence.
              subst. done.
        -- apply bool_decide_eq_false in Hr.
           apply lookup_lt_Some in Hy. lia.
      * rewrite list_lookup_insert_ne in Hx by done. by eapply Hothers.
  - intros j x y Hj Hpj Hc0 Hx Hy.
    rewrite Hcpp, list_lookup_insert_eq in Hx by done. injection Hx as <-.
    assert (j ≠ pos).
    { pose proof (parent_lt j Hj). lia. }
    rewrite list_lookup_insert_ne in Hy by done.
    eapply (Hothers j); [done | done | rewrite Hpj; lia | by rewrite Hpj | done].
Qed.

Lemma siftup_loop_ordered fuel l pos l' pos' :
  (length l - pos <= fuel)%nat -> Forall P l -> sifting_down lt l pos ->
  Heapq.siftup_loop lt fuel l (length l) pos = (l', pos') ->
  sifting_down lt l' pos' /\ Forall P l' /\ length l' = length l /\
  (length l' <= 2 * pos' + 1)%nat.
Proof.
  revert l pos. induction fuel as [|fuel IH]; intros l pos Hfuel Hl Hdown;
    simpl.
  - intros [= <- <-]. pose proof (sd_pos _ _ _ Hdown). lia.
  - case_bool_decide as Hleft.
    2:{ intros [= <- <-]. split_and!; try done. lia. }
    set (childpos := if _ && _ then _ else _).
    assert (childpos < length l)%nat as Hcl.
    { unfold childpos. destruct (bool_decide _) eqn:Hr; simpl.
      - apply bool_decide_eq_true in Hr. destruct (negb _); lia.
      - lia. }
    assert (pos < childpos)%nat as Hpc.
    { unfold childpos. destruct (_ && _); lia. }
    destruct (l !! childpos) as [child|] eqn:Hchild.
    2:{ apply lookup_ge_None in Hchild. lia. }
    intros Hloop.
    replace (length l) with (length (<[pos := child]> l)) in Hloop
      by apply length_insert.
    apply IH in Hloop.
    + destruct Hloop as (? & ? & Hlen & ?). rewrite length_insert in Hlen.
      split_and!; try done; congruence.
    + rewrite length_insert. lia.
    + apply Forall_insert_P; [done|].
      eapply Forall_forall; [done|]. by eapply list_elem_of_lookup_2.
    + by apply sifting_down_step.
Qed.

Lemma siftup_ordered l newitem :
  Forall P l -> l !! 0%nat = Some newitem -> sifting_down lt l 0 ->
  heap_ordered lt (Heapq.siftup lt l 0).
Proof.
  intros Hl Hnew Hdown. unfold Heapq.siftup. rewrite Hnew.
  destruct (Heapq.siftup_loop lt _ l _ 0) as [l' pos'] eqn:Hloop.
  rewrite Nat.sub_0_r in Hloop.
  apply siftup_loop_ordered in Hloop as ([Hpos Hothers Hgrand] & Hl' & Hlen & Hleaf);
    [|lia|done|done].
  assert (P newitem) as HPn by (by eapply (Forall_lookup_1 P l)).
  apply siftdown_ordered with (newitem := newitem).
  - by apply Forall_insert_P.
  - by rewrite list_lookup_insert_eq.
  - split.
    + by rewrite length_insert.
    + intros j x y Hj Hjp Hpj Hx Hy.
      rewrite list_lookup_insert_ne in Hx, Hy by done. by eapply Hothers.
    + intros j y Hj Hpj Hy. apply lookup_lt_Some in Hy.
      rewrite length_insert in Hy. apply parent_child in Hpj; lia.
    + intros j x y Hj Hpj _ _ Hy. apply lookup_lt_Some in Hy.
      rewrite length_insert in Hy. apply parent_child in Hpj; lia.
Qed.

Lemma heappop_ordered l e q :
  heap_ordered lt l -> Forall P l ->
  Heapq.heappop lt l = Ret (e, q) ->
  l !! 0%nat = Some e /\ heap_ordered lt q /\ Forall P q.
Proof.
  intros Hord Hl Hpop.
  assert (Forall P q) as Hq.
  { pose proof (heappop_inv _ _ _ _ Hpop) as Hperm.
    apply (Permutation_Forall Hperm) in Hl.
    by apply Forall_cons in Hl as [_ ?]. }
  unfold Heapq.heappop in Hpop.
  destruct (last l) as [lastelt|] eqn:Hlast; [|done].
  pose proof (last_removelast _ _ Hlast) as Heq.
  destruct (removelast l) as [|returnitem rest] eqn:Hrem.
  - injection Hpop as <- <-. split_and!; [by rewrite Heq | | done].
    intros j x y _ _ Hy. done.
  - injection Hpop as <- <-. split_and!; [by rewrite Heq | | done].
    assert (P lastelt) as HPl.
    { apply (proj1 (Forall_forall P l) Hl). rewrite Heq.
      apply elem_of_app. right. by apply list_elem_of_singleton. }
    apply siftup_ordered with (newitem := lastelt); [|done|].
    { apply Forall_cons. split; [done|].
      rewrite Heq in Hl. apply Forall_cons in Hl as [_ Hl].
      by apply Forall_app in Hl as [? _]. }
    split.
    + simpl. lia.
    + intros j x y Hj Hj0 Hpj Hx Hy.
      pose proof (parent_lt j Hj).
      assert (j < S (length rest))%nat by (by apply lookup_lt_Some in Hy).
      eapply (Hord j); [done | |]; rewrite Heq.
      * destruct ((j - 1) / 2)%nat as [|k] eqn:Hk; [done|].
        simpl in *. rewrite lookup_app_l by lia. done.
      * destruct j as [|k]; [lia|].
        simpl in *. rewrite lookup_app_l by lia. done.
    + intros j x y _ _ Hlt. lia.
Qed.

End heap_order.

Section entry_order.
Local Open Scope R_scope.

Lemma entry_lt_asym x y :
  numeric x -> numeric y -> entry_lt x y = true -> entry_lt y x = false.
Proof.
  intros [a Ha] [b Hb]. unfold entry_lt, feq, flt. rewrite Ha, Hb.
  unfold Reqb, Rltb.
  destruct (Req_dec_T a b), (Req_dec_T b a), (Rlt_dec a b), (Rlt_dec b a);
    try done; try lra;
    intros Hlt%Nat.ltb_lt; apply Nat.ltb_ge; lia.
Qed.

Lemma entry_above_priority x y a b :
  priority x = PyNum a -> priority y = PyNum b ->
  above entry_lt x y -> a <= b.
Proof.
  intros Ha Hb. unfold above, entry_lt, feq, flt. rewrite Ha, Hb.
  unfold Reqb, Rltb.
  destruct (Req_dec_T b a), (Rlt_dec b a); try done; lra.
Qed.

Lemma entry_above_trans x y z :
  numeric x -> numeric y -> numeric z ->
  above entry_lt x y -> above entry_lt y z -> above entry_lt x z.
Proof.
  intros [a Ha] [b Hb] [c' Hc]. unfold above, entry_lt, feq, flt.
  rewrite Ha, Hb, Hc. unfold Reqb, Rltb.
  destruct (Req_dec_T b a), (Req_dec_T c' b), (Req_dec_T c' a),
    (Rlt_dec b a), (Rlt_dec c' b), (Rlt_dec c' a);
    try done; try lra;
    intros H1%Nat.ltb_ge H2%Nat.ltb_ge; apply Nat.ltb_ge; lia.
Qed.

End entry_order.

(** * The search: a turn of the loop never raises, and the loop ends *)

Section search.
Context (G : DiGraph) (h : string -> string -> result pyfloat)
        (s t : string).
Context (Hwf : wf_graph G) (Hnonneg : nonneg_weights G).
Context (Hunique : edge_unique G).
Context (Hh : forall n, exists x, h n t = Ret x).

Implicit Types (st : search_state) (e : entry) (q : list entry).
Local Arguments Astar.relax : simpl never.
Local Arguments Astar.relax_all : simpl nomatch.

Lemma relax_spec cur d st m w :
  exists st', Astar.relax h t cur d st (m, w) = Ret st' /\
    relax_step h t cur d st m w st'.
Proof.
  unfold Astar.relax.
  destruct (enqueued st !! m) as [[qc hh]|] eqn:Henq.
  - destruct (qc <=? d + Nx.weight_function w) eqn:Hle.
    + apply Z.leb_le in Hle. eexists. split; [done|]. by eapply relax_keep.
    + apply Z.leb_gt in Hle. eexists. split; [done|]. by eapply relax_improve.
  - destruct (Hh m) as [hh Hhh]. rewrite Hhh. simpl.
    eexists. split; [done|]. by eapply relax_new.
Qed.

Lemma relax_all_inv (I : search_state -> Prop) cur d nbrs :
  (forall st m w st', (m, w) ∈ nbrs -> I st ->
     relax_step h t cur d st m w st' -> I st') ->
  forall st, I st ->
  exists st', Astar.relax_all h t cur d st nbrs = Ret st' /\ I st'.
Proof.
  induction nbrs as [|[m w] nbrs IH]; intros Hstep st HI; simpl.
  - by exists st.
  - destruct (relax_spec cur d st m w) as (st1 & Hst1 & Hr).
    rewrite Hst1. simpl. apply IH.
    + intros st2 m' w' st3 Hin. apply Hstep. by right.
    + eapply Hstep; [left | done | done].
Qed.

Lemma relax_all_inv' (I : search_state -> Prop) cur d nbrs st st' :
  (forall st m w st', (m, w) ∈ nbrs -> I st ->
     relax_step h t cur d st m w st' -> I st') ->
  I st -> Astar.relax_all h t cur d st nbrs = Ret st' -> I st'.
Proof.
  intros Hstep HI Hr.
  destruct (relax_all_inv I cur d nbrs Hstep st HI) as (st2 & Hr2 & HI2).
  congruence.
Qed.

(** The shape of a turn of the loop. *)
Lemma iteration_spec fuel st :
  safe G st -> queue st ≠ [] ->
  exists e q, Heapq.heappop entry_lt (queue st) = Ret (e, q) /\
    queue st ≡ₚ e :: q /\
    (curnode e = t ->
     Astar.iteration G h t fuel st =
     (path ← Astar.reconstruct fuel (explored st) (parent e) [curnode e];
      Ret (Return (reverse path)))) /\
    (curnode e ≠ t ->
     exists st', Astar.iteration G h t fuel st = Ret (Continue st') /\
       loop_step G h t st e q st').
Proof.
  intros Hsafe Hq.
  destruct (heappop_perm entry_lt (queue st) Hq) as (e & q & Hpop & Hperm).
  exists e, q. split; [done|]. split; [done|].
  assert (e ∈ queue st) as Hin by (rewrite Hperm; left).
  unfold Astar.iteration. rewrite Hpop. simpl. split.
  - intros Ht. by rewrite bool_decide_eq_true_2.
  - intros Ht. rewrite bool_decide_eq_false_2 by done.
    fold (with_queue st q).
    destruct (explored st !! curnode e) as [[p|]|] eqn:Hexp; simpl.
    + destruct (parent e) as [pe|] eqn:Hpe.
      2:{ destruct (safe_initial _ _ Hsafe e Hin Hpe) as [Hemp _].
          rewrite Hemp in Hexp. by rewrite lookup_empty in Hexp. }
      destruct (safe_parent _ _ Hsafe e Hin) as [[qc hh] Henq];
        [by rewrite Hpe|].
      rewrite Henq. simpl.
      destruct (qc <? dist e) eqn:Hlt.
      * apply Z.ltb_lt in Hlt. eexists. split; [done|].
        apply loop_skip. right. by exists p, qc, hh.
      * apply Z.ltb_ge in Hlt.
        destruct (safe_node _ _ Hsafe e Hin) as [a Ha].
        assert (is_Some (adj G !! curnode e)) as [nbrs Hnbrs].
        { apply Hwf. eauto. }
        rewrite Hnbrs. simpl.
        destruct (relax_all_inv (fun _ => True) (curnode e) (dist e) nbrs)
          with (st := with_explored (with_queue st q) (curnode e) (Some pe))
          as (st' & Hr & _); [done..|].
        unfold with_explored in Hr. simpl in Hr. rewrite Hr. simpl.
        exists st'. split; [done|].
        eapply loop_expand; [|done|by rewrite Hpe].
        right. by exists p, qc, hh.
    + eexists. split; [done|]. apply loop_skip. by left.
    + destruct (safe_node _ _ Hsafe e Hin) as [a Ha].
      assert (is_Some (adj G !! curnode e)) as [nbrs Hnbrs].
      { apply Hwf. eauto. }
      rewrite Hnbrs. simpl.
      destruct (relax_all_inv (fun _ => True) (curnode e) (dist e) nbrs)
        with (st := with_explored (with_queue st q) (curnode e) (parent e))
        as (st' & Hr & _); [done..|].
      unfold with_explored in Hr. simpl in Hr. rewrite Hr. simpl.
      exists st'. split; [done|].
      eapply loop_expand; [by left | done | done].
Qed.

Lemma successor_edge cur nbrs m w :
  adj G !! cur = Some nbrs -> (m, w) ∈ nbrs -> edge G cur m = Some w.
Proof.
  intros Hadj Hin. unfold edge. rewrite Hadj. simpl.
  apply dict_get_elem_NoDup; [by eapply Hunique | done].
Qed.

Lemma walk_snoc u v w c d :
  walk G u v c -> edge G v w = Some d ->
  walk G u w (c + Nx.weight_function d).
Proof.
  intros Hw He. induction Hw as [u|u x v d' c He' Hw IH].
  - replace (0 + Nx.weight_function d) with (Nx.weight_function d + 0) by lia.
    eapply walk_cons; [done | constructor].
  - replace (Nx.weight_function d' + c + Nx.weight_function d)
      with (Nx.weight_function d' + (c + Nx.weight_function d)) by lia.
    eapply walk_cons; [done | by apply IH].
Qed.

(** *** The variant *)

Lemma sum_list_with_le {A} (f g : A -> nat) (l : list A) :
  (forall x, x ∈ l -> (f x <= g x)%nat) ->
  (sum_list_with f l <= sum_list_with g l)%nat.
Proof.
  induction l as [|a l IH]; intros H; simpl; [done|].
  pose proof (H a ltac:(left)). 
  assert (sum_list_with f l <= sum_list_with g l)%nat.
  { apply IH. intros x Hx. apply H. by right. }
  lia.
Qed.

Lemma sum_list_with_lt {A} (f g : A -> nat) (l : list A) x :
  x ∈ l -> (f x < g x)%nat ->
  (forall y, y ∈ l -> (f y <= g y)%nat) ->
  (sum_list_with f l < sum_list_with g l)%nat.
Proof.
  induction l as [|a l IH]; intros Hx Hlt H; simpl.
  - by apply elem_of_nil in Hx.
  - pose proof (H a ltac:(left)).
    assert (sum_list_with f l <= sum_list_with g l)%nat.
    { apply sum_list_with_le. intros y Hy. apply H. by right. }
    apply elem_of_cons in Hx as [->|Hx]; [lia|].
    assert (sum_list_with f l < sum_list_with g l)%nat; [|lia].
    apply IH; [done | done |]. intros y Hy. apply H. by right.
Qed.

Lemma sum_list_with_eq {A} (f g : A -> nat) (l : list A) :
  (forall x, x ∈ l -> f x = g x) -> sum_list_with f l = sum_list_with g l.
Proof.
  intros H. apply Nat.le_antisymm; apply sum_list_with_le;
    intros x Hx; rewrite (H x Hx); lia.
Qed.

Lemma station_elem n : n ∈ stations G <-> is_Some (nodes G !! n).
Proof. unfold stations. by rewrite elem_of_elements, elem_of_dom. Qed.

Lemma not_above_refl st : not_above G st st.
Proof. unfold not_above. right. right. done. Qed.

Lemma not_above_trans st1 st2 st3 :
  not_above G st1 st2 -> not_above G st2 st3 -> not_above G st1 st3.
Proof. unfold not_above. lia. Qed.

Lemma not_above_push_new st m ncost hh cur :
  is_Some (nodes G !! m) -> enqueued st !! m = None ->
  (never_enqueued G (Astar.push_neighbor st m ncost hh cur)
   < never_enqueued G st)%nat.
Proof.
  intros Hm Hnone. unfold never_enqueued. simpl.
  apply sum_list_with_lt with (x := m).
  - by apply station_elem.
  - rewrite lookup_insert_eq, Hnone. lia.
  - intros y _. destruct (decide (m = y)) as [->|Hne].
    + rewrite lookup_insert_eq, Hnone. lia.
    + by rewrite lookup_insert_ne.
Qed.

Lemma not_above_push_improve st m ncost qc hh hh' cur :
  is_Some (nodes G !! m) -> enqueued st !! m = Some (qc, hh') ->
  0 <= ncost < qc ->
  never_enqueued G (Astar.push_neighbor st m ncost hh cur)
    = never_enqueued G st /\
  (enqueued_cost G (Astar.push_neighbor st m ncost hh cur)
   < enqueued_cost G st)%nat.
Proof.
  intros Hm Hsome Hlt. split.
  - unfold never_enqueued. simpl.
    apply sum_list_with_eq. intros y _.
    destruct (decide (m = y)) as [->|Hne].
    + by rewrite lookup_insert_eq, Hsome.
    + by rewrite lookup_insert_ne.
  - unfold enqueued_cost. simpl.
    apply sum_list_with_lt with (x := m).
    + by apply station_elem.
    + rewrite lookup_insert_eq, Hsome. lia.
    + intros y _. destruct (decide (m = y)) as [->|Hne].
      * rewrite lookup_insert_eq, Hsome. lia.
      * by rewrite lookup_insert_ne.
Qed.

(** *** The safety invariant *)

Lemma elem_of_heappush q (x e : entry) :
  e ∈ Heapq.heappush entry_lt q x <-> e = x \/ e ∈ q.
Proof. by rewrite heappush_perm, elem_of_cons. Qed.

Lemma popped_rest_has_parent st e q e' :
  safe G st -> queue st ≡ₚ e :: q -> e' ∈ q -> is_Some (parent e').
Proof.
  intros Hsafe Hperm Hin. destruct (parent e') as [p|] eqn:Hp; [eauto|].
  destruct (safe_initial _ _ Hsafe e') as [_ Hq]; [|done|].
  { rewrite Hperm. by right. }
  rewrite Hq in Hperm. apply Permutation_length in Hperm. simpl in Hperm.
  destruct q; [by apply elem_of_nil in Hin | simpl in Hperm; lia].
Qed.

Lemma safe_with_queue st e q :
  safe G st -> queue st ≡ₚ e :: q -> safe G (with_queue st q).
Proof.
  intros Hsafe Hperm.
  assert (forall e', e' ∈ q -> e' ∈ queue st) as Hsub.
  { intros e' He'. rewrite Hperm. by right. }
  split; simpl.
  - intros e' He'. by apply Hsafe, Hsub.
  - intros e' He'. by apply Hsafe, Hsub.
  - apply Hsafe.
  - intros e' He'. by apply Hsafe, Hsub.
  - intros e' He' Hp.
    destruct (popped_rest_has_parent st e q e' Hsafe Hperm He') as [p Hp'].
    congruence.
Qed.

Lemma safe_with_explored st n p :
  safe G st -> (forall e, e ∈ queue st -> is_Some (parent e)) ->
  safe G (with_explored st n p).
Proof.
  intros Hsafe Hpar. split; simpl; try apply Hsafe.
  intros e He Hp. destruct (Hpar e He) as [p' Hp']. congruence.
Qed.

Lemma safe_push st m ncost hh cur :
  safe G st -> is_Some (explored st !! cur) -> 0 <= ncost ->
  is_Some (nodes G !! m) ->
  safe G (Astar.push_neighbor st m ncost hh cur).
Proof.
  intros Hsafe Hcur Hncost Hm. split; simpl.
  - intros e [->|He]%elem_of_heappush; [done | by apply Hsafe].
  - intros e [->|He]%elem_of_heappush; [done | by apply Hsafe].
  - intros n qc hh'. destruct (decide (m = n)) as [->|Hne].
    + rewrite lookup_insert_eq. by intros [= <- <-].
    + rewrite lookup_insert_ne by done. apply Hsafe.
  - intros e [->|He]%elem_of_heappush _; simpl.
    + rewrite lookup_insert_eq. eauto.
    + destruct (decide (m = curnode e)) as [->|Hne].
      * rewrite lookup_insert_eq. eauto.
      * rewrite lookup_insert_ne by done.
        destruct (parent e) as [p|] eqn:Hp.
        -- apply Hsafe; [done|]. rewrite Hp. eauto.
        -- destruct (safe_initial _ _ Hsafe e He Hp) as [Hemp _].
           rewrite Hemp, lookup_empty in Hcur. by destruct Hcur.
  - intros e [->|He]%elem_of_heappush Hp; [done|].
    destruct (safe_initial _ _ Hsafe e He Hp) as [Hemp _].
    rewrite Hemp, lookup_empty in Hcur. by destruct Hcur.
Qed.

Lemma relax_step_safe cur d nbrs st m w st' :
  adj G !! cur = Some nbrs -> (m, w) ∈ nbrs -> 0 <= d ->
  relax_step h t cur d st m w st' ->
  safe G st /\ is_Some (explored st !! cur) ->
  (safe G st' /\ is_Some (explored st' !! cur)) /\
  not_above G st' st.
Proof.
  intros Hadj Hin Hd Hstep [Hsafe Hcur].
  pose proof (successor_edge _ _ _ _ Hadj Hin) as He.
  pose proof (Hnonneg _ _ _ He) as Hw.
  pose proof (wf_succ _ Hwf _ _ _ He) as Hm.
  destruct Hstep as [qc hh Henq Hle|qc hh Henq Hlt|hh Henq Hhh].
  - split; [done | apply not_above_refl].
  - split; [split; [apply safe_push; [done|done|lia|done] | done]|].
    destruct (not_above_push_improve st m (d + Nx.weight_function w) qc hh hh
                cur Hm Henq) as [H1 H2]; [lia|].
    unfold not_above. right. left. done.
  - split; [split; [apply safe_push; [done|done|lia|done] | done]|].
    unfold not_above. left. by apply not_above_push_new.
Qed.

Lemma relax_step_reachable cur d nbrs st m w st' :
  adj G !! cur = Some nbrs -> (m, w) ∈ nbrs ->
  reachable G s cur ->
  relax_step h t cur d st m w st' ->
  queue_reachable G s st -> queue_reachable G s st'.
Proof.
  intros Hadj Hin [c0 Hc0] Hstep Hq.
  pose proof (successor_edge _ _ _ _ Hadj Hin) as He.
  assert (reachable G s m) as Hm.
  { eexists. by eapply walk_snoc. }
  destruct Hstep; [done|..];
    intros e [->|He']%elem_of_heappush; try done; by apply Hq.
Qed.

Lemma lex3_pop_not_above st e q st' :
  queue st ≡ₚ e :: q ->
  not_above G st' (with_queue st q) ->
  lex3 (measure G st') (measure G st).
Proof.
  intros Hperm Hna. apply Permutation_length in Hperm. simpl in Hperm.
  unfold not_above, never_enqueued, enqueued_cost in Hna. simpl in Hna.
  unfold lex3, measure, never_enqueued, enqueued_cost. lia.
Qed.

Lemma loop_step_safe st e q st' :
  safe G st -> queue st ≡ₚ e :: q ->
  loop_step G h t st e q st' ->
  safe G st' /\ lex3 (measure G st') (measure G st) /\
  (queue_reachable G s st -> queue_reachable G s st').
Proof.
  intros Hsafe Hperm Hstep.
  assert (e ∈ queue st) as Hin by (rewrite Hperm; left).
  pose proof (safe_with_queue st e q Hsafe Hperm) as Hsafe1.
  destruct Hstep as [Hskip|nbrs st' Hexp Hadj Hrelax].
  - split; [done|]. split.
    + eapply lex3_pop_not_above; [done | apply not_above_refl].
    + intros Hq e' He'. apply Hq. rewrite Hperm. by right.
  - set (st1 := with_explored (with_queue st q) (curnode e) (parent e)) in *.
    assert (safe G st1) as Hsafe2.
    { apply safe_with_explored; [done|]. simpl.
      intros e' He'. exact (popped_rest_has_parent st e q e' Hsafe Hperm He'). }
    assert (is_Some (explored st1 !! curnode e)) as Hcur.
    { simpl. rewrite lookup_insert_eq. eauto. }
    pose proof (safe_dist _ _ Hsafe e Hin) as Hd.
    split_and!.
    + refine (proj1 (relax_all_inv'
        (fun x => safe G x /\ is_Some (explored x !! curnode e))
        _ _ _ _ _ _ _ Hrelax)); [|done].
      intros st2 m w st3 Hmw HI Hr.
      by apply (relax_step_safe _ _ _ _ _ _ _ Hadj Hmw Hd Hr).
    + eapply lex3_pop_not_above; [done|].
      refine (proj2 (relax_all_inv'
        (fun x => (safe G x /\ is_Some (explored x !! curnode e)) /\
                  not_above G x (with_queue st q))
        _ _ _ _ _ _ _ Hrelax)).
      * intros st2 m w st3 Hmw [HI Hna] Hr.
        destruct (relax_step_safe _ _ _ _ _ _ _ Hadj Hmw Hd Hr HI) as [HI' Hna'].
        split; [done|]. by eapply not_above_trans.
      * split; [done|]. right. right. done.
    + intros Hq.
      refine (relax_all_inv' (queue_reachable G s) _ _ _ _ _ _ _ Hrelax).
      * intros st2 m w st3 Hmw HI Hr.
        eapply relax_step_reachable; [done | done | | done | done].
        by apply Hq.
      * intros e' He'. apply Hq. rewrite Hperm. by right.
Qed.


(** * The search: the loop as a whole *)


Lemma measure_induction (P : search_state -> Prop) :
  (forall st, (forall st', lex3 (measure G st') (measure G st) -> P st') -> P st) ->
  forall st, P st.
Proof.
  intros Hstep.
  cut (forall x y z st, measure G st = (x, y, z) -> P st).
  { intros H st. destruct (measure G st) as [[x y] z] eqn:Hm. by eapply H. }
  induction x as [x IHx] using lt_wf_ind.
  induction y as [y IHy] using lt_wf_ind.
  induction z as [z IHz] using lt_wf_ind.
  intros st Hm. apply Hstep. intros st' Hlex.
  destruct (measure G st') as [[x' y'] z'] eqn:Hm'. rewrite Hm in Hlex.
  simpl in Hlex. destruct Hlex as [Hx|[[-> Hy]|(-> & -> & Hz)]].
  - by eapply IHx.
  - by eapply IHy.
  - by eapply IHz.
Qed.

(** The loop runs to its end.  [I] is an invariant of the turns that do
    not pop the target, [R] what is to hold of the result. *)
Lemma loop_runs (I : search_state -> Prop)
    (R : result (list string) -> Prop) :
  (forall st, I st -> safe G st) ->
  (forall st e q st', I st -> queue st ≡ₚ e :: q -> curnode e ≠ t ->
     Heapq.heappop entry_lt (queue st) = Ret (e, q) ->
     loop_step G h t st e q st' -> I st') ->
  (forall st, I st -> queue st = [] -> R (Raise NetworkXNoPath)) ->
  (forall st e q, I st -> queue st ≡ₚ e :: q -> curnode e = t ->
     Heapq.heappop entry_lt (queue st) = Ret (e, q) ->
     exists n path, R (Ret (reverse path)) /\
       forall fuel, (n <= fuel)%nat ->
         Astar.reconstruct fuel (explored st) (parent e) [curnode e]
         = Ret path) ->
  forall st, I st ->
  exists n r, R r /\
    forall fuel, (n <= fuel)%nat -> Astar.loop G h t fuel st = r.
Proof.
  intros Hsafe Hkeep Hempty Htarget st. 
  induction st as [st IH] using measure_induction. intros HI.
  destruct (queue st) as [|e0 q0] eqn:Hq.
  { exists 0%nat, (Raise NetworkXNoPath). split; [by eapply Hempty|].
    intros fuel _. destruct fuel; simpl; by rewrite Hq. }
  assert (queue st ≠ []) as Hne by (by rewrite Hq).
  pose proof (fun fuel => iteration_spec fuel st (Hsafe _ HI) Hne) as Hit.
  destruct (Hit 0%nat) as (e & q & Hpop & Hperm & _).
  destruct (decide (curnode e = t)) as [Ht|Ht].
  - destruct (Htarget st e q HI Hperm Ht Hpop) as (n & path & HR & Hrec).
    exists (S n), (Ret (reverse path)). split; [done|].
    intros [|fuel] Hfuel; [lia|]. simpl. rewrite Hq.
    destruct (Hit fuel) as (e' & q' & Hpop' & _ & Hiter & _).
    assert (e' = e) as -> by congruence.
    rewrite (Hiter Ht), Hrec by lia. done.
  - destruct (Hit 0%nat) as (e' & q' & Hpop' & _ & _ & Hiter).
    assert (e' = e) as -> by congruence.
    assert (q' = q) as -> by congruence.
    destruct (Hiter Ht) as (st' & Hit0 & Hstep).
    assert (lex3 (measure G st') (measure G st)) as Hlex.
    { eapply loop_step_safe; eauto. }
    destruct (IH st' Hlex) as (n & r & HR & Hloop).
    { by eapply Hkeep. }
    exists (S n), r. split; [done|].
    intros [|fuel] Hfuel; [lia|]. simpl. rewrite Hq.
    destruct (Hit fuel) as (e' & q' & Hpop'' & _ & _ & Hiter').
    assert (e' = e) as -> by congruence.
    assert (q' = q) as -> by congruence.
    destruct (Hiter' Ht) as (st'' & Hiter'' & Hstep'').
    rewrite Hiter''. simpl.
    assert (st'' = st') as ->.
    { clear -Hiter'' Hit0 Ht Hpop.
      unfold Astar.iteration in *. rewrite Hpop in *. simpl in *.
      rewrite bool_decide_eq_false_2 in * by done.
      congruence. }
    apply Hloop. lia.
Qed.


(** * Endpoints that are missing or not connected *)


Lemma safe_initial_state :
  is_Some (nodes G !! s) -> safe G (Astar.initial s).
Proof.
  intros Hs. split; simpl.
  - intros e ->%list_elem_of_singleton. done.
  - intros e ->%list_elem_of_singleton. done.
  - intros n qc hh. by rewrite lookup_empty.
  - intros e ->%list_elem_of_singleton [? ?]. done.
  - intros e ->%list_elem_of_singleton _. done.
Qed.





(** * The search: the parent links lead back to the source *)


Implicit Types (D : string -> Z) (K : string -> nat).

Lemma fupd_eq {V} (f : string -> V) n v : fupd f n v n = v.
Proof. unfold fupd. by rewrite decide_True. Qed.

Lemma fupd_ne {V} (f : string -> V) n v x : x ≠ n -> fupd f n v x = f x.
Proof. intros H. unfold fupd. by rewrite decide_False. Qed.

Lemma chain_with_queue st e q D K :
  chain G s st D K -> queue st ≡ₚ e :: q -> chain G s (with_queue st q) D K.
Proof.
  intros Hc Hperm.
  assert (forall e', e' ∈ q -> e' ∈ queue st) as Hsub.
  { intros e' He'. rewrite Hperm. by right. }
  split; simpl; try apply Hc.
  - intros e' He'. by apply Hc, Hsub.
  - intros e' p He'. by apply Hc, Hsub.
  - intros e' p He'. by apply (ch_fresh _ _ _ _ _ Hc), Hsub.
  - pose proof (ch_counts _ _ _ _ _ Hc) as Hnd. rewrite Hperm in Hnd.
    rewrite fmap_cons in Hnd. by apply NoDup_cons in Hnd as [_ ?].
  - intros e' He'. by apply (ch_count_lt _ _ _ _ _ Hc), Hsub.
  - intros e1 e2 H1 H2. by apply (ch_distinct _ _ _ _ _ Hc); apply Hsub.
  - intros e' He'. by apply (ch_qcost _ _ _ _ _ Hc), Hsub.
Qed.

(** An item of the rest of the queue differs from the popped one by its
    counter. *)
Lemma popped_count st e q D K e' :
  chain G s st D K -> queue st ≡ₚ e :: q -> e' ∈ q -> count e' ≠ count e.
Proof.
  intros Hc Hperm He'.
  pose proof (ch_counts _ _ _ _ _ Hc) as Hnd. rewrite Hperm in Hnd.
  rewrite fmap_cons in Hnd. apply NoDup_cons in Hnd as [Hnotin _].
  intros Heq. apply Hnotin. rewrite <- Heq. apply list_elem_of_fmap.
  by exists e'.
Qed.

(** Expanding a station again happens at a strictly smaller cost. *)
Lemma expanded_again_lt st e D K p :
  chain G s st D K -> e ∈ queue st -> expanded st e ->
  explored st !! curnode e = Some (Some p) ->
  dist e < D (curnode e).
Proof.
  intros Hc Hin [Hnone|(p' & qc & hh & Hexp & Henq & Hle)] Hp; [congruence|].
  destruct (ch_enq _ _ _ _ _ Hc _ _ Hp) as (qc' & hh' & Henq' & Hle').
  pose proof (ch_fresh _ _ _ _ _ Hc e p Hin Hp).
  assert (qc' = qc) by congruence. lia.
Qed.

Lemma chain_expand st e q D K :
  chain G s st D K -> safe G st -> queue st ≡ₚ e :: q -> expanded st e ->
  chain G s (with_explored (with_queue st q) (curnode e) (parent e))
    (fupd D (curnode e) (dist e)) (fupd K (curnode e) (count e)).
Proof.
  intros Hc Hsafe Hperm Hexp.
  assert (e ∈ queue st) as Hin by (rewrite Hperm; left).
  assert (forall e', e' ∈ q -> e' ∈ queue st) as Hsub.
  { intros e' He'. rewrite Hperm. by right. }
  pose proof (chain_with_queue st e q D K Hc Hperm) as Hc1.
  assert (is_Some (explored st !! curnode e) -> dist e < D (curnode e))
    as Hstrict.
  { intros [[p0|] Hp0].
    - exact (expanded_again_lt st e D K p0 Hc Hin Hexp Hp0).
    - destruct Hexp as [?|(? & ? & ? & ? & _)]; congruence. }
  set (n := curnode e) in *.
  assert (is_Some (explored st !! s) \/ (parent e = None /\ n = s)) as Hroot.
  { destruct (parent e) as [p|] eqn:Hp.
    - left. destruct (ch_entry _ _ _ _ _ Hc e p Hin Hp) as [Hpexp _].
      by eapply ch_started.
    - right. split; [done|]. by destruct (ch_initial _ _ _ _ _ Hc e Hin Hp). }
  split; simpl.
  - intros x. destruct (decide (n = x)) as [<-|Hne].
    + rewrite lookup_insert_eq. intros [= Hp].
      by destruct (ch_initial _ _ _ _ _ Hc e Hin Hp).
    + rewrite lookup_insert_ne by done. apply Hc.
  - intros x. destruct (decide (n = s)) as [Hns|Hns].
    + rewrite Hns, lookup_insert_eq. intros [= <-].
      destruct (parent e) as [p|] eqn:Hp; [|done].
      destruct (ch_entry _ _ _ _ _ Hc e p Hin Hp) as [Hpexp _].
      destruct (ch_started _ _ _ _ _ Hc p Hpexp) as [y Hy].
      pose proof (ch_source_root _ _ _ _ _ Hc y Hy) as ->.
      destruct Hexp as [Hnone|(? & ? & ? & Hsome & _)];
        fold n in Hnone || fold n in Hsome; congruence.
    + rewrite lookup_insert_ne by done. apply Hc.
  - intros x _. destruct (decide (n = s)) as [Hns|Hns].
    + rewrite Hns, lookup_insert_eq. eauto.
    + rewrite lookup_insert_ne by done.
      destruct Hroot as [?|[_ ?]]; done.
  - intros x p. destruct (decide (n = x)) as [<-|Hne].
    + rewrite lookup_insert_eq. intros [= Hp].
      destruct (ch_entry _ _ _ _ _ Hc e p Hin Hp)
        as (Hpexp & d & Hd & Hle & HK).
      pose proof (Hnonneg _ _ _ Hd) as Hw.
      assert (p ≠ n) as Hpn.
      { intros ->. specialize (Hstrict Hpexp). fold n in Hle. lia. }
      split; [by rewrite lookup_insert_ne|].
      exists d. split; [done|]. rewrite !fupd_eq, !fupd_ne by done.
      split; [done|]. intros Heq. apply HK. lia.
    + rewrite lookup_insert_ne by done. intros Hx.
      destruct (ch_parent _ _ _ _ _ Hc x p Hx)
        as (Hpexp & d & Hd & Hle & HK).
      pose proof (Hnonneg _ _ _ Hd) as Hw.
      split.
      { destruct (decide (n = p)) as [<-|?];
          [rewrite lookup_insert_eq; eauto | by rewrite lookup_insert_ne]. }
      exists d. split; [done|].
      rewrite (fupd_ne D n _ x), (fupd_ne K n _ x) by done.
      destruct (decide (p = n)) as [->|Hpn].
      * specialize (Hstrict Hpexp). rewrite !fupd_eq. split; lia.
      * by rewrite !fupd_ne.
  - intros e' He'. by apply Hc, Hsub.
  - intros e' p He' Hp.
    destruct (ch_entry _ _ _ _ _ Hc e' p (Hsub _ He') Hp)
      as (Hpexp & d & Hd & Hle & HK).
    split.
    { destruct (decide (n = p)) as [<-|?];
        [rewrite lookup_insert_eq; eauto | by rewrite lookup_insert_ne]. }
    exists d. split; [done|].
    destruct (decide (p = n)) as [->|Hpn].
    + specialize (Hstrict Hpexp). rewrite !fupd_eq. split; lia.
    + by rewrite !fupd_ne.
  - intros x p. destruct (decide (n = x)) as [<-|Hne].
    + rewrite lookup_insert_eq. intros [= Hp]. rewrite fupd_eq.
      apply (ch_qcost _ _ _ _ _ Hc e Hin). rewrite Hp. eauto.
    + rewrite lookup_insert_ne by done. rewrite fupd_ne by done. apply Hc.
  - intros e' p He'. destruct (decide (n = curnode e')) as [Heq|Hne].
    + rewrite <- Heq, lookup_insert_eq, fupd_eq. intros _ Hd.
      eapply (popped_count st e q D K e'); try done.
      by apply (ch_distinct _ _ _ _ _ Hc); [apply Hsub | | |].
    + rewrite lookup_insert_ne by done. rewrite fupd_ne by done.
      by apply (ch_fresh _ _ _ _ _ Hc), Hsub.
  - apply Hc1.
  - apply Hc1.
  - apply Hc1.
  - apply Hc1.
  - intros x. destruct (decide (n = x)) as [<-|Hne].
    + intros _. rewrite fupd_eq. by apply Hsafe.
    + rewrite lookup_insert_ne by done. rewrite fupd_ne by done. apply Hc.
  - intros x. destruct (decide (n = x)) as [<-|Hne].
    + intros _. rewrite fupd_eq. by apply Hc.
    + rewrite lookup_insert_ne by done. rewrite fupd_ne by done. apply Hc.
Qed.

Lemma chain_push st D K m w hh cur :
  chain G s st D K -> safe G st ->
  is_Some (explored st !! cur) -> (K cur < c st)%nat ->
  edge G cur m = Some w ->
  (enqueued st !! m = None \/
   exists qc hh', enqueued st !! m = Some (qc, hh') /\
     D cur + Nx.weight_function w < qc) ->
  chain G s (Astar.push_neighbor st m (D cur + Nx.weight_function w) hh cur)
    D K.
Proof.
  intros Hc Hsafe Hcur HK He Hcond.
  set (ncost := D cur + Nx.weight_function w) in *.
  assert (forall e, e ∈ queue st -> is_Some (parent e)) as Hpar.
  { intros e Hin. destruct (parent e) eqn:Hp; [eauto|].
    destruct (safe_initial _ _ Hsafe e Hin Hp) as [Hemp _].
    rewrite Hemp, lookup_empty in Hcur. by destruct Hcur. }
  assert (forall e, e ∈ queue st -> curnode e = m -> ncost < dist e) as Hold.
  { intros e Hin Hm.
    destruct (ch_qcost _ _ _ _ _ Hc e Hin (Hpar e Hin))
      as (qc & hh' & Henq & Hle).
    rewrite Hm in Henq.
    destruct Hcond as [Hnone|(qc' & hh'' & Henq' & Hlt)]; [congruence|].
    assert (qc' = qc) by congruence. lia. }
  assert (forall p, explored st !! m = Some (Some p) -> ncost < D m) as Hexpl.
  { intros p Hp.
    destruct (ch_enq _ _ _ _ _ Hc m p Hp) as (qc & hh' & Henq & Hle).
    destruct Hcond as [Hnone|(qc' & hh'' & Henq' & Hlt)]; [congruence|].
    assert (qc' = qc) by congruence. lia. }
  split; simpl; try apply Hc.
  - intros e [->|Hin]%elem_of_heappush; [done | by apply Hc].
  - intros e p [->|Hin]%elem_of_heappush; [|by apply Hc].
    simpl. intros [= <-]. split; [done|]. exists w. split; [done|].
    split; [done|]. intros _. done.
  - intros x p Hx. destruct (decide (m = x)) as [<-|Hne].
    + rewrite lookup_insert_eq. eexists _, _. split; [done|].
      specialize (Hexpl p Hx). lia.
    + rewrite lookup_insert_ne by done. by eapply Hc.
  - intros e p [->|Hin]%elem_of_heappush; simpl.
    + intros Hp. specialize (Hexpl p Hp). lia.
    + by apply (ch_fresh _ _ _ _ _ Hc).
  - rewrite heappush_perm, fmap_cons. simpl. apply NoDup_cons.
    split; [|apply Hc].
    intros (e & Heq & Hin)%list_elem_of_fmap.
    pose proof (ch_count_lt _ _ _ _ _ Hc e Hin). lia.
  - intros e [->|Hin]%elem_of_heappush; simpl; [lia|].
    pose proof (ch_count_lt _ _ _ _ _ Hc e Hin). lia.
  - intros e1 e2 [->|H1]%elem_of_heappush [->|H2]%elem_of_heappush; simpl.
    + done.
    + intros Hm Hd. specialize (Hold e2 H2 (eq_sym Hm)). lia.
    + intros Hm Hd. specialize (Hold e1 H1 Hm). lia.
    + by apply (ch_distinct _ _ _ _ _ Hc).
  - intros e [->|Hin]%elem_of_heappush _; simpl.
    + rewrite lookup_insert_eq. eexists _, _. split; [done|]. lia.
    + destruct (decide (m = curnode e)) as [Hm|Hne].
      * rewrite <- Hm, lookup_insert_eq. eexists _, _. split; [done|].
        specialize (Hold e Hin (eq_sym Hm)). lia.
      * rewrite lookup_insert_ne by done.
        by apply (ch_qcost _ _ _ _ _ Hc), Hpar.
  - intros n Hn. pose proof (ch_K_lt _ _ _ _ _ Hc n Hn). lia.
Qed.

Lemma loop_step_chain st e q st' D K :
  safe G st -> chain G s st D K -> queue st ≡ₚ e :: q ->
  loop_step G h t st e q st' ->
  exists D' K', chain G s st' D' K'.
Proof.
  intros Hsafe Hc Hperm Hstep.
  assert (e ∈ queue st) as Hin by (rewrite Hperm; left).
  destruct Hstep as [Hskip|nbrs st' Hexp Hadj Hrelax].
  - exists D, K. by eapply chain_with_queue.
  - set (D' := fupd D (curnode e) (dist e)).
    set (K' := fupd K (curnode e) (count e)).
    exists D', K'.
    set (st1 := with_explored (with_queue st q) (curnode e) (parent e)) in *.
    pose proof (chain_expand st e q D K Hc Hsafe Hperm Hexp) as Hc1.
    fold st1 D' K' in Hc1.
    assert (safe G st1) as Hsafe1.
    { apply safe_with_explored; [by eapply safe_with_queue|]. simpl.
      intros e' He'. exact (popped_rest_has_parent st e q e' Hsafe Hperm He'). }
    pose proof (safe_dist _ _ Hsafe e Hin) as Hd.
    refine (proj1 (relax_all_inv'
      (fun x => chain G s x D' K' /\
                (safe G x /\ is_Some (explored x !! curnode e)) /\
                (K' (curnode e) < c x)%nat)
      _ _ _ _ _ _ _ Hrelax)).
    + intros st2 m w st3 Hmw (Hc2 & HI & HK) Hr.
      destruct (relax_step_safe _ _ _ _ _ _ _ Hadj Hmw Hd Hr HI) as [HI' _].
      pose proof (successor_edge _ _ _ _ Hadj Hmw) as He.
      assert (D' (curnode e) = dist e) as HD by apply fupd_eq.
      destruct HI as [Hsafe2 Hcur2].
      destruct Hr as [qc hh Henq Hle|qc hh Henq Hlt|hh Henq Hhh].
      * done.
      * split; [|split; [done | simpl; lia]].
        rewrite <- HD. apply chain_push; try done.
        right. exists qc, hh. split; [done|]. by rewrite HD.
      * split; [|split; [done | simpl; lia]].
        rewrite <- HD. apply chain_push; try done. by left.
    + split; [done|]. split.
      * split; [done|]. simpl. rewrite lookup_insert_eq. eauto.
      * unfold K'. rewrite fupd_eq. simpl.
        by apply (ch_count_lt _ _ _ _ _ Hc).
Qed.


(** *** Reconstructing the path *)

Lemma itinerary_snoc p u v w c d :
  itinerary G p u v c -> edge G v w = Some d ->
  itinerary G (p ++ [w]) u w (c + Nx.weight_function d).
Proof.
  intros Hp He. induction Hp as [u|u x d' rest v c He' Hp IH]; simpl.
  - replace (0 + Nx.weight_function d) with (Nx.weight_function d + 0) by lia.
    eapply itinerary_cons; [done | constructor].
  - replace (Nx.weight_function d' + c + Nx.weight_function d)
      with (Nx.weight_function d' + (c + Nx.weight_function d)) by lia.
    eapply itinerary_cons; [done | by apply IH].
Qed.

Lemma itinerary_walk p u v c : itinerary G p u v c -> walk G u v c.
Proof.
  induction 1 as [u|u x d rest v c He Hp IH]; [constructor|].
  by eapply walk_cons.
Qed.

Lemma path_weight_cons u v rest :
  Nx_astar.path_weight G (u :: v :: rest) =
  (data ← Nx.get_edge G u v;
   total ← Nx_astar.path_weight G (v :: rest);
   Ret (Nx.weight_function data + total)).
Proof. done. Qed.

Lemma itinerary_path_weight p u v c :
  itinerary G p u v c -> Nx_astar.path_weight G p = Ret c.
Proof.
  induction 1 as [u|u x d rest v c He Hp IH]; [done|].
  rewrite path_weight_cons, get_edge_edge, He, IH. done.
Qed.


Lemma reconstruct_back_chain expl n l cost :
  back_chain G expl n l cost ->
  forall fuel acc, (length l <= fuel)%nat ->
    Astar.reconstruct fuel expl (Some n) acc = Ret (acc ++ l).
Proof.
  induction 1 as [n Hn|n p l cost d Hn He Hbc IH]; intros fuel acc Hfuel;
    simpl in Hfuel.
  - destruct fuel as [|fuel]; [lia|]. simpl. rewrite Hn. simpl.
    by destruct fuel.
  - destruct fuel as [|fuel]; [lia|]. simpl. rewrite Hn. simpl.
    rewrite IH by lia. by rewrite <- app_assoc.
Qed.

Lemma back_chain_itinerary st D K n l cost :
  chain G s st D K -> back_chain G (explored st) n l cost ->
  itinerary G (reverse l) s n cost.
Proof.
  intros Hc. induction 1 as [n Hn|n p l cost d Hn He Hbc IH].
  - rewrite (ch_source _ _ _ _ _ Hc n Hn). constructor.
  - rewrite reverse_cons. by eapply itinerary_snoc.
Qed.

Lemma back_chain_exists st D K n :
  chain G s st D K -> is_Some (explored st !! n) ->
  exists l cost, back_chain G (explored st) n l cost /\ cost <= D n.
Proof.
  intros Hc.
  remember (Z.to_nat (D n) * c st + K n)%nat as r eqn:Hr.
  revert n Hr. induction r as [r IH] using lt_wf_ind. intros n -> Hn.
  pose proof (ch_D_nonneg _ _ _ _ _ Hc n Hn) as HDn.
  destruct Hn as [[p|] Hn].
  - destruct (ch_parent _ _ _ _ _ Hc n p Hn) as (Hp & d & He & Hle & HK).
    pose proof (Hnonneg _ _ _ He) as Hw.
    pose proof (ch_D_nonneg _ _ _ _ _ Hc p Hp) as HDp.
    pose proof (ch_K_lt _ _ _ _ _ Hc p Hp) as HKp.
    destruct (IH (Z.to_nat (D p) * c st + K p)%nat) with (n := p)
      as (l & cost & Hbc & Hcost); [|done|done|].
    + destruct (decide (D p = D n)) as [Heq|Hne].
      * rewrite Heq. specialize (HK Heq). lia.
      * assert (Z.to_nat (D p) < Z.to_nat (D n))%nat by lia. nia.
    + exists (n :: l), (cost + Nx.weight_function d).
      split; [by eapply bc_step | lia].
  - exists [n], 0. split; [by constructor | done].
Qed.

(** When the target is popped, following the parent links gives a path
    from the source, no heavier than the cost of the popped item. *)
Lemma reconstruct_target st D K e :
  chain G s st D K -> e ∈ queue st -> curnode e = t ->
  exists n path cost,
    itinerary G (reverse path) s t cost /\ cost <= dist e /\
    forall fuel, (n <= fuel)%nat ->
      Astar.reconstruct fuel (explored st) (parent e) [curnode e] = Ret path.
Proof.
  intros Hc Hin Ht. destruct (parent e) as [p|] eqn:Hp.
  - destruct (ch_entry _ _ _ _ _ Hc e p Hin Hp) as (Hpexp & d & He & Hle & _).
    destruct (back_chain_exists st D K p Hc Hpexp) as (l & cost & Hbc & Hcost).
    exists (length l), ([curnode e] ++ l), (cost + Nx.weight_function d).
    split_and!.
    + simpl. rewrite reverse_cons, Ht. eapply itinerary_snoc.
      * by eapply back_chain_itinerary.
      * by rewrite <- Ht.
    + lia.
    + intros fuel Hfuel. by apply reconstruct_back_chain with (cost := cost).
  - destruct (ch_initial _ _ _ _ _ Hc e Hin Hp) as [Hs Hd].
    exists 0%nat, [curnode e], 0. split_and!.
    + rewrite Ht. rewrite <- Hs, Ht. constructor.
    + lia.
    + intros fuel _. by destruct fuel.
Qed.

(** *** The frontier *)

Lemma gval_source st : gval s st s = Some 0.
Proof. unfold gval. by rewrite decide_True. Qed.

Lemma gval_other st n : n ≠ s -> gval s st n = fst <$> enqueued st !! n.
Proof. intros H. unfold gval. by rewrite decide_False. Qed.

Lemma gval_mono_refl st : gval_mono s st st.
Proof. intros y g Hg. exists g. split; [done | lia]. Qed.

Lemma gval_mono_trans st1 st2 st3 :
  gval_mono s st1 st2 -> gval_mono s st2 st3 -> gval_mono s st1 st3.
Proof.
  intros H12 H23 y g Hg. destruct (H12 y g Hg) as (g' & Hg' & Hle).
  destruct (H23 y g' Hg') as (g'' & Hg'' & Hle'). exists g''. split; [done|lia].
Qed.

Lemma relaxed_mono st st' n g :
  gval_mono s st st' -> relaxed G s st n g -> relaxed G s st' n g.
Proof.
  intros Hmono Hrel m d He. destruct (Hrel m d He) as (gm & Hgm & Hle).
  destruct (Hmono m gm Hgm) as (g' & Hg' & Hle'). exists g'. split; [done|lia].
Qed.

Lemma pending_mono st st' n g :
  (forall e, e ∈ queue st -> e ∈ queue st') ->
  pending st n g -> pending st' n g.
Proof. intros Hsub (e & Hin & Hn & Hd). exists e. auto. Qed.

Lemma gval_relax_step cur d st m w st' :
  0 <= d -> 0 <= Nx.weight_function w ->
  relax_step h t cur d st m w st' ->
  gval_mono s st st' /\
  exists gm, gval s st' m = Some gm /\ gm <= d + Nx.weight_function w.
Proof.
  intros Hd Hw Hstep.
  destruct Hstep as [qc hh Henq Hle|qc hh Henq Hlt|hh Henq Hhh].
  - split; [apply gval_mono_refl|].
    destruct (decide (m = s)) as [->|Hms].
    + exists 0. rewrite gval_source. split; [done|lia].
    + exists qc. rewrite gval_other, Henq by done. done.
  - split.
    + intros y g. destruct (decide (y = s)) as [->|Hys].
      * rewrite !gval_source. intros [= <-]. exists 0. done.
      * rewrite !gval_other by done. simpl.
        destruct (decide (m = y)) as [->|Hmy].
        -- rewrite lookup_insert_eq, Henq. simpl. intros [= <-].
           eexists. split; [done|lia].
        -- rewrite lookup_insert_ne by done. intros Hg. exists g.
           split; [done|lia].
    + destruct (decide (m = s)) as [->|Hms].
      * exists 0. rewrite gval_source. split; [done|lia].
      * eexists. rewrite gval_other by done. simpl.
        rewrite lookup_insert_eq. simpl. split; [done|lia].
  - split.
    + intros y g. destruct (decide (y = s)) as [->|Hys].
      * rewrite !gval_source. intros [= <-]. exists 0. done.
      * rewrite !gval_other by done. simpl.
        destruct (decide (m = y)) as [->|Hmy].
        -- by rewrite Henq.
        -- rewrite lookup_insert_ne by done. intros Hg. exists g.
           split; [done|lia].
    + destruct (decide (m = s)) as [->|Hms].
      * exists 0. rewrite gval_source. split; [done|lia].
      * eexists. rewrite gval_other by done. simpl.
        rewrite lookup_insert_eq. simpl. split; [done|lia].
Qed.

Lemma gval_relax_all cur d nbrs :
  0 <= d -> (forall m w, (m, w) ∈ nbrs -> 0 <= Nx.weight_function w) ->
  forall st st', Astar.relax_all h t cur d st nbrs = Ret st' ->
  gval_mono s st st' /\
  forall m w, (m, w) ∈ nbrs ->
    exists gm, gval s st' m = Some gm /\ gm <= d + Nx.weight_function w.
Proof.
  intros Hd. induction nbrs as [|[m w] nbrs IH]; intros Hws st st'; simpl.
  - intros [= <-]. split; [apply gval_mono_refl|].
    intros m w Hin. by apply elem_of_nil in Hin.
  - destruct (relax_spec cur d st m w) as (st1 & Hst1 & Hstep).
    rewrite Hst1. simpl. intros Hrest.
    destruct (gval_relax_step cur d st m w st1 Hd) as [Hmono1 (gm & Hgm & Hle)];
      [apply (Hws m w); left | done |].
    destruct (IH (fun m' w' Hin => Hws m' w' (list_elem_of_further _ _ _ Hin))
                st1 st' Hrest) as [Hmono2 Hrel].
    split; [by eapply gval_mono_trans|].
    intros m' w' [[= -> ->]|Hin]%elem_of_cons; [|by apply Hrel].
    destruct (Hmono2 m gm Hgm) as (g' & Hg' & Hle'). exists g'.
    split; [done | lia].
Qed.

Lemma relax_keeps_step cur d st1 st m w st' :
  walk G s cur d -> edge G cur m = Some w ->
  relax_step h t cur d st m w st' ->
  relax_keeps G h s t st1 st -> relax_keeps G h s t st1 st'.
Proof.
  intros Hcur He Hstep Hk.
  assert (forall hh, h m t = Ret hh ->
    relax_keeps G h s t st1
      (Astar.push_neighbor st m (d + Nx.weight_function w) hh cur)) as Hpush.
  { intros hh Hhh. split; simpl.
    - intros e He'. apply elem_of_heappush. right. by apply Hk.
    - intros y qc hh'. destruct (decide (m = y)) as [->|Hmy].
      + rewrite lookup_insert_eq. intros [= <- <-]. right.
        eexists. split; [apply elem_of_heappush; by left|]. done.
      + rewrite lookup_insert_ne by done. intros Hy.
        destruct (rk_enqueued _ _ _ _ _ _ Hk y qc hh' Hy) as [?|Hp]; [by left|].
        right. eapply pending_mono; [|done].
        intros e' He'. apply elem_of_heappush. by right.
    - apply Hk.
    - intros e [->|Hin]%elem_of_heappush; simpl; [|by apply Hk].
      by eapply walk_snoc.
    - intros n qc hh'. destruct (decide (m = n)) as [->|Hmn].
      + rewrite lookup_insert_eq. by intros [= <- <-].
      + rewrite lookup_insert_ne by done. apply Hk.
    - intros e p [->|Hin]%elem_of_heappush; simpl; [|by apply Hk].
      intros _. by exists hh.
    - intros e [->|Hin]%elem_of_heappush; simpl; [done|by apply Hk]. }
  destruct Hstep as [qc hh Henq Hle|qc hh Henq Hlt|hh Henq Hhh].
  - done.
  - apply Hpush. by eapply (rk_h _ _ _ _ _ _ Hk).
  - by apply Hpush.
Qed.

Lemma edge_successor n nbrs m d :
  adj G !! n = Some nbrs -> edge G n m = Some d -> (m, d) ∈ nbrs.
Proof.
  intros Hadj He. unfold edge in He. rewrite Hadj in He. simpl in He.
  by apply dict_get_Some_elem.
Qed.

Lemma loop_step_frontier st e q st' D K :
  safe G st -> chain G s st D K -> frontier G h s t st ->
  queue st ≡ₚ e :: q -> curnode e ≠ t ->
  loop_step G h t st e q st' ->
  frontier G h s t st'.
Proof.
  intros Hsafe Hc Hf Hperm Ht Hstep.
  assert (e ∈ queue st) as Hin by (rewrite Hperm; left).
  assert (forall e', e' ∈ q -> e' ∈ queue st) as Hsub.
  { intros e' He'. rewrite Hperm. by right. }
  assert (forall e0, e0 ∈ queue st -> e0 = e \/ e0 ∈ q) as Hsplit.
  { intros e0 He0. rewrite Hperm in He0. by apply elem_of_cons in He0. }
  destruct Hstep as [Hskip|nbrs st' Hexp Hadj Hrelax].
  - split; simpl.
    + pose proof (fr_source _ _ _ _ _ Hf) as Hsrc.
      destruct (explored st !! s) as [x|] eqn:Hs; [done|].
      destruct Hsrc as (e0 & He0 & Hn0 & Hd0).
      destruct (Hsplit e0 He0) as [->|Hq]; [|by exists e0].
      destruct Hskip as [Hx|(p & qc & hh & Hx & _)]; congruence.
    + intros n qc hh Henq Hns.
      destruct (fr_enq _ _ _ _ _ Hf n qc hh Henq Hns)
        as [(e0 & He0 & Hn0 & Hd0)|Hrel]; [|by right].
      destruct (Hsplit e0 He0) as [->|Hq]; [|left; by exists e0].
      destruct Hskip as [Hx|(p & qc' & hh' & Hx & Henq' & Hlt)].
      * destruct Hns. rewrite <- Hn0. by apply (ch_source _ _ _ _ _ Hc).
      * rewrite Hn0 in Henq'. assert (qc' = qc) by congruence. lia.
    + intros e' He'. by apply Hf, Hsub.
    + apply Hf.
    + intros e' p He'. by apply Hf, Hsub.
    + intros e' He'. by apply Hf, Hsub.
  - set (n := curnode e) in *.
    set (st1 := with_explored (with_queue st q) n (parent e)) in *.
    pose proof (safe_dist _ _ Hsafe e Hin) as Hd.
    pose proof (fr_walk _ _ _ _ _ Hf e Hin) as Hwalk.
    assert (relax_keeps G h s t st1 st') as Hk.
    { refine (relax_all_inv' (relax_keeps G h s t st1) _ _ _ _ _ _ _ Hrelax).
      - intros st2 m w st3 Hmw Hk Hr.
        eapply relax_keeps_step; [exact Hwalk | | exact Hr | exact Hk].
        by eapply successor_edge.
      - split; simpl; try done.
        + by left.
        + intros e' He'. by apply Hf, Hsub.
        + apply Hf.
        + intros e' p He'. by apply Hf, Hsub.
        + intros e' He'. by apply Hf, Hsub. }
    destruct (gval_relax_all n (dist e) nbrs Hd) with (st := st1) (st' := st')
      as [Hmono Hnb]; [|done|].
    { intros m w Hmw. eapply Hnonneg. by eapply successor_edge. }
    assert (relaxed G s st' n (dist e)) as Hreln.
    { intros m d He. apply Hnb. by eapply edge_successor. }
    split.
    + rewrite (rk_explored _ _ _ _ _ _ Hk). simpl.
      destruct (decide (n = s)) as [Hns|Hns].
      * rewrite Hns, lookup_insert_eq. split; [congruence|].
        assert (explored st !! s = None) as Hnone.
        { destruct Hexp as [Hx|(p & ? & ? & Hx & _)];
            fold n in Hx; rewrite Hns in Hx; [done|].
          by pose proof (ch_source_root _ _ _ _ _ Hc _ Hx). }
        assert (dist e = 0) as Hd0.
        { destruct (parent e) as [p|] eqn:Hp.
          - destruct (ch_entry _ _ _ _ _ Hc e p Hin Hp) as [Hpexp _].
            destruct (ch_started _ _ _ _ _ Hc p Hpexp) as [? ?]. congruence.
          - by destruct (ch_initial _ _ _ _ _ Hc e Hin Hp). }
        rewrite Hd0 in Hreln. clear -Hreln Hns.
        generalize dependent n. by intros ? ? ->.
      * rewrite lookup_insert_ne by done.
        pose proof (fr_source _ _ _ _ _ Hf) as Hsrc.
        destruct (explored st !! s) as [x|] eqn:Hs.
        -- destruct Hsrc as [? Hrel]. split; [done|].
           by eapply relaxed_mono.
        -- destruct Hsrc as (e0 & He0 & Hn0 & Hd0).
           destruct (Hsplit e0 He0) as [->|Hq]; [done|].
           exists e0. split; [|done]. by apply (rk_queue _ _ _ _ _ _ Hk).
    + intros x qc hh Henq Hxs.
      destruct (rk_enqueued _ _ _ _ _ _ Hk x qc hh Henq) as [Hold|Hp];
        [|by left].
      simpl in Hold.
      destruct (fr_enq _ _ _ _ _ Hf x qc hh Hold Hxs)
        as [(e0 & He0 & Hn0 & Hd0)|[Hxt Hrel]].
      * destruct (Hsplit e0 He0) as [->|Hq].
        -- right. fold n in Hn0. rewrite <- Hn0, <- Hd0. done.
        -- left. exists e0. split; [|done]. by apply (rk_queue _ _ _ _ _ _ Hk).
      * right. split; [done|]. by eapply relaxed_mono.
    + apply Hk.
    + apply Hk.
    + apply Hk.
    + apply Hk.
Qed.

(** On every way from a known station to the target, some station has an
    item waiting in the queue at a cost no higher than the way suggests. *)
Lemma frontier_pending st n b :
  frontier G h s t st -> walk G n t b ->
  forall g, gval s st n = Some g ->
  exists e b', e ∈ queue st /\ walk G (curnode e) t b' /\
    dist e + b' <= g + b.
Proof.
  intros Hf Hw. induction Hw as [n|n m t' d b He Hw IH]; intros g Hg.
  - assert (pending st n g) as (e & Hin & Hn & Hd).
    { pose proof (fr_source _ _ _ _ _ Hf) as Hsrc.
      destruct (decide (n = s)) as [->|Hns].
      - rewrite gval_source in Hg. injection Hg as <-.
        destruct (explored st !! s); [by destruct Hsrc | done].
      - rewrite gval_other in Hg by done.
        destruct (enqueued st !! n) as [[qc hh]|] eqn:Henq; [|done].
        injection Hg as <-.
        destruct (fr_enq _ _ _ _ _ Hf n qc hh Henq Hns) as [?|[? _]]; done. }
    exists e, 0. split; [done|]. split; [rewrite Hn; constructor | lia].
  - assert (pending st n g \/ relaxed G s st n g) as [(e & Hin & Hn & Hd)|Hrel].
    { pose proof (fr_source _ _ _ _ _ Hf) as Hsrc.
      destruct (decide (n = s)) as [->|Hns].
      - rewrite gval_source in Hg. injection Hg as <-.
        destruct (explored st !! s); [right; by destruct Hsrc | by left].
      - rewrite gval_other in Hg by done.
        destruct (enqueued st !! n) as [[qc hh]|] eqn:Henq; [|done].
        injection Hg as <-.
        destruct (fr_enq _ _ _ _ _ Hf n qc hh Henq Hns) as [?|[_ ?]]; auto. }
    + exists e, (Nx.weight_function d + b). split; [done|].
      split; [rewrite Hn; by eapply walk_cons | lia].
    + destruct (Hrel m d He) as (gm & Hgm & Hle).
      destruct (IH Hh Hf gm Hgm) as (e & b' & Hin & Hwe & Hle').
      exists e, b'. split; [done|]. split; [done | lia].
Qed.

(** *** A path is found whenever there is one *)

Lemma chain_initial_state :
  chain G s (Astar.initial s) (fun _ => 0) (fun _ => 0%nat).
Proof.
  split; simpl.
  - intros n. by rewrite lookup_empty.
  - intros x. by rewrite lookup_empty.
  - intros n. rewrite lookup_empty. by intros [? ?].
  - intros n p. by rewrite lookup_empty.
  - intros e ->%list_elem_of_singleton. done.
  - intros e p ->%list_elem_of_singleton. done.
  - intros n p. by rewrite lookup_empty.
  - intros e p _. by rewrite lookup_empty.
  - apply NoDup_singleton.
  - intros e ->%list_elem_of_singleton. simpl. lia.
  - intros e1 e2 ->%list_elem_of_singleton ->%list_elem_of_singleton. done.
  - intros e ->%list_elem_of_singleton [? ?]. done.
  - intros n. rewrite lookup_empty. by intros [? ?].
  - intros n. rewrite lookup_empty. by intros [? ?].
Qed.

Lemma frontier_initial_state : frontier G h s t (Astar.initial s).
Proof.
  split; simpl.
  - rewrite lookup_empty. eexists. split; [by apply list_elem_of_singleton|].
    done.
  - intros n qc hh. by rewrite lookup_empty.
  - intros e ->%list_elem_of_singleton. constructor.
  - intros n qc hh. by rewrite lookup_empty.
  - intros e p ->%list_elem_of_singleton. done.
  - intros e ->%list_elem_of_singleton. done.
Qed.

Lemma search_inv_initial :
  is_Some (nodes G !! s) -> search_inv G h s t (Astar.initial s).
Proof.
  intros Hs. split; [by apply safe_initial_state|]. split.
  - eexists _, _. apply chain_initial_state.
  - apply frontier_initial_state.
Qed.

Lemma search_inv_step st e q st' :
  search_inv G h s t st -> queue st ≡ₚ e :: q -> curnode e ≠ t ->
  loop_step G h t st e q st' -> search_inv G h s t st'.
Proof.
  intros (Hsafe & (D & K & Hc) & Hf) Hperm Ht Hstep. split_and!.
  - by destruct (loop_step_safe st e q st' Hsafe Hperm Hstep).
  - by eapply loop_step_chain.
  - by eapply loop_step_frontier.
Qed.



(** *** The path found is a shortest one when the estimate is admissible *)

Lemma walk_nonneg u v b : walk G u v b -> 0 <= b.
Proof.
  induction 1 as [|u v w d b He _ IH]; [done|].
  pose proof (Hnonneg _ _ _ He). lia.
Qed.

Lemma heap_inv_initial : heap_inv (Astar.initial s).
Proof.
  split_and!; simpl.
  - intros j x y Hj _ Hy. destruct j; [lia | done].
  - apply Forall_singleton. by eexists.
  - intros n qc hh. by rewrite lookup_empty.
Qed.

Lemma heap_inv_push st m ncost r cur :
  heap_inv st -> heap_inv (Astar.push_neighbor st m ncost (PyNum r) cur).
Proof.
  intros (Hord & Hnum & Henq).
  set (x := {| priority := (of_int ncost + PyNum r)%fl; count := c st;
               curnode := m; dist := ncost; parent := Some cur |}).
  assert (numeric x) as Hx by (by eexists).
  split_and!; simpl.
  - apply heappush_ordered with (P := numeric); try done.
    + intros a b. apply entry_lt_asym.
    + intros a b d. apply entry_above_trans.
  - eapply Permutation_Forall; [symmetry; apply heappush_perm|].
    by apply Forall_cons.
  - intros n qc hh. destruct (decide (m = n)) as [->|Hmn].
    + rewrite lookup_insert_eq. intros [= <- <-]. by eexists.
    + rewrite lookup_insert_ne by done. apply Henq.
Qed.

Lemma heap_inv_pop st e q :
  heap_inv st -> Heapq.heappop entry_lt (queue st) = Ret (e, q) ->
  heap_inv (with_queue st q) /\
  forall e', e' ∈ queue st -> above entry_lt e e'.
Proof.
  intros (Hord & Hnum & Henq) Hpop.
  destruct (heappop_ordered entry_lt numeric entry_lt_asym entry_above_trans
              (queue st) e q Hord Hnum Hpop) as (Hroot & Hq & Hnq).
  split; [done|].
  apply root_minimal with (P := numeric); try done.
  - intros a b. apply entry_lt_asym.
  - intros a b d. apply entry_above_trans.
Qed.

Lemma relax_step_heap cur d st m w st' :
  (forall n, exists r, h n t = Ret (PyNum r)) ->
  relax_step h t cur d st m w st' -> heap_inv st -> heap_inv st'.
Proof.
  intros Hnum Hstep Hheap.
  destruct Hstep as [qc hh Henq Hle|qc hh Henq Hlt|hh Henq Hhh].
  - done.
  - destruct Hheap as (? & ? & He). destruct (He _ _ _ Henq) as [r ->].
    by apply heap_inv_push.
  - destruct (Hnum m) as [r Hr]. rewrite Hr in Hhh. injection Hhh as <-.
    by apply heap_inv_push.
Qed.

Lemma loop_step_heap st e q st' :
  (forall n, exists r, h n t = Ret (PyNum r)) ->
  heap_inv st -> Heapq.heappop entry_lt (queue st) = Ret (e, q) ->
  loop_step G h t st e q st' -> heap_inv st'.
Proof.
  intros Hnum Hheap Hpop Hstep.
  destruct (heap_inv_pop st e q Hheap Hpop) as [Hq _].
  destruct Hstep as [Hskip|nbrs st' Hexp Hadj Hrelax]; [done|].
  refine (relax_all_inv' heap_inv _ _ _ _ _ _ _ Hrelax).
  - intros st2 m w st3 _ HI Hr. by eapply relax_step_heap.
  - exact Hq.
Qed.

(** When the target is popped, no way from the source to the target is
    cheaper than the cost of the popped item. *)
Lemma popped_target_least st e q b :
  (forall n b, walk G n t b ->
     exists r, h n t = Ret (PyNum r) /\ (r <= IZR b)%R) ->
  (forall r, h t t = Ret (PyNum r) -> (0 <= r)%R) ->
  search_inv G h s t st -> heap_inv st ->
  Heapq.heappop entry_lt (queue st) = Ret (e, q) -> queue st ≡ₚ e :: q ->
  curnode e = t -> walk G s t b -> dist e <= b.
Proof.
  intros Hadm Htt (Hsafe & (D & K & Hc) & Hf) Hheap Hpop Hperm Ht Hw.
  assert (e ∈ queue st) as Hin by (rewrite Hperm; left).
  pose proof (walk_nonneg _ _ _ Hw) as Hb.
  destruct (parent e) as [p|] eqn:Hp.
  2:{ destruct (ch_initial _ _ _ _ _ Hc e Hin Hp) as [_ ->]. done. }
  destruct (fr_priority _ _ _ _ _ Hf e p Hin Hp) as (hh & Hhh & Hprio).
  rewrite Ht in Hhh.
  destruct (Hadm t 0 (walk_nil _ _)) as (r0 & Hr0 & _).
  rewrite Hr0 in Hhh. injection Hhh as <-.
  pose proof (Htt _ Hr0) as Hr0pos.
  destruct (frontier_pending st s b Hf Hw 0 (gval_source st))
    as (e' & b' & Hin' & Hw' & Hle).
  destruct (heap_inv_pop st e q Hheap Hpop) as [_ Hleast].
  pose proof (Hleast e' Hin') as Habove.
  pose proof (walk_nonneg _ _ _ Hw') as Hb'.
  apply IZR_le in Hle. rewrite !plus_IZR in Hle.
  apply le_IZR.
  destruct (parent e') as [p'|] eqn:Hp'.
  - destruct (fr_priority _ _ _ _ _ Hf e' p' Hin' Hp') as (hh' & Hhh' & Hprio').
    destruct (Hadm _ _ Hw') as (r' & Hr' & Hle').
    rewrite Hr' in Hhh'. injection Hhh' as <-.
    pose proof (entry_above_priority e e' (IZR (dist e) + r0)
                  (IZR (dist e') + r') Hprio Hprio' Habove).
    lra.
  - pose proof (fr_priority_initial _ _ _ _ _ Hf e' Hin' Hp') as Hprio'.
    destruct (ch_initial _ _ _ _ _ Hc e' Hin' Hp') as [_ Hd'].
    pose proof (entry_above_priority e e' (IZR (dist e) + r0) (IZR 0)
                  Hprio Hprio' Habove).
    apply IZR_le in Hb'. rewrite Hd' in Hle. lra.
Qed.

Lemma loop_finds_shortest :
  (forall n, exists r, h n t = Ret (PyNum r)) ->
  (forall n b, walk G n t b ->
     exists r, h n t = Ret (PyNum r) /\ (r <= IZR b)%R) ->
  (forall r, h t t = Ret (PyNum r) -> (0 <= r)%R) ->
  is_Some (nodes G !! s) -> reachable G s t ->
  exists n path cost, itinerary G path s t cost /\
    shortest_cost G s t cost /\
    forall fuel, (n <= fuel)%nat ->
      Astar.loop G h t fuel (Astar.initial s) = Ret path.
Proof.
  intros Hnum Hadm Htt Hs [b0 Hw].
  destruct (loop_runs (fun x => search_inv G h s t x /\ heap_inv x)
              (fun r => exists path cost,
                 r = Ret path /\ itinerary G path s t cost /\
                 forall b, walk G s t b -> cost <= b))
    with (st := Astar.initial s)
    as (n & r & (path & cost & -> & Hit & Hleast) & Hloop).
  - by intros st [[? _] _].
  - intros st e q st' [Hinv Hheap] Hperm Ht Hpop Hstep. split.
    + by eapply search_inv_step.
    + by eapply loop_step_heap.
  - intros st [(_ & _ & Hf) _] Hq.
    destruct (frontier_pending st s b0 Hf Hw 0 (gval_source st))
      as (e & _ & Hin & _).
    rewrite Hq in Hin. by apply elem_of_nil in Hin.
  - intros st e q [Hinv Hheap] Hperm Ht Hpop.
    pose proof (fun b => popped_target_least st e q b Hadm Htt Hinv Hheap Hpop
                  Hperm Ht) as Hle.
    destruct Hinv as (_ & (D & K & Hc) & _).
    destruct (reconstruct_target st D K e Hc)
      as (n & path & cost & Hit & Hle' & Hrec); [rewrite Hperm; left | done |].
    exists n, path. split; [|done]. exists (reverse path), cost.
    split; [done|]. split; [done|].
    intros b Hb. specialize (Hle b Hb). lia.
  - split; [by apply search_inv_initial | apply heap_inv_initial].
  - exists n, path, cost. split; [done|]. split; [|done].
    split; [by eapply itinerary_walk | done].
Qed.

Lemma astar_path_length_shortest :
  (forall n, exists r, h n t = Ret (PyNum r)) ->
  (forall n b, walk G n t b ->
     exists r, h n t = Ret (PyNum r) /\ (r <= IZR b)%R) ->
  (forall r, h t t = Ret (PyNum r) -> (0 <= r)%R) ->
  Nx.has_node G s = true -> Nx.has_node G t = true ->
  reachable G s t ->
  exists n cost, shortest_cost G s t cost /\
    forall fuel, (n <= fuel)%nat ->
      Nx_astar.astar_path_length fuel G s t h = Ret cost.
Proof.
  intros Hnum Hadm Htt Hs Ht Hreach.
  destruct loop_finds_shortest as (n & path & cost & Hit & Hshort & Hloop);
    [done | done | done | by apply has_node_true | done |].
  exists n, cost. split; [done|]. intros fuel Hfuel.
  assert (Nx_astar.astar_path fuel G s t h = Ret path) as Hpath.
  { unfold Nx_astar.astar_path. rewrite Hs, Ht. simpl. by apply Hloop. }
  unfold Nx_astar.astar_path_length. rewrite Hs, Ht, Hpath. simpl.
  by eapply itinerary_path_weight.
Qed.

(** *** The search always ends, and its path visits no station twice *)








Lemma loop_always_ends :
  is_Some (nodes G !! s) ->
  exists n r,
    (r = Raise NetworkXNoPath \/
     exists path cost, r = Ret path /\ itinerary G path s t cost) /\
    forall fuel, (n <= fuel)%nat ->
      Astar.loop G h t fuel (Astar.initial s) = r.
Proof.
  intros Hs.
  apply (loop_runs (fun x => safe G x /\ exists D K, chain G s x D K)).
  - by intros st [? _].
  - intros st e q st' [Hsafe (D & K & Hc)] Hperm Ht _ Hstep. split.
    + by destruct (loop_step_safe st e q st' Hsafe Hperm Hstep).
    + by eapply loop_step_chain.
  - intros st _ _. by left.
  - intros st e q [_ (D & K & Hc)] Hperm Ht _.
    destruct (reconstruct_target st D K e Hc)
      as (n & path & cost & Hit & _ & Hrec); [rewrite Hperm; left | done |].
    exists n, path. split; [|done]. right. by exists (reverse path), cost.
  - split; [by apply safe_initial_state|].
    eexists _, _. apply chain_initial_state.
Qed.

Lemma astar_always_ends :
  Nx.has_node G s = true -> Nx.has_node G t = true ->
  exists n,
    (forall fuel, (n <= fuel)%nat ->
       Nx_astar.astar_path fuel G s t h = Raise NetworkXNoPath /\
       Nx_astar.astar_path_length fuel G s t h = Raise NetworkXNoPath) \/
    (exists path cost, itinerary G path s t cost /\
       forall fuel, (n <= fuel)%nat ->
         Nx_astar.astar_path fuel G s t h = Ret path /\
         Nx_astar.astar_path_length fuel G s t h = Ret cost).
Proof.
  intros Hs Ht.
  destruct loop_always_ends as (n & r & Hr & Hloop);
    [by apply has_node_true|].
  exists n.
  assert (forall fuel, (n <= fuel)%nat ->
            Nx_astar.astar_path fuel G s t h = r) as Hpath.
  { intros fuel Hfuel. unfold Nx_astar.astar_path. rewrite Hs, Ht. simpl.
    by apply Hloop. }
  destruct Hr as [->|(path & cost & -> & Hit)].
  - left. intros fuel Hfuel. split; [by apply Hpath|].
    unfold Nx_astar.astar_path_length. by rewrite Hs, Ht, Hpath.
  - right. exists path, cost. split; [done|]. intros fuel Hfuel.
    split; [by apply Hpath|].
    unfold Nx_astar.astar_path_length. rewrite Hs, Ht, Hpath by done. simpl.
    by eapply itinerary_path_weight.
Qed.

(** A search from a station to itself returns at the first turn. *)
Lemma astar_same_endpoint fuel :
  Nx.has_node G s = true ->
  Nx_astar.astar_path (S fuel) G s s h = Ret [s] /\
  Nx_astar.astar_path_length (S fuel) G s s h = Ret 0.
Proof.
  intros Hs.
  assert (Nx_astar.astar_path (S fuel) G s s h = Ret [s]) as Hpath.
  { unfold Nx_astar.astar_path. rewrite Hs. simpl.
    unfold Astar.iteration. simpl.
    rewrite bool_decide_eq_true_2 by done. by destruct fuel. }
  split; [done|].
  unfold Nx_astar.astar_path_length. by rewrite Hs, Hpath.
Qed.

End search.

(** * Claims about the prediction *)


Section endpoint_claims.

(** C8.  When the origin or the destination is not a node of the graph,
    the prediction prints the node error and stops: neither search
    function is called. *)
Theorem missing_endpoint_not_searched fuel G names s t :
  Nx.has_node G s = false \/ Nx.has_node G t = false ->
  predict fuel G names s t =
    ([Print (Calculating (default s (names !! s)) (default t (names !! t)));
      Print NodeNotFoundError], Ret tt) /\
  forall ev, ev ∈ (predict fuel G names s t).1 ->
    ev ≠ CallAstarPath s t /\ ev ≠ CallAstarPathLength s t.
Proof.
  intros Hmissing.
  assert (Nx.has_node G s && Nx.has_node G t = false) as Hb.
  { destruct Hmissing as [-> | ->]; [done | by rewrite andb_false_r]. }
  assert (predict fuel G names s t =
    ([Print (Calculating (default s (names !! s)) (default t (names !! t)));
      Print NodeNotFoundError], Ret tt)) as Heq.
  { unfold predict. rewrite Hb. reflexivity. }
  split; [done|]. rewrite Heq. simpl.
  intros ev Hev. repeat apply elem_of_cons in Hev as [->|Hev]; try done.
  by apply elem_of_nil in Hev.
Qed.

(** Scenario D. *)
Lemma missing_endpoint_not_searched_witness :
  predict 100 scenario_B_graph (stop_name_map scenario_stops) "X" "A" =
    ([Print (Calculating "X" "A"); Print NodeNotFoundError], Ret tt) /\
  forall ev,
    ev ∈ (predict 100 scenario_B_graph (stop_name_map scenario_stops)
            "X" "A").1 ->
    ev ≠ CallAstarPath "X" "A" /\ ev ≠ CallAstarPathLength "X" "A".
Proof.
  apply (missing_endpoint_not_searched 100 scenario_B_graph
           (stop_name_map scenario_stops) "X" "A").
  left. vm_compute. reflexivity.
Defined.




End endpoint_claims.

Section path_claims.




Lemma scenario_A_built :
  build_network scenario_stops scenario_trips [] = Ret scenario_A_graph.
Proof. vm_compute. reflexivity. Qed.

Lemma scenario_trips_nonneg row : row ∈ scenario_trips -> 0 <= trip_weight row.
Proof.
  intros Hrow. repeat apply elem_of_cons in Hrow as [->|Hrow]; try done.
  by apply elem_of_nil in Hrow.
Qed.

Lemma scenario_A_walk : walk scenario_A_graph "A" "C" 300.
Proof.
  apply (walk_cons scenario_A_graph "A" "B" "C"
           {| weight := Some 100; type := Some travel; route := Some "1" |} 200);
    [vm_compute; reflexivity|].
  apply (walk_cons scenario_A_graph "B" "C" "C"
           {| weight := Some 200; type := Some travel; route := Some "1" |} 0);
    [vm_compute; reflexivity|].
  constructor.
Qed.




End path_claims.

(** * The total of the search against the cost of a shortest path *)

Section optimality_claims.

Lemma shortest_cost_unique G s t c1 c2 :
  shortest_cost G s t c1 -> shortest_cost G s t c2 -> c1 = c2.
Proof.
  intros [Hw1 Hle1] [Hw2 Hle2].
  pose proof (Hle1 _ Hw2). pose proof (Hle2 _ Hw1). lia.
Qed.

(** Uniform-cost search returns the cost of a shortest path. *)
Lemma dijkstra_path_length_shortest G s t :
  wf_graph G -> nonneg_weights G -> edge_unique G ->
  Nx.has_node G s = true -> Nx.has_node G t = true -> reachable G s t ->
  exists n cost, shortest_cost G s t cost /\
    forall fuel, (n <= fuel)%nat -> dijkstra_path_length fuel G s t = Ret cost.
Proof.
  intros Hwf Hnonneg Huniq Hs Ht Hreach.
  apply (astar_path_length_shortest G (fun _ _ => Ret (of_int 0)) s t);
    try done.
  - intros m. by eexists.
  - intros m. by eexists.
  - intros m b Hw. exists 0%R. split; [done|].
    apply IZR_le. by eapply walk_nonneg.
  - intros r [= <-]. apply Rle_refl.
Qed.

(** C1, as the code has it.  In a built network whose durations are not
    negative, for two nodes joined by a sequence of edges, the total the
    search returns is the least total weight of a sequence of edges from
    the origin to the destination, which is also what uniform-cost search
    returns, provided the estimate towards the destination is a number for
    every station and never exceeds the cost of a way to the
    destination. *)
Theorem astar_total_is_shortest_when_admissible
    stops_df trip_edges_df transfers G s t :
  build_network stops_df trip_edges_df transfers = Ret G ->
  (forall row, row ∈ trip_edges_df -> 0 <= trip_weight row) ->
  Nx.has_node G s = true -> Nx.has_node G t = true ->
  reachable G s t ->
  (forall n, exists r, heuristic G n t = Ret (PyNum r)) ->
  (forall n, admissible_at G n t) ->
  exists n total_seconds,
    shortest_cost G s t total_seconds /\
    forall fuel, (n <= fuel)%nat ->
      Nx_astar.astar_path_length fuel G s t (heuristic G)
      = Ret total_seconds /\
      dijkstra_path_length fuel G s t = Ret total_seconds.
Proof.
  intros Hb Hrows Hs Ht Hreach Hnum Hadm.
  pose proof (build_network_wf _ _ _ _ Hb) as Hwf.
  pose proof (build_network_nonneg _ _ _ _ Hb Hrows) as Hnonneg.
  pose proof (build_network_edge_unique _ _ _ _ Hb) as Huniq.
  destruct (astar_path_length_shortest G (heuristic G) s t)
    as (n1 & c1 & Hc1 & Hrun1); try done.
  { intros m. apply heuristic_total. }
  { intros r Hr. apply heuristic_self in Hr as ->. apply Rle_refl. }
  destruct (dijkstra_path_length_shortest G s t)
    as (n2 & c2 & Hc2 & Hrun2); try done.
  assert (c2 = c1) as -> by (by eapply shortest_cost_unique).
  exists (n1 `max` n2)%nat, c1. split; [done|].
  intros fuel Hfuel. split; [apply Hrun1 | apply Hrun2]; lia.
Qed.

(** In scenario A every estimate towards C is 0: the three stations are
    in one place, and any other identifier is not in the network. *)
Lemma scenario_A_estimate n :
  heuristic scenario_A_graph n "C" = Ret (PyNum 0).
Proof.
  assert (forall m, m ∈ ["A"; "B"; "C"] -> has_coords scenario_A_graph m 0 0)
    as Hc.
  { intros m Hm. repeat apply elem_of_cons in Hm as [->|Hm];
      [..|by apply elem_of_nil in Hm];
      eexists; split; vm_compute; reflexivity. }
  destruct (decide (n ∈ ["A"; "B"; "C"])) as [Hn|Hn].
  - rewrite (heuristic_num scenario_A_graph n "C" 0 0 0 0).
    + by rewrite great_circle_distance_same, Rdiv_0_l.
    + by apply Hc.
    + apply Hc. set_solver.
  - apply (heuristic_missing scenario_A_graph n "C"). left.
    assert (nodes scenario_A_graph =
            <["A" := {| name := Some "A";
                        coords := Some {| stop_lat := of_int 0;
                                          stop_lon := of_int 0 |} |}]>
            (<["B" := {| name := Some "B";
                         coords := Some {| stop_lat := of_int 0;
                                           stop_lon := of_int 0 |} |}]>
            (<["C" := {| name := Some "C";
                         coords := Some {| stop_lat := of_int 0;
                                           stop_lon := of_int 0 |} |}]> ∅)))
      as -> by (vm_compute; reflexivity).
    rewrite !lookup_insert_ne, lookup_empty by set_solver. done.
Qed.

(** Scenario A: the search and uniform-cost search both return the cost
    of a shortest path. *)
Lemma astar_total_is_shortest_when_admissible_witness :
  exists n total_seconds,
    shortest_cost scenario_A_graph "A" "C" total_seconds /\
    forall fuel, (n <= fuel)%nat ->
      Nx_astar.astar_path_length fuel scenario_A_graph "A" "C"
        (heuristic scenario_A_graph) = Ret total_seconds /\
      dijkstra_path_length fuel scenario_A_graph "A" "C" = Ret total_seconds.
Proof.
  apply (astar_total_is_shortest_when_admissible scenario_stops scenario_trips
           [] scenario_A_graph "A" "C").
  - apply scenario_A_built.
  - apply scenario_trips_nonneg.
  - vm_compute. reflexivity.
  - vm_compute. reflexivity.
  - exists 300. apply scenario_A_walk.
  - intros n. exists 0%R. apply scenario_A_estimate.
  - intros n b Hw. exists 0%R. split; [apply scenario_A_estimate|].
    apply IZR_le.
    apply (walk_nonneg scenario_A_graph
             (build_network_nonneg _ _ _ _ scenario_A_built
                scenario_trips_nonneg) _ _ _ Hw).
Defined.

Lemma detour_built :
  build_network detour_stops detour_trips [] = Ret detour_graph.
Proof. vm_compute. reflexivity. Qed.

Lemma detour_trips_nonneg row : row ∈ detour_trips -> 0 <= trip_weight row.
Proof.
  intros Hrow. repeat apply elem_of_cons in Hrow as [->|Hrow]; try done.
  by apply elem_of_nil in Hrow.
Qed.

Lemma detour_edges u v d :
  edge detour_graph u v = Some d ->
  (u = "S" /\ v = "T" /\ Nx.weight_function d = 10) \/
  (u = "S" /\ v = "M" /\ Nx.weight_function d = 1) \/
  (u = "M" /\ v = "T" /\ Nx.weight_function d = 1).
Proof.
  intros He.
  destruct (build_network_edge_inv _ _ _ _ _ _ _ detour_built He)
    as [(row & Hrow & Hp & ->)|(te & Hte & _)].
  - repeat apply elem_of_cons in Hrow as [->|Hrow];
      [..|by apply elem_of_nil in Hrow];
      injection Hp as <- <-; auto.
  - by apply elem_of_nil in Hte.
Qed.

Lemma detour_shortest : shortest_cost detour_graph "S" "T" 2.
Proof.
  pose proof (build_network_nonneg _ _ _ _ detour_built detour_trips_nonneg)
    as Hnonneg.
  split.
  - apply (walk_cons detour_graph "S" "M" "T"
             {| weight := Some 1; type := Some travel; route := Some "2" |} 1);
      [vm_compute; reflexivity|].
    apply (walk_cons detour_graph "M" "T" "T"
             {| weight := Some 1; type := Some travel; route := Some "2" |} 0);
      [vm_compute; reflexivity|].
    constructor.
  - intros c' Hw. inversion Hw as [|u v t' d c1 He Hw1]; subst.
    destruct (detour_edges _ _ _ He)
      as [(_ & -> & Hd)|[(_ & -> & Hd)|(? & _)]]; [| |done].
    + pose proof (walk_nonneg _ Hnonneg _ _ _ Hw1). lia.
    + inversion Hw1 as [|u v t' d' c2 He' Hw2]; subst.
      destruct (detour_edges _ _ _ He')
        as [(? & _)|[(? & _)|(_ & -> & Hd')]]; [done|done|].
      pose proof (walk_nonneg _ Hnonneg _ _ _ Hw2). lia.
Qed.

Lemma detour_estimates :
  heuristic detour_graph "T" "T" = Ret (PyNum 0) /\
  heuristic detour_graph "M" "T" = Ret (PyNum (637100 * PI)).
Proof.
  assert (has_coords detour_graph "M" 0 0) as HM
    by (eexists; split; vm_compute; reflexivity).
  assert (has_coords detour_graph "T" 0 180) as HT
    by (eexists; split; vm_compute; reflexivity).
  split.
  - by eapply heuristic_same.
  - rewrite (heuristic_num detour_graph "M" "T" 0 0 0 180) by done.
    rewrite great_circle_distance_antipodal. do 2 f_equal. lra.
Qed.

(** The run of the search on the detour: the origin is expanded, the
    destination is pushed with priority 10 and the neighbouring station
    with a priority above 637101, and the destination is popped next. *)
Lemma detour_astar_path fuel :
  Nx_astar.astar_path (S (S (S fuel))) detour_graph "S" "T"
    (heuristic detour_graph) = Ret ["S"; "T"].
Proof.
  destruct detour_estimates as [HT HM].
  assert (adj detour_graph !! "S" =
          Some [("T", {| weight := Some 10; type := Some travel;
                         route := Some "1" |});
                ("M", {| weight := Some 1; type := Some travel;
                         route := Some "2" |})]) as HadjS
    by (vm_compute; reflexivity).
  assert (forall c1 n1 d1 p1 c2 n2 d2 p2,
    entry_lt {| priority := PyNum (IZR 1 + 637100 * PI); count := c1;
                curnode := n1; dist := d1; parent := p1 |}
             {| priority := PyNum (IZR 10 + 0); count := c2;
                curnode := n2; dist := d2; parent := p2 |} = false) as Hlt.
  { intros. unfold entry_lt. cbn. pose proof PI2_1.
    rewrite Reqb_false, Rltb_false by lra. done. }
  unfold Nx_astar.astar_path.
  replace (Nx.has_node detour_graph "S") with true by (vm_compute; reflexivity).
  replace (Nx.has_node detour_graph "T") with true by (vm_compute; reflexivity).
  cbn.
  rewrite bool_decide_eq_false_2 by done.
  rewrite lookup_empty. cbn. rewrite HadjS. cbn.
  unfold Astar.relax. cbn. rewrite lookup_empty, HT. cbn.
  rewrite lookup_insert_ne, lookup_empty by done. rewrite HM. cbn.
  rewrite !Z.add_0_l.
  rewrite bool_decide_eq_true_2 by lia.
  rewrite Hlt.
  unfold Astar.iteration. cbn. rewrite ?Z.add_0_l.
  rewrite bool_decide_eq_true_2 by lia. rewrite Hlt. cbn.
  rewrite bool_decide_eq_true_2 by done.
  rewrite lookup_insert_eq. cbn.
  by destruct fuel.
Qed.

(** C1 as stated fails.  The network is built, both stations are nodes,
    the destination is reached in 2 seconds through M, which is what
    uniform-cost search returns, and the search returns 10: the estimate
    from M, above 637100 seconds, keeps M in the queue until the
    destination has been popped. *)
Lemma detour_total_is_not_shortest :
  build_network detour_stops detour_trips [] = Ret detour_graph /\
  Nx.has_node detour_graph "S" = true /\
  Nx.has_node detour_graph "T" = true /\
  shortest_cost detour_graph "S" "T" 2 /\
  (exists n, forall fuel, (n <= fuel)%nat ->
     dijkstra_path_length fuel detour_graph "S" "T" = Ret 2) /\
  (forall fuel, (3 <= fuel)%nat ->
     Nx_astar.astar_path_length fuel detour_graph "S" "T"
       (heuristic detour_graph) = Ret 10).
Proof.
  split_and!.
  - apply detour_built.
  - vm_compute. reflexivity.
  - vm_compute. reflexivity.
  - apply detour_shortest.
  - destruct (dijkstra_path_length_shortest detour_graph "S" "T")
      as (n & cost & Hcost & Hrun).
    + eapply build_network_wf, detour_built.
    + eapply build_network_nonneg; [apply detour_built|].
      apply detour_trips_nonneg.
    + eapply build_network_edge_unique, detour_built.
    + vm_compute. reflexivity.
    + vm_compute. reflexivity.
    + exists 2. apply detour_shortest.
    + exists n. intros fuel Hfuel.
      rewrite (shortest_cost_unique _ _ _ _ _ detour_shortest Hcost).
      by apply Hrun.
  - intros fuel Hfuel. destruct fuel as [|[|[|fuel]]]; [lia..|].
    unfold Nx_astar.astar_path_length.
    replace (Nx.has_node detour_graph "S") with true
      by (vm_compute; reflexivity).
    replace (Nx.has_node detour_graph "T") with true
      by (vm_compute; reflexivity).
    cbn [negb]. rewrite detour_astar_path.
    vm_compute. reflexivity.
Qed.

End optimality_claims.

(** * Further properties of the distance and of the estimate *)

Section heuristic_properties.
Local Open Scope R_scope.

Lemma hav_opp x : hav (- x) = hav x.
Proof.
  unfold hav. replace (- x / 2) with (- (x / 2)) by lra.
  rewrite sin_neg. unfold Rsqr. ring.
Qed.

Lemma great_circle_distance_sym r lat1 lon1 lat2 lon2 :
  great_circle_distance r lat1 lon1 lat2 lon2 =
  great_circle_distance r lat2 lon2 lat1 lon1.
Proof.
  unfold great_circle_distance.
  replace ((lat1 - lat2) * PI / 180) with (- ((lat2 - lat1) * PI / 180))
    by lra.
  replace ((lon1 - lon2) * PI / 180) with (- ((lon2 - lon1) * PI / 180))
    by lra.
  rewrite !hav_opp. do 3 f_equal. ring.
Qed.

Lemma asin_nonneg x : 0 <= x <= 1 -> 0 <= asin x.
Proof.
  intros [H0 H1]. destruct (Rle_dec 0 (asin x)) as [?|Hneg]; [done|].
  pose proof (asin_bound x) as [Hlo _]. pose proof PI_RGT_0.
  assert (sin (asin x) < 0) as Hs by (apply sin_lt_0_var; lra).
  rewrite sin_asin in Hs by lra. lra.
Qed.

Lemma great_circle_distance_range r lat1 lon1 lat2 lon2 :
  0 <= r -> 0 <= great_circle_distance r lat1 lon1 lat2 lon2 <= r * PI.
Proof.
  intros Hr. unfold great_circle_distance.
  set (a := hav _ + _).
  assert (0 <= a <= 1) as [Ha0 Ha1].
  { unfold a.
    replace ((lat2 - lat1) * PI / 180)
      with (lat2 * PI / 180 - lat1 * PI / 180) by (unfold Rdiv; ring).
    apply haversine_argument_range. }
  assert (0 <= sqrt a <= 1) as Hs.
  { split; [apply sqrt_pos|]. rewrite <- sqrt_1. by apply sqrt_le_1_alt. }
  pose proof (asin_nonneg _ Hs). pose proof (asin_bound (sqrt a)) as [_ ?].
  split; nra.
Qed.

Lemma haversine_symmetric_aux lat1 lon1 lat2 lon2 :
  haversine lat1 lon1 lat2 lon2 = haversine lat2 lon2 lat1 lon1.
Proof.
  destruct lat1 as [a1|], lon1 as [b1|], lat2 as [a2|], lon2 as [b2|];
    try reflexivity.
  rewrite !haversine_num. do 2 f_equal. apply great_circle_distance_sym.
Qed.

(** X1.  The distance does not depend on the direction: swapping the two
    points gives the same result, NaN included. *)
Theorem haversine_symmetric lat1 lon1 lat2 lon2 :
  haversine lat1 lon1 lat2 lon2 = haversine lat2 lon2 lat1 lon1.
Proof. apply haversine_symmetric_aux. Qed.

(** X3.  The distance from a point to itself is 0. *)
Theorem haversine_same_point lat lon :
  haversine (PyNum lat) (PyNum lon) (PyNum lat) (PyNum lon) = Ret (PyNum 0).
Proof. by rewrite haversine_num, great_circle_distance_same. Qed.

(** X4.  Every [KeyError] of the lookups is caught: when one of the two
    identifiers is not a node of the network, or is a node without the
    [coords] attribute, the estimate is 0. *)
Theorem heuristic_zero_on_key_error G u v :
  nodes G !! u = None \/ nodes G !! v = None \/
  (exists a, nodes G !! u = Some a /\ coords a = None) \/
  (exists a, nodes G !! v = Some a /\ coords a = None) ->
  heuristic G u v = Ret (PyNum 0).
Proof. apply heuristic_missing. Qed.

Lemma heuristic_zero_on_key_error_witness :
  heuristic unlisted_graph "A" "X" = Ret (PyNum 0).
Proof.
  apply (heuristic_zero_on_key_error unlisted_graph "A" "X").
  right. right. right.
  exists {| name := None; coords := None |}. split; vm_compute; reflexivity.
Defined.

Lemma heuristic_with_coords G u v a b cu cv :
  nodes G !! u = Some a -> coords a = Some cu ->
  nodes G !! v = Some b -> coords b = Some cv ->
  heuristic G u v =
  (d ← haversine (stop_lat cu) (stop_lon cu) (stop_lat cv) (stop_lon cv);
   Ret (d / of_int Config.SUBWAY_SPEED_MPS)%fl).
Proof.
  intros Hu Hcu Hv Hcv. unfold heuristic. rewrite Hu, Hv. simpl.
  rewrite Hcu, Hcv. simpl.
  by destruct (haversine_total (stop_lat cu) (stop_lon cu) (stop_lat cv)
                 (stop_lon cv)) as [d ->].
Qed.

(** The three ways the estimate comes about. *)
Lemma heuristic_cases G u v :
  (heuristic G u v = Ret (PyNum 0) /\
   (nodes G !! u = None \/ nodes G !! v = None \/
    (exists a, nodes G !! u = Some a /\ coords a = None) \/
    (exists a, nodes G !! v = Some a /\ coords a = None))) \/
  (exists a b cu cv,
     nodes G !! u = Some a /\ coords a = Some cu /\
     nodes G !! v = Some b /\ coords b = Some cv /\
     heuristic G u v =
     (d ← haversine (stop_lat cu) (stop_lon cu) (stop_lat cv) (stop_lon cv);
      Ret (d / of_int Config.SUBWAY_SPEED_MPS)%fl)).
Proof.
  destruct (nodes G !! u) as [a|] eqn:Hu.
  2:{ left. split; [apply heuristic_missing|]; auto. }
  destruct (nodes G !! v) as [b|] eqn:Hv.
  2:{ left. split; [apply heuristic_missing|]; auto. }
  destruct (coords a) as [cu|] eqn:Hcu.
  2:{ left. split; [apply heuristic_missing|]; eauto 6. }
  destruct (coords b) as [cv|] eqn:Hcv.
  2:{ left. split; [apply heuristic_missing|]; eauto 7. }
  right. exists a, b, cu, cv. split_and!; try done.
  by apply (heuristic_with_coords G u v a b).
Qed.

(** X5.  The estimate is symmetric in its two stations. *)
Theorem heuristic_symmetric G u v : heuristic G u v = heuristic G v u.
Proof.
  destruct (heuristic_cases G u v)
    as [[-> H]|(a & b & cu & cv & Hu & Hcu & Hv & Hcv & ->)].
  - symmetry. apply heuristic_missing. tauto.
  - rewrite (heuristic_with_coords G v u b a cv cu) by done.
    by rewrite haversine_symmetric_aux.
Qed.

(** X6.  The estimate is NaN exactly when both stations carry the
    [coords] attribute and one of the four coordinates is NaN. *)
Theorem heuristic_nan_exactly_for_nan_coordinates G u v :
  heuristic G u v = Ret PyNaN <->
  exists a b cu cv,
    nodes G !! u = Some a /\ coords a = Some cu /\
    nodes G !! v = Some b /\ coords b = Some cv /\
    (stop_lat cu = PyNaN \/ stop_lon cu = PyNaN \/
     stop_lat cv = PyNaN \/ stop_lon cv = PyNaN).
Proof.
  split.
  - destruct (heuristic_cases G u v)
      as [[-> H]|(a & b & cu & cv & Hu & Hcu & Hv & Hcv & ->)]; [done|].
    intros Hnan. exists a, b, cu, cv. split_and!; try done.
    destruct (stop_lat cu), (stop_lon cu), (stop_lat cv), (stop_lon cv);
      auto.
    by rewrite haversine_num in Hnan.
  - intros (a & b & cu & cv & Hu & Hcu & Hv & Hcv & Hnan).
    rewrite (heuristic_with_coords G u v a b cu cv) by done.
    by rewrite haversine_nan.
Qed.

(** X7.  The estimate is never negative: whenever it is a number, the
    number is at least 0. *)
Theorem heuristic_number_not_negative G u v h :
  heuristic G u v = Ret (PyNum h) -> 0 <= h.
Proof.
  destruct (heuristic_cases G u v)
    as [[-> H]|(a & b & cu & cv & Hu & Hcu & Hv & Hcv & ->)].
  - intros [= <-]. lra.
  - destruct (stop_lat cu) as [a1|], (stop_lon cu) as [b1|],
      (stop_lat cv) as [a2|], (stop_lon cv) as [b2|]; try done.
    rewrite haversine_num. intros [= <-].
    destruct (great_circle_distance_range (IZR Config.R) a1 b1 a2 b2)
      as [H0 H1]; [unfold Config.R; lra|].
    unfold Config.R, Config.SUBWAY_SPEED_MPS in *. lra.
Qed.

Lemma heuristic_number_not_negative_witness : 0 <= 637100 * PI.
Proof.
  apply (heuristic_number_not_negative fast_graph "A" "B" (637100 * PI)).
  apply fast_graph_estimate.
Defined.

End heuristic_properties.

(** * Further properties of the network that is built *)

Section builder_properties.

Lemma foldl_insert_snoc {V} (f : stop_row -> V) (m : gmap string V) l x :
  foldl (fun m r => <[stop_id r := f r]> m) m (l ++ [x]) =
  <[stop_id x := f x]> (foldl (fun m r => <[stop_id r := f r]> m) m l).
Proof. by rewrite foldl_app. Qed.

Lemma foldl_insert_lookup {V} (f : stop_row -> V) stops_df r :
  NoDup (stop_id <$> stops_df) -> r ∈ stops_df ->
  foldl (fun m r => <[stop_id r := f r]> m) (∅ : gmap string V) stops_df
    !! stop_id r = Some (f r).
Proof.
  induction stops_df as [|x l IH] using rev_ind; [by intros _ ?%elem_of_nil|].
  rewrite fmap_app, foldl_insert_snoc. simpl.
  intros [Hl [Hx _]]%NoDup_app [Hr|Hr%list_elem_of_singleton]%elem_of_app;
    [|subst r].
  - rewrite lookup_insert_ne; [by apply IH|].
    intros Heq. apply (Hx (stop_id r)).
    + by apply list_elem_of_fmap_2.
    + rewrite Heq. by apply list_elem_of_singleton.
  - by rewrite lookup_insert_eq.
Qed.


Lemma nodes_add_nodes_from G ns n a :
  nodes (Nx.add_nodes_from G ns) !! n = Some a ->
  nodes G !! n = Some a \/ a = {| name := None; coords := None |}.
Proof.
  revert G. induction ns as [|m ns IH]; intros G; simpl; [auto|].
  intros [Hn|Hn]%IH; [|by right].
  destruct (Nx.has_node G m); [by left|].
  simpl in Hn. destruct (decide (m = n)) as [->|Hne].
  - rewrite lookup_insert_eq in Hn. injection Hn as <-. by right.
  - rewrite lookup_insert_ne in Hn by done. by left.
Qed.

(** The attributes of a listed station before any edge is added. *)
Lemma stations_graph_nodes stops_df cs n :
  n ∈ stop_id <$> stops_df ->
  nodes (stations_graph stops_df cs) !! n =
  Some {| name := stop_name_map stops_df !! n; coords := cs !! n |}.
Proof.
  intros Hn. unfold stations_graph. simpl. rewrite !map_lookup_imap.
  destruct (add_nodes_from_spec Nx.empty_graph (stop_id <$> stops_df))
    as (_ & _ & Hsome).
  { apply wf_empty_graph. }
  { intros u nbrs. simpl. by rewrite lookup_empty. }
  destruct (proj2 (Hsome n)) as [a Ha]; [by right|].
  rewrite Ha. simpl.
  apply nodes_add_nodes_from in Ha as [Ha| ->].
  { simpl in Ha. by rewrite lookup_empty in Ha. }
  by destruct (stop_name_map stops_df !! n), (cs !! n).
Qed.

Lemma nodes_trips_Some G trips m x :
  wf_graph G -> nodes G !! m = Some x ->
  nodes (foldl add_trip_edge G trips) !! m = Some x.
Proof.
  intros Hwf Hm.
  cut (wf_graph (foldl add_trip_edge G trips) /\
       nodes (foldl add_trip_edge G trips) !! m = Some x); [tauto|].
  apply (foldl_preserves (fun G => wf_graph G /\ nodes G !! m = Some x));
    [done|].
  intros G' row _ [Hwf' Hm']. split; [by apply wf_add_trip_edge|].
  by apply nodes_add_edge_Some.
Qed.

Lemma nodes_add_transfer_edge G te :
  wf_graph G -> nodes (add_transfer_edge G te) = nodes G.
Proof.
  intros Hwf. unfold add_transfer_edge.
  destruct (Nx.has_node G (tr_from te) && Nx.has_node G (tr_to te)) eqn:Hb;
    [|done].
  apply andb_true_iff in Hb as [Hu%has_node_true Hv%has_node_true].
  apply (wf_dom _ Hwf) in Hu, Hv.
  rewrite nodes_add_edge. unfold ensure_node.
  rewrite (bool_decide_eq_true_2 (is_Some (adj G !! tr_from te))) by done.
  by rewrite bool_decide_eq_true_2 by done.
Qed.

Lemma nodes_transfers G l :
  wf_graph G -> nodes (foldl add_transfer_edge G l) = nodes G.
Proof.
  intros Hwf.
  cut (wf_graph (foldl add_transfer_edge G l) /\
       nodes (foldl add_transfer_edge G l) = nodes G); [tauto|].
  apply (foldl_preserves (fun G' => wf_graph G' /\ nodes G' = nodes G));
    [done|].
  intros G' te _ [Hwf' Hn]. split; [by apply wf_add_transfer_edge|].
  by rewrite nodes_add_transfer_edge.
Qed.

Lemma nodes_add_edge_inv G u v attr m :
  is_Some (nodes (Nx.add_edge G u v attr) !! m) ->
  is_Some (nodes G !! m) \/ m = u \/ m = v.
Proof.
  rewrite nodes_add_edge. intros [x Hx].
  apply nodes_ensure_node_inv in Hx as [Hx|[-> _]]; [|auto].
  apply nodes_ensure_node_inv in Hx as [Hx|[-> _]]; [|auto].
  left. eauto.
Qed.

Lemma nodes_trips_inv G trips m :
  is_Some (nodes (foldl add_trip_edge G trips) !! m) ->
  is_Some (nodes G !! m) \/
  exists row, row ∈ trips /\ (m = trip_from row \/ m = trip_to row).
Proof.
  induction trips as [|row l IH] using rev_ind; [by left|].
  rewrite foldl_app. simpl. intros Hm.
  apply (nodes_add_edge_inv _ (trip_from row) (trip_to row)
           {| weight := Some (trip_weight row); type := Some travel;
              route := Some (route_id row) |}) in Hm as [Hm|Hm].
  - destruct (IH Hm) as [?|(row' & Hrow' & ?)]; [auto|].
    right. exists row'. split; [|done]. apply elem_of_app. by left.
  - right. exists row. split; [|done].
    apply elem_of_app. right. by apply list_elem_of_singleton.
Qed.

(** X9.  The nodes of the network are the listed stations and the ends of
    the travel rows: a transfer row never adds a node. *)
Theorem built_nodes stops_df trip_edges_df transfers G n :
  build_network stops_df trip_edges_df transfers = Ret G ->
  Nx.has_node G n = true <->
  n ∈ stop_id <$> stops_df \/
  exists row, row ∈ trip_edges_df /\ (n = trip_from row \/ n = trip_to row).
Proof.
  intros (cs & _ & ->)%build_network_unfold.
  destruct (stations_graph_spec stops_df cs) as (Hwf & _ & Hnodes).
  rewrite has_node_true, nodes_transfers by (by apply wf_trips).
  split.
  - intros [Hn|Hrow]%nodes_trips_inv; [left; by apply Hnodes | by right].
  - intros [Hn|(row & Hrow & Hends)].
    + apply nodes_mono_trips; [done|]. by apply Hnodes.
    + destruct (trips_ends_nodes _ _ row Hwf Hrow) as [Hu Hv].
      by destruct Hends as [-> | ->].
Qed.

Lemma built_nodes_witness :
  Nx.has_node unlisted_graph "X" = true <->
  "X" ∈ stop_id <$> unlisted_stops \/
  exists row, row ∈ unlisted_trips /\
    ("X" = trip_from row \/ "X" = trip_to row).
Proof.
  apply (built_nodes unlisted_stops unlisted_trips [] unlisted_graph "X").
  vm_compute. reflexivity.
Defined.

(** X10.  Every listed station is a node that carries the name and the
    coordinates of its row. *)
Theorem listed_station_attributes stops_df trip_edges_df transfers G r :
  build_network stops_df trip_edges_df transfers = Ret G ->
  r ∈ stops_df ->
  nodes G !! stop_id r =
  Some {| name := Some (stop_name r);
          coords := Some {| stop_lat := row_lat r; stop_lon := row_lon r |} |}.
Proof.
  intros Hb Hr.
  assert (NoDup (stop_id <$> stops_df)) as Hnd.
  { unfold build_network, stop_coords in Hb. by case_bool_decide. }
  apply build_network_unfold in Hb as (cs & Hcs & ->).
  destruct (stations_graph_spec stops_df cs) as (Hwf & _ & _).
  rewrite nodes_transfers by (by apply wf_trips).
  apply nodes_trips_Some; [done|].
  rewrite stations_graph_nodes by (by apply list_elem_of_fmap_2).
  unfold stop_coords in Hcs. rewrite bool_decide_eq_true_2 in Hcs by done.
  injection Hcs as <-. unfold stop_name_map.
  by rewrite !foldl_insert_lookup.
Qed.

Lemma listed_station_attributes_witness :
  nodes null_coords_graph !! "A" =
  Some {| name := Some "A";
          coords := Some {| stop_lat := PyNaN; stop_lon := PyNaN |} |}.
Proof.
  apply (listed_station_attributes null_coords_stops [] [] null_coords_graph
           {| stop_id := "A"; stop_name := "A";
              row_lat := PyNaN; row_lon := PyNaN |}).
  - vm_compute. reflexivity.
  - left.
Defined.

Lemma transfers_edge_other G l u v :
  (forall te, te ∈ l -> pair_of_edge te ≠ (u, v)) ->
  edge (foldl add_transfer_edge G l) u v = edge G u v.
Proof.
  revert G. induction l as [|te l IH]; intros G Hl; simpl; [done|].
  rewrite IH by (intros x Hx; apply Hl; by right).
  destruct (add_transfer_edge_edge G te u v) as [H|[Hp _]]; [done|].
  destruct (Hl te); [left | done].
Qed.

(** X11.  The last travel row of an ordered pair that no transfer row
    between two different stations shares is an edge of the network, with
    its duration as weight and its route: also when it joins a station to
    itself or names a station the stops table does not list. *)
Theorem travel_row_edge stops_df t1 tr t2 transfers G :
  build_network stops_df (t1 ++ tr :: t2) transfers = Ret G ->
  (forall x, x ∈ t2 -> pair_of_trip x ≠ pair_of_trip tr) ->
  (forall r, r ∈ transfers -> pair_of_transfer r = pair_of_trip tr ->
     from_stop_id r = to_stop_id r) ->
  edge G (trip_from tr) (trip_to tr) =
  Some {| weight := Some (trip_weight tr); type := Some travel;
          route := Some (route_id tr) |}.
Proof.
  intros (cs & _ & ->)%build_network_unfold Ht2 Htr.
  rewrite transfers_edge_other; [by apply trips_edge_last|].
  intros te (r & Hr & Hne & ->)%transfer_query_elem Hp.
  by apply Hne, Htr.
Qed.

Lemma travel_row_edge_witness :
  edge unlisted_graph "A" "X" =
  Some {| weight := Some 60; type := Some travel; route := Some "1" |}.
Proof.
  apply (travel_row_edge unlisted_stops [] (trip "A" "X" 60 "1") [] []
           unlisted_graph).
  - vm_compute. reflexivity.
  - intros x Hx. by apply elem_of_nil in Hx.
  - intros r Hr. by apply elem_of_nil in Hr.
Defined.

(** X12.  No edge dangles: both ends of every edge are nodes of the
    network. *)
Theorem edge_ends_are_nodes stops_df trip_edges_df transfers G u v d :
  build_network stops_df trip_edges_df transfers = Ret G ->
  edge G u v = Some d ->
  Nx.has_node G u = true /\ Nx.has_node G v = true.
Proof.
  intros Hwf%build_network_wf He. rewrite !has_node_true. split.
  - apply (wf_dom _ Hwf). unfold edge in He.
    destruct (adj G !! u); [eauto | done].
  - by eapply wf_succ.
Qed.

Lemma edge_ends_are_nodes_witness :
  Nx.has_node unlisted_graph "A" = true /\
  Nx.has_node unlisted_graph "X" = true.
Proof.
  apply (edge_ends_are_nodes unlisted_stops unlisted_trips [] unlisted_graph
           "A" "X"
           {| weight := Some 60; type := Some travel; route := Some "1" |});
    vm_compute; reflexivity.
Defined.

(** X13.  Every edge carries a weight and a kind, and a travel edge
    carries a route: reading [edge['weight']] never fails, and the default
    weight of the search is never used. *)
Theorem edge_carries_weight_and_kind
    stops_df trip_edges_df transfers G u v d :
  build_network stops_df trip_edges_df transfers = Ret G ->
  edge G u v = Some d ->
  exists w k, weight d = Some w /\ type d = Some k /\
    Nx.weight_function d = w /\
    (k = travel -> is_Some (route d)).
Proof.
  intros Hb He.
  destruct (build_network_edge_inv _ _ _ _ _ _ _ Hb He)
    as [(row & _ & _ & ->)|(te & _ & _ & Hw & Hk)].
  - eexists _, _. split_and!; try done; simpl; eauto.
  - eexists _, _. split_and!; try done.
    unfold Nx.weight_function. by rewrite Hw.
Qed.

Lemma edge_carries_weight_and_kind_witness :
  exists w k,
    weight {| weight := Some 50; type := Some transfer; route := Some "1" |}
    = Some w /\
    type {| weight := Some 50; type := Some transfer; route := Some "1" |}
    = Some k /\
    Nx.weight_function
      {| weight := Some 50; type := Some transfer; route := Some "1" |} = w /\
    (k = travel ->
     is_Some (route {| weight := Some 50; type := Some transfer;
                       route := Some "1" |})).
Proof.
  apply (edge_carries_weight_and_kind scenario_stops scenario_trips
           scenario_B_transfers scenario_B_graph "A" "B");
    vm_compute; reflexivity.
Defined.

(** X14.  The weight of a transfer edge is positive, and when no travel
    row has a negative duration no edge of the network has a negative
    weight. *)
Theorem edge_weights_not_negative
    stops_df trip_edges_df transfers G u v d :
  build_network stops_df trip_edges_df transfers = Ret G ->
  (forall row, row ∈ trip_edges_df -> 0 <= trip_weight row) ->
  edge G u v = Some d ->
  0 <= Nx.weight_function d /\
  (type d = Some transfer -> 0 < Nx.weight_function d).
Proof.
  intros Hb Hrows He.
  destruct (build_network_edge_inv _ _ _ _ _ _ _ Hb He)
    as [(row & Hrow & _ & ->)|(te & Hte & _ & Hw & Hk)].
  - unfold Nx.weight_function. simpl. split; [by apply Hrows | done].
  - apply transfer_query_elem in Hte as (r & _ & _ & ->). simpl in Hw.
    unfold Nx.weight_function. rewrite Hw. simpl.
    pose proof (transfer_weight_pos (min_transfer_time r)). split; [lia|done].
Qed.

Lemma edge_weights_not_negative_witness :
  0 <= Nx.weight_function
         {| weight := Some 180; type := Some transfer; route := None |} /\
  (type {| weight := Some 180; type := Some transfer; route := None |}
   = Some transfer ->
   0 < Nx.weight_function
         {| weight := Some 180; type := Some transfer; route := None |}).
Proof.
  apply (edge_weights_not_negative scenario_stops [] scenario_E_transfers
           scenario_E_graph "A" "B").
  - vm_compute. reflexivity.
  - intros row Hrow. by apply elem_of_nil in Hrow.
  - vm_compute. reflexivity.
Defined.

End builder_properties.

(** * Further properties of the search and of the prediction *)

Section prediction_properties.

Lemma stop_name_map_listed stops_df r :
  NoDup (stop_id <$> stops_df) -> r ∈ stops_df ->
  stop_name_map stops_df !! stop_id r = Some (stop_name r).
Proof. apply foldl_insert_lookup. Qed.


Lemma build_network_NoDup stops_df trip_edges_df transfers G :
  build_network stops_df trip_edges_df transfers = Ret G ->
  NoDup (stop_id <$> stops_df).
Proof.
  intros Hb. unfold build_network, stop_coords in Hb. by case_bool_decide.
Qed.

Lemma listed_station_node stops_df trip_edges_df transfers G r :
  build_network stops_df trip_edges_df transfers = Ret G ->
  r ∈ stops_df -> Nx.has_node G (stop_id r) = true.
Proof.
  intros (cs & _ & ->)%build_network_unfold Hr.
  destruct (stations_graph_spec stops_df cs) as (Hwf & _ & Hnodes).
  apply has_node_true.
  apply nodes_mono_transfers; [by apply wf_trips|].
  apply nodes_mono_trips; [done|].
  by apply Hnodes, list_elem_of_fmap_2.
Qed.

(** The lines of the first steps of a path that follows edges carrying a
    weight. *)
Lemma print_segments_spec G names path u v cost :
  (forall x y d, edge G x y = Some d -> is_Some (weight d)) ->
  itinerary G path u v cost ->
  forall fuel i,
  exists segs,
    print_segments fuel i G names path = (segs, Ret tt) /\
    length segs = (fuel `min` (length path - 1))%nat /\
    forall k x y, (k < fuel)%nat ->
      path !! k = Some x -> path !! S k = Some y ->
      exists d w, edge G x y = Some d /\ weight d = Some w /\
        segs !! k =
        Some (Print (Segment (S (i + k)) (names !! x) (names !! y)
                       (if bool_decide (type d = Some travel)
                        then TakeLine (route d) else TransferWalk) w)).
Proof.
  intros Hweight.
  induction 1 as [u|u x d rest v c He Hp IH]; intros fuel i.
  - exists []. split; [by destruct fuel|]. split; [simpl; lia|].
    intros k a b _ _ Hb. by destruct k.
  - destruct fuel as [|fuel].
    { exists []. split; [done|]. split; [done|]. intros k a b Hk. lia. }
    destruct (IH fuel (S i)) as (segs & Hsegs & Hlen & Hlines).
    destruct (Hweight _ _ _ He) as [w Hw].
    eexists (_ :: segs). split_and!.
    + simpl. rewrite get_edge_edge, He. simpl. rewrite Hw. simpl.
      rewrite Hsegs. reflexivity.
    + simpl in *. lia.
    + intros k a b Hk Ha Hb. destruct k as [|k].
      * injection Ha as <-. injection Hb as <-. exists d, w.
        rewrite Nat.add_0_r. done.
      * simpl in Ha, Hb. destruct (Hlines k a b) as (d' & w' & ? & ? & Hl);
          [lia | done | done |].
        exists d', w'. split_and!; try done. simpl. rewrite Hl.
        do 3 f_equal. lia.
Qed.

Local Arguments print_segments : simpl never.

Lemma predict_found fuel G names s t path total ns nt segs :
  Nx.has_node G s = true -> Nx.has_node G t = true ->
  Nx_astar.astar_path fuel G s t (heuristic G) = Ret path ->
  Nx_astar.astar_path_length fuel G s t (heuristic G) = Ret total ->
  names !! s = Some ns -> names !! t = Some nt ->
  print_segments 5 0 G names path = (segs, Ret tt) ->
  predict fuel G names s t =
  ([Print (Calculating ns nt); CallAstarPath s t; CallAstarPathLength s t;
    Print Successful; Print (Origin ns s); Print (Destination nt t);
    Print (TotalTime total); Print (Stops (Z.of_nat (length path) - 1));
    Print RouteSegment] ++ segs, Ret tt).
Proof.
  intros Hs Ht Hpath Hlen Hns Hnt Hsegs. unfold predict.
  rewrite Hs, Ht, Hpath, Hlen, Hns, Hnt. simpl. by rewrite Hsegs.
Qed.


(** X15.  For two listed stations of a built network whose durations are
    not negative, the prediction returns normally, whether or not a path
    joins them, as long as the estimate towards the destination raises no
    exception: the search ends, [NetworkXNoPath] is caught, and no lookup
    of the prediction fails. *)
Theorem prediction_returns_when_estimate_returns
    stops_df trip_edges_df transfers G rs rt :
  build_network stops_df trip_edges_df transfers = Ret G ->
  (forall row, row ∈ trip_edges_df -> 0 <= trip_weight row) ->
  rs ∈ stops_df -> rt ∈ stops_df ->
  (forall n, exists x, heuristic G n (stop_id rt) = Ret x) ->
  exists n, forall fuel, (n <= fuel)%nat ->
    (predict fuel G (stop_name_map stops_df) (stop_id rs) (stop_id rt)).2
    = Ret tt.
Proof.
  intros Hb Hrows Hrs Hrt Hestimate.
  pose proof (listed_station_node _ _ _ _ _ Hb Hrs) as Hs.
  pose proof (listed_station_node _ _ _ _ _ Hb Hrt) as Ht.
  pose proof (build_network_NoDup _ _ _ _ Hb) as Hnd.
  destruct (astar_always_ends G (heuristic G) (stop_id rs) (stop_id rt))
    as [n [Hno|(path & cost & Hit & Hrun)]]; try done.
  - by eapply build_network_wf.
  - by eapply build_network_nonneg.
  - by eapply build_network_edge_unique.
  - exists n. intros fuel Hfuel. destruct (Hno fuel Hfuel) as [Hpath _].
    unfold predict. rewrite Hs, Ht, Hpath. reflexivity.
  - destruct (print_segments_spec G (stop_name_map stops_df) path
                (stop_id rs) (stop_id rt) cost)
      with (fuel := 5%nat) (i := 0%nat) as (segs & Hsegs & _); [|done|].
    { intros x y d He.
      destruct (build_network_edge_inv _ _ _ _ _ _ _ Hb He)
        as [(row & _ & _ & ->)|(te & _ & _ & Hw & _)]; simpl; eauto. }
    exists n. intros fuel Hfuel. destruct (Hrun fuel Hfuel) as [Hpath Hlen].
    by rewrite (predict_found fuel G _ _ _ path cost (stop_name rs)
                  (stop_name rt) segs)
      by (try done; by apply stop_name_map_listed).
Qed.

Lemma prediction_returns_when_estimate_returns_witness :
  exists n, forall fuel, (n <= fuel)%nat ->
    (predict fuel scenario_A_graph (stop_name_map scenario_stops)
       (stop_id (station "A" 0 0)) (stop_id (station "C" 0 0))).2
    = Ret tt.
Proof.
  apply (prediction_returns_when_estimate_returns scenario_stops
           scenario_trips [] scenario_A_graph (station "A" 0 0)
           (station "C" 0 0)).
  - apply scenario_A_built.
  - apply scenario_trips_nonneg.
  - set_solver.
  - set_solver.
  - intros n. eexists. apply scenario_A_estimate.
Defined.







(** X19.  From a node of the network to itself the search returns the
    one-station path and the total 0 at its first turn, whatever the
    edges, the weights and the estimate. *)
Theorem search_from_a_station_to_itself G h s fuel :
  Nx.has_node G s = true ->
  Nx_astar.astar_path (S fuel) G s s h = Ret [s] /\
  Nx_astar.astar_path_length (S fuel) G s s h = Ret 0.
Proof. apply astar_same_endpoint. Qed.

Lemma search_from_a_station_to_itself_witness :
  Nx_astar.astar_path 1 scenario_A_graph "B" "B" (heuristic scenario_A_graph)
  = Ret ["B"] /\
  Nx_astar.astar_path_length 1 scenario_A_graph "B" "B"
    (heuristic scenario_A_graph) = Ret 0.
Proof.
  apply (search_from_a_station_to_itself scenario_A_graph
           (heuristic scenario_A_graph) "B" 0).
  vm_compute. reflexivity.
Defined.

End prediction_properties.

(** * Clock times as seconds *)

Section time_properties.
Import Gtfs_to_sql.
Local Arguments two_digits : simpl never.
Local Arguments int : simpl never.

Lemma split_no_colon x : colons x = 0%nat -> split ":" x = [x].
Proof.
  induction x as [|a x IH]; simpl; [done|].
  destruct (Ascii.eqb a ":"); [done|]. intros Hx. by rewrite IH.
Qed.

Lemma split_field x rest :
  colons x = 0%nat -> split ":" (x +:+ String ":" rest) = x :: split ":" rest.
Proof.
  induction x as [|a x IH]; simpl; [done|].
  destruct (Ascii.eqb a ":"); [done|]. intros Hx. by rewrite IH.
Qed.

Lemma length_split s : length (split ":" s) = S (colons s).
Proof.
  induction s as [|a s IH]; simpl; [done|].
  destruct (Ascii.eqb a ":"); simpl; [by rewrite IH|].
  destruct (split ":" s); simpl in *; lia.
Qed.

(** The result in terms of the first three parts. *)
Lemma time_of_parts max_str_digits s a b c l :
  split ":" s = a :: b :: c :: l ->
  gtfs_time_to_seconds max_str_digits (CellStr s) =
  match int max_str_digits a, int max_str_digits b, int max_str_digits c with
  | inr h, inr m, inr s => Some (h * 3600 + m * 60 + s)
  | _, _, _ => None
  end.
Proof.
  intros Hs. unfold gtfs_time_to_seconds, seconds_of_parts. simpl.
  rewrite Hs. simpl.
  destruct (int max_str_digits a); simpl; [done|].
  destruct (int max_str_digits b); simpl; [done|].
  by destruct (int max_str_digits c).
Qed.

Lemma two_digits_checked max_str_digits :
  forallb (fun n =>
    match int max_str_digits (two_digits n),
          int max_str_digits ("-" +:+ two_digits n) with
    | inr x, inr y =>
        (x =? Z.of_nat n) && (y =? - Z.of_nat n) &&
        (colons (two_digits n) =? 0)%nat
    | _, _ => false
    end) (seq 0 100) = true.
Proof. vm_compute. reflexivity. Qed.

Lemma int_two_digits max_str_digits n :
  (n < 100)%nat ->
  int max_str_digits (two_digits n) = inr (Z.of_nat n) /\
  int max_str_digits ("-" +:+ two_digits n) = inr (- Z.of_nat n) /\
  colons (two_digits n) = 0%nat.
Proof.
  intros Hn.
  pose proof (proj1 (forallb_forall _ _) (two_digits_checked max_str_digits) n)
    as Hc.
  assert (In n (seq 0 100)) as Hin by (apply in_seq; lia).
  specialize (Hc Hin). cbv beta in Hc.
  destruct (int max_str_digits (two_digits n)) as [|x]; [done|].
  destruct (int max_str_digits ("-" +:+ two_digits n)) as [|y]; [done|].
  apply andb_true_iff in Hc as [Hc Hz%Nat.eqb_eq].
  apply andb_true_iff in Hc as [Hx%Z.eqb_eq Hy%Z.eqb_eq].
  by subst.
Qed.

Lemma split_clock x y z :
  colons x = 0%nat -> colons y = 0%nat -> colons z = 0%nat ->
  split ":" (x +:+ ":" +:+ y +:+ ":" +:+ z) = [x; y; z].
Proof.
  intros Hx Hy Hz.
  change (":" +:+ y +:+ ":" +:+ z) with (String ":" (y +:+ String ":" z)).
  by rewrite !split_field, split_no_colon.
Qed.

(** X20.  A clock time written as GTFS writes it, with two digits for the
    hours, the minutes and the seconds, gives the seconds since midnight;
    the hours may go beyond 24. *)
Theorem clock_time_to_seconds max_str_digits h m s :
  (h < 100)%nat -> (m < 100)%nat -> (s < 100)%nat ->
  gtfs_time_to_seconds max_str_digits (CellStr (clock h m s)) =
  Some (Z.of_nat h * 3600 + Z.of_nat m * 60 + Z.of_nat s).
Proof.
  intros Hh Hm Hs.
  destruct (int_two_digits max_str_digits h Hh) as (Eh & _ & Ch).
  destruct (int_two_digits max_str_digits m Hm) as (Em & _ & Cm).
  destruct (int_two_digits max_str_digits s Hs) as (Es & _ & Cs).
  rewrite (time_of_parts max_str_digits _ (two_digits h) (two_digits m)
             (two_digits s) []) by (by apply split_clock).
  by rewrite Eh, Em, Es.
Qed.

Lemma clock_time_to_seconds_witness :
  gtfs_time_to_seconds 4300 (CellStr (clock 25 30 0)) =
  Some (Z.of_nat 25 * 3600 + Z.of_nat 30 * 60 + Z.of_nat 0).
Proof. apply (clock_time_to_seconds 4300 25 30 0); lia. Defined.

(** X21.  Only the first three parts of the string are read: whatever
    follows a third colon changes nothing. *)
Theorem time_ignores_further_fields max_str_digits a b c rest :
  colons a = 0%nat -> colons b = 0%nat -> colons c = 0%nat ->
  gtfs_time_to_seconds max_str_digits
    (CellStr (a +:+ ":" +:+ b +:+ ":" +:+ c +:+ ":" +:+ rest)) =
  gtfs_time_to_seconds max_str_digits
    (CellStr (a +:+ ":" +:+ b +:+ ":" +:+ c)).
Proof.
  intros Ha Hb Hc.
  rewrite (time_of_parts max_str_digits (a +:+ ":" +:+ b +:+ ":" +:+ c)
             a b c []) by (by apply split_clock).
  apply (time_of_parts max_str_digits _ a b c (split ":" rest)).
  change (":" +:+ b +:+ ":" +:+ c +:+ ":" +:+ rest)
    with (String ":" (b +:+ String ":" (c +:+ String ":" rest))).
  by rewrite !split_field.
Qed.

Lemma time_ignores_further_fields_witness :
  gtfs_time_to_seconds 4300
    (CellStr ("08" +:+ ":" +:+ "05" +:+ ":" +:+ "30" +:+ ":" +:+ "pm")) =
  gtfs_time_to_seconds 4300 (CellStr ("08" +:+ ":" +:+ "05" +:+ ":" +:+ "30")).
Proof.
  apply (time_ignores_further_fields 4300 "08" "05" "30" "pm"); reflexivity.
Defined.

(** X22.  A string with fewer than two colons gives [None]: the third
    part is missing, and the exception is swallowed. *)
Theorem time_none_without_three_fields max_str_digits s :
  (colons s < 2)%nat ->
  gtfs_time_to_seconds max_str_digits (CellStr s) = None.
Proof.
  intros Hs. unfold gtfs_time_to_seconds, seconds_of_parts. simpl.
  assert (split ":" s !! 2%nat = None) as Hnone.
  { apply lookup_ge_None. rewrite length_split. lia. }
  unfold getitem. rewrite Hnone.
  destruct (split ":" s !! 0%nat); simpl; [|done].
  destruct (int max_str_digits _); simpl; [done|].
  destruct (split ":" s !! 1%nat); simpl; [|done].
  by destruct (int max_str_digits _).
Qed.

Lemma time_none_without_three_fields_witness :
  gtfs_time_to_seconds 4300 (CellStr "08:05") = None.
Proof. apply (time_none_without_three_fields 4300 "08:05"). simpl. lia. Defined.

(** X23.  A minus sign before the hours is accepted and negates the hours
    only, so the result can be negative. *)
Theorem negative_hours_accepted max_str_digits h m s :
  (h < 100)%nat -> (m < 100)%nat -> (s < 100)%nat ->
  gtfs_time_to_seconds max_str_digits (CellStr ("-" +:+ clock h m s)) =
  Some (- Z.of_nat h * 3600 + Z.of_nat m * 60 + Z.of_nat s).
Proof.
  intros Hh Hm Hs.
  destruct (int_two_digits max_str_digits h Hh) as (_ & Eh & Ch).
  destruct (int_two_digits max_str_digits m Hm) as (Em & _ & Cm).
  destruct (int_two_digits max_str_digits s Hs) as (Es & _ & Cs).
  rewrite (time_of_parts max_str_digits _ ("-" +:+ two_digits h)
             (two_digits m) (two_digits s) []).
  - by rewrite Eh, Em, Es.
  - apply (split_clock ("-" +:+ two_digits h)); done.
Qed.

Lemma negative_hours_accepted_witness :
  gtfs_time_to_seconds 4300 (CellStr ("-" +:+ clock 1 0 0)) =
  Some (- Z.of_nat 1 * 3600 + Z.of_nat 0 * 60 + Z.of_nat 0).
Proof. apply (negative_hours_accepted 4300 1 0 0); lia. Defined.

End time_properties.
